(** * Toledo: module loader and live configuration store

    A shallow embedding of [src/server/handlers/modules.js] (class
    [ModuleLoader]) and of the configuration handler ([handlers/config.js],
    [updateObjectInPlace] and [loadConfig]), together with the properties
    of the dependency resolver, the manifest validator, the lifecycle
    initializer and the hot-reload merge.  It goes on with the directory
    scan of the loader, the logger the loader writes to
    ([handlers/console.js]) and two holders of the live configuration,
    the webhook logger and the list of all servers.

    Layout: Part I gives the data model and the embedded functions,
    Part II the theorems. *)

From stdpp Require Import base option strings list gmap pretty.
From Stdlib Require Import ZArith Lia.

Set Default Proof Using "Type".
Local Set Warnings "-register-all,-clear-no-such-hyp".
Local Open Scope string_scope.
Local Open Scope nat_scope.
Local Open Scope list_scope.


(* ===================================================================== *)
(** * Part I: data model and embedded code                                *)
(* ===================================================================== *)

(** ** JavaScript containers *)

(** A JavaScript [Map] with string keys: an association list in insertion
    order.  [set] on an existing key keeps the key's position. *)
Module JsMap.
Section jsmap.
Context {V : Type}.

Definition t := list (string * V).

Definition empty : t := [].

Fixpoint get (m : t) (k : string) : option V :=
  match m with
  | [] => None
  | (k', v) :: m' => if decide (k' = k) then Some v else get m' k
  end.

Definition has (m : t) (k : string) : bool :=
  match get m k with Some _ => true | None => false end.

Fixpoint set (m : t) (k : string) (v : V) : t :=
  match m with
  | [] => [(k, v)]
  | (k', v') :: m' =>
  if decide (k' = k) then (k, v) :: m' else (k', v') :: set m' k v
  end.

Definition keys (m : list (string * V)) : list string := m.*1.

(** Every [Map] built by [set] from [empty] has pairwise distinct keys. *)
Definition wf (m : t) : Prop := NoDup (keys m).
End jsmap.
Global Arguments t : clear implicits.
End JsMap.

(** A JavaScript [Set] of strings, in insertion order. *)
Module JsSet.
Definition t := list string.

Definition empty : t := [].

Definition has (s : list string) (x : string) : bool := bool_decide (x ∈ s).

Definition add (s : list string) (x : string) : t :=
  if has s x then s else s ++ [x].

Definition delete (s : list string) (x : string) : t := filter (λ y, y ≠ x) s.
End JsSet.

(** Truthiness of the JavaScript values that occur in a manifest: a missing
    property ([undefined]), the empty string and the number [0] are falsy. *)
Class Truthy (A : Type) := truthy : A → bool.
Global Instance string_truthy : Truthy string :=
  λ s, match s with EmptyString => false | String _ _ => true end.
Global Instance Z_truthy : Truthy Z := λ z, negb (Z.eqb z 0).
Global Instance option_truthy {A} `{Truthy A} : Truthy (option A) :=
  λ o, match o with Some a => truthy a | None => false end.

(** ** The logger *)

Inductive Level := LevelError | LevelWarn.

Record LogEntry := mkLogEntry { level : Level; message : string }.

Definition Logger := list LogEntry.

Definition logger_error (l : Logger) (msg : string) : Logger :=
  l ++ [mkLogEntry LevelError msg].

Definition logger_warn (l : Logger) (msg : string) : Logger :=
  l ++ [mkLogEntry LevelWarn msg].

(** ** Manifests and module records *)

Record Dependency := mkDependency {
  dep_name : string;
  dep_optional : bool
}.

(** The manifest object [HeliactylModule].  A field is [None] when the
    property is absent from the object. *)
Record Manifest := mkManifest {
  name : option string;
  version : option string;
  api_level : option Z;
  target_platform : option string;
  dependencies : option (list Dependency)
}.

(** Outcome of awaiting a module's [load(app, db)]: it completes, or it
    throws (or its promise rejects); either way it may have changed the
    host. *)
Inductive LoadResult (Host : Type) :=
  | Completed (h : Host)
  | Threw (h : Host).
Global Arguments Completed {Host} h.
Global Arguments Threw {Host} h.

(** What [require(modulePath)] evaluates to.  [load] is [None] when the
    export is missing or is not a function. *)
Record ModuleExports (Host : Type) := mkExports {
  HeliactylModule : option Manifest;
  load : option (Host → LoadResult Host)
}.
Global Arguments mkExports {Host} _ _.
Global Arguments HeliactylModule {Host} _.
Global Arguments load {Host} _.

(** A registry entry, as built by [loadModule]. *)
Record ModuleRecord (Host : Type) := mkRecord {
  mod_id : string;
  mod_path : string;
  exports : ModuleExports Host;
  manifest : Manifest
}.
Global Arguments mkRecord {Host} _ _ _ _.
Global Arguments mod_id {Host} _.
Global Arguments mod_path {Host} _.
Global Arguments exports {Host} _.
Global Arguments manifest {Host} _.

(** What the loader takes from outside this repository: the host handles
    [app] and [db] (one state of type [Host]), [semver.satisfies] and
    Node's [require]; [require] is [None] when evaluating the file throws. *)
Class Externals := {
  Host : Type;
  semver_satisfies : string → string → bool;
  require : string → option (ModuleExports Host)
}.

(** ** The dependency resolver: [sortModulesByDependency] *)

(** The variables captured by the closure [visit]. *)
Record SortState := mkSortState {
  visited : JsSet.t;
  visiting : JsSet.t;
  sorted : list string;
  sort_logger : Logger
}.

Definition declared_dependencies {Host} (moduleMap : JsMap.t (ModuleRecord Host))
    (moduleId : string) : list Dependency :=
  match JsMap.get moduleMap moduleId with
  | Some module =>
      match dependencies (manifest module) with
      | Some deps => deps
      | None => []
      end
  | None => []
  end.

Definition log_missing_dependency (moduleId : string) (dep : Dependency)
    (st : SortState) : SortState :=
  mkSortState (visited st) (visiting st) (sorted st)
    (if dep_optional dep
     then logger_warn (sort_logger st)
            ("Optional dependency " +:+ dep_name dep +:+ " for module "
               +:+ moduleId +:+ " not found")
     else logger_error (sort_logger st)
            ("Required dependency " +:+ dep_name dep +:+ " for module "
               +:+ moduleId +:+ " not found")).

(** The [for (const dep of module.manifest.dependencies)] loop; [visit_rec]
    is the recursive call. *)
Fixpoint for_each_dependency {Host} (visit_rec : SortState → string → option SortState)
    (moduleMap : JsMap.t (ModuleRecord Host)) (moduleId : string)
    (deps : list Dependency) (st : SortState) : option SortState :=
  match deps with
  | [] => Some st
  | dep :: deps' =>
      if negb (JsMap.has moduleMap (dep_name dep))
      then for_each_dependency visit_rec moduleMap moduleId deps'
             (log_missing_dependency moduleId dep st)
      else
        match visit_rec st (dep_name dep) with
        | Some st' => for_each_dependency visit_rec moduleMap moduleId deps' st'
        | None => None
        end
  end.

(** [visit]; the recursion is bounded by [fuel], [None] meaning that the
    bound was reached. *)
Fixpoint visit {Host} (fuel : nat) (moduleMap : JsMap.t (ModuleRecord Host))
    (st : SortState) (moduleId : string) : option SortState :=
  match fuel with
  | O => None
  | S fuel' =>
      if JsSet.has (visited st) moduleId then Some st
      else if JsSet.has (visiting st) moduleId then
        Some (mkSortState (visited st) (visiting st) (sorted st)
                (logger_error (sort_logger st)
                   ("Circular dependency detected involving module " +:+ moduleId)))
      else
        let st1 := mkSortState (visited st) (JsSet.add (visiting st) moduleId)
                     (sorted st) (sort_logger st) in
        match for_each_dependency (visit fuel' moduleMap) moduleMap moduleId
                (declared_dependencies moduleMap moduleId) st1 with
        | Some st2 =>
            Some (mkSortState (JsSet.add (visited st2) moduleId)
                    (JsSet.delete (visiting st2) moduleId)
                    (sorted st2 ++ [moduleId])
                    (sort_logger st2))
        | None => None
        end
  end.

(** The [for (const moduleId of moduleMap.keys())] loop. *)
Fixpoint visit_all {Host} (fuel : nat) (moduleMap : JsMap.t (ModuleRecord Host))
    (ids : list string) (st : SortState) : option SortState :=
  match ids with
  | [] => Some st
  | moduleId :: ids' =>
      match visit fuel moduleMap st moduleId with
      | Some st' => visit_all fuel moduleMap ids' st'
      | None => None
      end
  end.

(** [sortModulesByDependency(moduleMap)]: the sorted ids and the logger
    after the diagnostics.  A nest of calls of [visit] is never deeper than
    the number of keys plus one, which is the fuel given. *)
Definition sortModulesByDependency {Host} (logger : Logger)
    (moduleMap : JsMap.t (ModuleRecord Host)) : option (list string * Logger) :=
  let st0 := mkSortState JsSet.empty JsSet.empty [] logger in
  match visit_all (S (length moduleMap)) moduleMap (JsMap.keys moduleMap) st0 with
  | Some st => Some (sorted st, sort_logger st)
  | None => None
  end.

(** ** The class [ModuleLoader] *)

(** A candidate found by the directory scan. *)
Record Candidate := mkCandidate {
  cand_id : string;
  cand_path : string
}.

Section loader.
Context `{Ext : Externals}.

(** The fields of a [ModuleLoader] object.  [host] stands for [app] and
    [db]; [load_calls] is a ghost field: the ids whose [load] entry point
    was invoked, in order, each with whether the call completed. *)
Record ModuleLoader := mkLoader {
  host : Host;
  platformVersion : string;
  apiLevel : Z;
  logger : Logger;
  loadedModules : JsMap.t (ModuleRecord Host);
  moduleRegistry : JsMap.t (ModuleRecord Host);
  load_calls : list (string * bool)
}.

(** [new ModuleLoader(app, db, platformVersion, apiLevel)] *)
Definition new_ModuleLoader (app_db : Host) (platformVersion : string)
  (apiLevel : Z) : ModuleLoader :=
  mkLoader app_db platformVersion apiLevel [] JsMap.empty JsMap.empty [].

Definition with_logger (this : ModuleLoader) (l : Logger) : ModuleLoader :=
  mkLoader (host this) (platformVersion this) (apiLevel this) l
  (loadedModules this) (moduleRegistry this) (load_calls this).

Definition with_registry (this : ModuleLoader)
  (r : JsMap.t (ModuleRecord Host)) : ModuleLoader :=
  mkLoader (host this) (platformVersion this) (apiLevel this) (logger this)
  (loadedModules this) r (load_calls this).

Definition log_error (this : ModuleLoader) (msg : string) : ModuleLoader :=
  with_logger this (logger_error (logger this) msg).

(** *** [validateManifest] *)

Definition requiredFields : list string :=
  ["name"; "version"; "api_level"; "target_platform"].

(** [!!manifest[field]] *)
Definition manifest_field_truthy (m : Manifest) (field : string) : bool :=
  if decide (field = "name") then truthy (name m)
  else if decide (field = "version") then truthy (version m)
  else if decide (field = "api_level") then truthy (api_level m)
  else if decide (field = "target_platform") then truthy (target_platform m)
  else false.

(** [manifest.api_level > this.apiLevel] *)
Definition api_level_exceeds (m : Manifest) (hostLevel : Z) : bool :=
  match api_level m with
  | Some a => (hostLevel <? a)%Z
  | None => false
  end.

(** [semver.satisfies(this.platformVersion, manifest.target_platform)];
    the field is never absent where this is evaluated. *)
Definition platform_satisfied (platform : string) (m : Manifest) : bool :=
  match target_platform m with
  | Some range => semver_satisfies platform range
  | None => false
  end.

Definition show_api_level (m : Manifest) : string :=
  match api_level m with Some a => pretty a | None => "undefined" end.

Definition show_target_platform (m : Manifest) : string :=
  match target_platform m with Some r => r | None => "undefined" end.

Definition validateManifest (this : ModuleLoader) (manifest : option Manifest)
  (moduleId : string) : bool * ModuleLoader :=
  match manifest with
  | None =>
    (false, log_error this ("Module " +:+ moduleId +:+ " is missing a manifest"))
  | Some manifest =>
    match List.find (λ field, negb (manifest_field_truthy manifest field))
            requiredFields with
    | Some field =>
        (false, log_error this
                  ("Module " +:+ moduleId
                     +:+ " is missing required manifest field: " +:+ field))
    | None =>
        if api_level_exceeds manifest (apiLevel this) then
          (false, log_error this
                    ("Module " +:+ moduleId +:+ " requires API level "
                       +:+ show_api_level manifest
                       +:+ ", but platform only supports "
                       +:+ pretty (apiLevel this)))
        else if negb (platform_satisfied (platformVersion this) manifest) then
          (false, log_error this
                    ("Module " +:+ moduleId +:+ " targets platform "
                       +:+ show_target_platform manifest
                       +:+ ", but current platform is "
                       +:+ platformVersion this))
        else (true, this)
    end
  end.

(** *** [loadModule] *)

Definition loadModule (this : ModuleLoader) (moduleId modulePath : string)
  : bool * ModuleLoader :=
  match require modulePath with
  | None => (false, log_error this ("Error loading module " +:+ moduleId +:+ ":"))
  | Some moduleExports =>
    match HeliactylModule moduleExports with
    | None =>
        (false, log_error this
                  ("Module " +:+ moduleId +:+ " is missing HeliactylModule manifest"))
    | Some m =>
        let '(valid, this1) := validateManifest this (Some m) moduleId in
        if negb valid then (false, this1)
        else
          match load moduleExports with
          | None => (false, this1)
          | Some _ =>
              (true, with_registry this1
                       (JsMap.set (moduleRegistry this1) moduleId
                          (mkRecord moduleId modulePath moduleExports m)))
          end
    end
  end.

(** *** [initializeModule] *)

Definition initializeModule (this : ModuleLoader) (moduleId : string)
  : bool * ModuleLoader :=
  match JsMap.get (moduleRegistry this) moduleId with
  | None => (false, this)
  | Some module =>
    match load (exports module) with
    | None =>
        (* calling a non-function throws inside the [try] *)
        (false, log_error this ("Error initializing module " +:+ moduleId +:+ ":"))
    | Some load_fn =>
        match load_fn (host this) with
        | Completed h =>
            (true, mkLoader h (platformVersion this) (apiLevel this)
                     (logger this)
                     (JsMap.set (loadedModules this) moduleId module)
                     (moduleRegistry this)
                     (load_calls this ++ [(moduleId, true)]))
        | Threw h =>
            (false, mkLoader h (platformVersion this) (apiLevel this)
                      (logger_error (logger this)
                         ("Error initializing module " +:+ moduleId +:+ ":"))
                      (loadedModules this)
                      (moduleRegistry this)
                      (load_calls this ++ [(moduleId, false)]))
        end
    end
  end.

(** *** [loadAllModules] *)

(** [for (const { id, path } of discoveredModules) await this.loadModule(id, path)] *)
Definition load_definitions (this : ModuleLoader) (discovered : list Candidate)
  : ModuleLoader :=
  foldl (λ this c, (loadModule this (cand_id c) (cand_path c)).2) this discovered.

(** [for (const moduleId of sortedModuleIds) await this.initializeModule(moduleId)] *)
Definition initialize_in_order (this : ModuleLoader) (sortedModuleIds : list string)
  : ModuleLoader :=
  foldl (λ this moduleId, (initializeModule this moduleId).2) this sortedModuleIds.

(** [loadAllModules()], given the candidates [discoverModules()] returned
    (the directory scan reads the file system and is taken as input).
    The result is the loader after the call; the value returned to the
    caller is its [loadedModules]. *)
Definition loadAllModules (this : ModuleLoader) (discoveredModules : list Candidate)
  : option ModuleLoader :=
  let this1 := load_definitions this discoveredModules in
  match sortModulesByDependency (logger this1) (moduleRegistry this1) with
  | Some (sortedModuleIds, l) =>
    Some (initialize_in_order (with_logger this1 l) sortedModuleIds)
  | None => None
  end.
End loader.

(** ** The configuration handler: objects on a heap *)

(** Object references. *)
Definition loc := positive.

(** JavaScript values as they occur in a configuration tree and in the
    reads of [updateObjectInPlace]: primitives, arrays (never mutated here,
    so kept as values) and references to objects.  [VBuiltin] is a method
    inherited from [Object.prototype].  Numbers are integers: the merge
    never computes with them. *)
Inductive value :=
  | VUndefined
  | VBuiltin
  | VString (s : string)
  | VNumber (z : Z)
  | VBool (b : bool)
  | VArray (xs : list value)
  | VObject (l : loc).

(** An ordinary object whose prototype is [Object.prototype]: its own
    enumerable properties, in insertion order (JavaScript enumerates
    integer-like names first; they are not told apart here, and nothing
    below depends on the order). *)
Module JsObject.
Abbreviation t := (list (string * value)).

(** The property names every ordinary object inherits. *)
Definition Object_prototype_keys : list string :=
  ["constructor"; "__defineGetter__"; "__defineSetter__"; "hasOwnProperty";
   "__lookupGetter__"; "__lookupSetter__"; "isPrototypeOf";
   "propertyIsEnumerable"; "toString"; "valueOf"; "__proto__";
   "toLocaleString"].

Definition inherited (key : string) : bool :=
  bool_decide (key ∈ Object_prototype_keys).

(** [Object.keys(o)] *)
Definition own_keys (o : t) : list string := o.*1.

Definition get_own (o : t) (key : string) : option value := JsMap.get o key.

Definition has_own (o : t) (key : string) : bool := JsMap.has o key.

(** [key in o]: own or inherited. *)
Definition has_property (o : t) (key : string) : bool :=
  has_own o key || inherited key.

(** [delete o[key]] *)
Definition delete (o : t) (key : string) : t := filter (λ p, p.1 ≠ key) o.

(** [o[key]].  Reading the inherited accessor [__proto__] yields
    [Object.prototype] itself, which is not an object of this model:
    [None]. *)
Definition get (o : t) (key : string) : option value :=
  match get_own o key with
  | Some v => Some v
  | None =>
    if decide (key = "__proto__") then None
    else if inherited key then Some VBuiltin
    else Some VUndefined
  end.

(** [o[key] = v].  Without an own [__proto__] the assignment runs the
    inherited setter, which is not modelled: [None]. *)
Definition set (o : t) (key : string) (v : value) : option t :=
  if bool_decide (key = "__proto__") && negb (has_own o key) then None
  else Some (JsMap.set o key v).
End JsObject.

Abbreviation Heap := (gmap loc JsObject.t).

(** Why an embedded function gives no result. *)
Inductive Stop := OutOfFuel | NotModelled.

Inductive Result (A : Type) :=
  | Ok (a : A)
  | Stopped (s : Stop).
Global Arguments Ok {A} a.
Global Arguments Stopped {A} s.

(** [value && typeof value === 'object' && !Array.isArray(value)] *)
Definition is_plain_object (v : value) : bool :=
  match v with VObject _ => true | _ => false end.

(** [key in source], on the current heap. *)
Definition key_in (h : Heap) (source : loc) (key : string) : Result bool :=
  match h !! source with
  | Some o => Ok (JsObject.has_property o key)
  | None => Stopped NotModelled
  end.

(** [delete target[key]] *)
Definition delete_property (h : Heap) (target : loc) (key : string) : Result Heap :=
  match h !! target with
  | Some o => Ok (<[target := JsObject.delete o key]> h)
  | None => Stopped NotModelled
  end.

(** [obj[key]] *)
Definition read_property (h : Heap) (obj : loc) (key : string) : Result value :=
  match h !! obj with
  | Some o =>
      match JsObject.get o key with
      | Some v => Ok v
      | None => Stopped NotModelled
      end
  | None => Stopped NotModelled
  end.

(** [target[key] = value] *)
Definition assign_property (h : Heap) (target : loc) (key : string) (v : value)
    : Result Heap :=
  match h !! target with
  | Some o =>
      match JsObject.set o key v with
      | Some o' => Ok (<[target := o']> h)
      | None => Stopped NotModelled
      end
  | None => Stopped NotModelled
  end.

(** First loop of [updateObjectInPlace]: remove the keys that are not
    [in] source. *)
Fixpoint remove_stale_keys (target source : loc) (keys : list string) (h : Heap)
    : Result Heap :=
  match keys with
  | [] => Ok h
  | key :: keys' =>
      match key_in h source key with
      | Ok true => remove_stale_keys target source keys' h
      | Ok false =>
          match delete_property h target key with
          | Ok h' => remove_stale_keys target source keys' h'
          | Stopped s => Stopped s
          end
      | Stopped s => Stopped s
      end
  end.

(** Second loop: update or add the keys of source; [recurse] is the
    recursive call. *)
Fixpoint update_keys (recurse : Heap → loc → loc → Result Heap)
    (target source : loc) (keys : list string) (h : Heap) : Result Heap :=
  match keys with
  | [] => Ok h
  | key :: keys' =>
      match read_property h source key with
      | Ok (VObject sl) =>
          match read_property h target key with
          | Ok (VObject tl) =>
              match recurse h tl sl with
              | Ok h' => update_keys recurse target source keys' h'
              | Stopped s => Stopped s
              end
          | Ok _ =>
              match assign_property h target key (VObject sl) with
              | Ok h' => update_keys recurse target source keys' h'
              | Stopped s => Stopped s
              end
          | Stopped s => Stopped s
          end
      | Ok v =>
          match assign_property h target key v with
          | Ok h' => update_keys recurse target source keys' h'
          | Stopped s => Stopped s
          end
      | Stopped s => Stopped s
      end
  end.

Definition own_keys_of (h : Heap) (obj : loc) : Result (list string) :=
  match h !! obj with
  | Some o => Ok (JsObject.own_keys o)
  | None => Stopped NotModelled
  end.

(** [updateObjectInPlace(target, source)] on the heap; [fuel] bounds the
    depth of the recursion. *)
Fixpoint updateObjectInPlace (fuel : nat) (h : Heap) (target source : loc)
    : Result Heap :=
  match fuel with
  | O => Stopped OutOfFuel
  | S fuel' =>
      match own_keys_of h target with
      | Ok target_keys =>
          match remove_stale_keys target source target_keys h with
          | Ok h1 =>
              match own_keys_of h1 source with
              | Ok source_keys =>
                  update_keys (updateObjectInPlace fuel') target source source_keys h1
              | Stopped s => Stopped s
              end
          | Stopped s => Stopped s
          end
      | Stopped s => Stopped s
      end
  end.

(** ** Parsed TOML and its objects *)

(** The tree [toml.parse] produces: tables, arrays and primitives
    (strings, integers, booleans). *)
Inductive Toml :=
  | TomlString (s : string)
  | TomlInteger (z : Z)
  | TomlBool (b : bool)
  | TomlArray (xs : list Toml)
  | TomlTable (fields : list (string * Toml)).

(** A reference no object of the heap has yet. *)
Definition next_loc (h : Heap) : loc :=
  Pos.succ (map_fold (λ l _ m, Pos.max l m) 1%positive h).

Definition object_of (props : list (string * value)) : JsObject.t :=
  foldl (λ o p, JsMap.set o p.1 p.2) [] props.

(** The JavaScript value of a parsed tree: every table becomes a new
    object of the heap. *)
Fixpoint materialize (t : Toml) (h : Heap) : value * Heap :=
  match t with
  | TomlString s => (VString s, h)
  | TomlInteger z => (VNumber z, h)
  | TomlBool b => (VBool b, h)
  | TomlArray xs =>
      let '(vs, h') :=
        (fix elements xs h :=
           match xs with
           | [] => ([], h)
           | x :: xs' =>
               let '(v, h1) := materialize x h in
               let '(vs, h2) := elements xs' h1 in
               (v :: vs, h2)
           end) xs h in
      (VArray vs, h')
  | TomlTable fields =>
      let '(props, h') :=
        (fix properties fields h :=
           match fields with
           | [] => ([], h)
           | (k, x) :: fields' =>
               let '(v, h1) := materialize x h in
               let '(props, h2) := properties fields' h1 in
               ((k, v) :: props, h2)
           end) fields h in
      let l := next_loc h' in
      (VObject l, <[l := object_of props]> h')
  end.

Fixpoint materialize_fields (fields : list (string * Toml)) (h : Heap)
    : list (string * value) * Heap :=
  match fields with
  | [] => ([], h)
  | (k, x) :: fields' =>
      let '(v, h1) := materialize x h in
      let '(props, h2) := materialize_fields fields' h1 in
      ((k, v) :: props, h2)
  end.

(** The object of the top-level table. *)
Definition materialize_table (fields : list (string * Toml)) (h : Heap)
    : loc * Heap :=
  let '(props, h') := materialize_fields fields h in
  let l := next_loc h' in
  (l, <[l := object_of props]> h').

(** ** [loadConfig] and the watcher *)

(** What the handler takes from outside this repository: [path.resolve],
    [path.basename] and [toml.parse] ([inl] is the message of the error
    thrown). *)
Class ConfigExternals := {
  path_resolve : string → string;
  path_basename : string → string;
  toml_parse : string → string + list (string * Toml)
}.

(** A call returns a value or throws. *)
Inductive Completion (A : Type) :=
  | Return (a : A)
  | Throw (msg : string).
Global Arguments Return {A} a.
Global Arguments Throw {A} msg.

(** The closure registered with [watcher.on('change', ...)]: it captures
    [fullPath] and [configData]. *)
Record Watcher := mkWatcher {
  watched_path : string;
  live : loc
}.

(** A value of [configStore]; [watcher] is the position of the watcher
    among those created. *)
Record ConfigEntry := mkConfigEntry {
  data : loc;
  watcher : nat
}.

(** Calls to the outside, for the record. *)
Inductive Event :=
  | ReadFile (path : string)
  | Parse (content : string)
  | Watch (path : string).

(** The state the handler works on: the heap, the file system, the
    module's [configStore], the watchers created by [chokidar.watch],
    the lines written by [console.error] and the calls made. *)
Record Process := mkProcess {
  heap : Heap;
  files : gmap string string;
  configStore : JsMap.t ConfigEntry;
  watchers : list Watcher;
  console : list string;
  events : list Event
}.

Definition esc : string := String (Ascii.ascii_of_nat 27) "".

Section config.
Context `{CExt : ConfigExternals}.

(** The message of the error [fs.readFileSync] throws on a missing file. *)
Definition enoent (fullPath : string) : string :=
  "ENOENT: no such file or directory, open '" +:+ fullPath +:+ "'".

Definition loadConfig (filePath : option string) (s : Process)
  : Completion loc * Process :=
  let fullPath := path_resolve (default "config.toml" filePath) in
  match JsMap.get (configStore s) fullPath with
  | Some entry => (Return (data entry), s)
  | None =>
    let failed := "[CONFIG] Initial load failed for " +:+ fullPath +:+ ":" in
    match files s !! fullPath with
    | None =>
        (Throw ("Config file not found: " +:+ fullPath),
         mkProcess (heap s) (files s) (configStore s) (watchers s)
           (console s ++ [failed]) (events s))
    | Some tomlString =>
        match toml_parse tomlString with
        | inl msg =>
            (Throw msg,
             mkProcess (heap s) (files s) (configStore s) (watchers s)
               (console s ++ [failed])
               (events s ++ [ReadFile fullPath; Parse tomlString]))
        | inr table =>
            let '(configData, h) := materialize_table table (heap s) in
            (Return configData,
             mkProcess h (files s)
               (JsMap.set (configStore s) fullPath
                  (mkConfigEntry configData (length (watchers s))))
               (watchers s ++ [mkWatcher fullPath configData])
               (console s)
               (events s ++ [ReadFile fullPath; Parse tomlString; Watch fullPath]))
        end
    end
  end.

Definition hot_reload_failed (fullPath msg : string) : string :=
  esc +:+ "[31m[CONFIG] Hot-reload failed for " +:+ path_basename fullPath
  +:+ ": " +:+ msg +:+ esc +:+ "[0m".

(** The ['change'] handler of watcher [w].  The merge is given as much
    fuel as the heap has objects, plus one. *)
Definition on_change (w : Watcher) (s : Process) : Result (Completion unit * Process) :=
  let fullPath := watched_path w in
  match files s !! fullPath with
  | None =>
    Ok (Return (),
        mkProcess (heap s) (files s) (configStore s) (watchers s)
          (console s ++ [hot_reload_failed fullPath (enoent fullPath)])
          (events s ++ [ReadFile fullPath]))
  | Some updatedTomlString =>
    match toml_parse updatedTomlString with
    | inl msg =>
        Ok (Return (),
            mkProcess (heap s) (files s) (configStore s) (watchers s)
              (console s ++ [hot_reload_failed fullPath msg])
              (events s ++ [ReadFile fullPath; Parse updatedTomlString]))
    | inr table =>
        let '(updatedConfig, h1) := materialize_table table (heap s) in
        match updateObjectInPlace (S (size h1)) h1 (live w) updatedConfig with
        | Ok h2 =>
            Ok (Return (),
                mkProcess h2 (files s) (configStore s) (watchers s) (console s)
                  (events s ++ [ReadFile fullPath; Parse updatedTomlString]))
        | Stopped st => Stopped st
        end
    end
  end.

(** What can happen in the process once the handler is loaded: a call of
    [loadConfig], a ['change'] event of a watcher, or other code, which
    may write to the heap and to the files but cannot reach the
    module-private [configStore] nor the watchers. *)
Inductive step : Process → Process → Prop :=
  | step_loadConfig filePath s r s' :
    loadConfig filePath s = (r, s') → step s s'
  | step_change w s r s' :
    w ∈ watchers s → on_change w s = Ok (r, s') → step s s'
  | step_other s h fs :
    step s (mkProcess h fs (configStore s) (watchers s) (console s) (events s)).

Definition steps : Process → Process → Prop := rtc step.
End config.

(** ** Vocabulary of the specification *)

(** Position of [b] strictly before position of [a] in [l]. *)
Definition precedes (l : list string) (b a : string) : Prop :=
  ∃ i j, l !! i = Some b ∧ l !! j = Some a ∧ (i < j)%nat.

(** The diagnostic of a missing dependency. *)
Definition missing_dependency_entry (moduleId : string) (dep : Dependency) : LogEntry :=
  if dep_optional dep
  then mkLogEntry LevelWarn
         ("Optional dependency " +:+ dep_name dep +:+ " for module "
            +:+ moduleId +:+ " not found")
  else mkLogEntry LevelError
         ("Required dependency " +:+ dep_name dep +:+ " for module "
            +:+ moduleId +:+ " not found").

Section resolver_vocabulary.
Context {Host : Type} (moduleMap : JsMap.t (ModuleRecord Host)).

(** [a] declares a dependency (optional or required) on the registered
    module [b]. *)
Definition depends_on (a b : string) : Prop :=
  ∃ dep, dep ∈ declared_dependencies moduleMap a ∧ dep_name dep = b
       ∧ JsMap.has moduleMap b = true.

(** [a] declares a required dependency on the registered module [b]. *)
Definition requires (a b : string) : Prop :=
  ∃ dep, dep ∈ declared_dependencies moduleMap a ∧ dep_name dep = b
       ∧ dep_optional dep = false ∧ JsMap.has moduleMap b = true.

(** [a] is [b] or reaches [b] along declared dependencies on registered
    modules. *)
Definition depends_transitively : string → string → Prop := rtc depends_on.

(** [a] declares a dependency whose name is not a key of the registry. *)
Definition missing_dependency (a : string) (dep : Dependency) : Prop :=
  dep ∈ declared_dependencies moduleMap a ∧ JsMap.has moduleMap (dep_name dep) = false.

(** [b] occurs in [l] before an occurrence of [a]. *)
Definition before (l : list string) (b a : string) : Prop :=
  ∃ l1 l2, l = l1 ++ a :: l2 ∧ b ∈ l1.

(** Keys not yet on the recursion stack: what bounds the depth left. *)
Definition remaining (st : SortState) : nat :=
  length (filter (λ k, k ∉ visiting st) (JsMap.keys moduleMap)).

(** The invariant of the closure's variables. *)
Record sort_inv (st : SortState) : Prop := {
  inv_visited : visited st = sorted st;
  inv_nodup : NoDup (sorted st);
  inv_stack : ∀ x, x ∈ visiting st → x ∉ sorted st;
  inv_keys : ∀ x, x ∈ sorted st → x ∈ JsMap.keys moduleMap;
  inv_order : ∀ a b, a ∈ sorted st → depends_on a b →
              before (sorted st) b a ∨ depends_transitively b a;
  inv_logged : ∀ a dep, a ∈ sorted st → missing_dependency a dep →
               missing_dependency_entry a dep ∈ sort_logger st
}.

(** What a call [visit(id)] from state [st] establishes. *)
Record visit_post (id : string) (st st' : SortState) : Prop := {
  post_inv : sort_inv st';
  post_stack : visiting st' = visiting st;
  post_sorted : ∃ ext, sorted st' = sorted st ++ ext ∧ ∀ x, x ∈ ext → depends_transitively id x;
  post_logger : ∃ ext, sort_logger st' = sort_logger st ++ ext;
  post_done : id ∈ sorted st' ∨ id ∈ visiting st
}.
End resolver_vocabulary.


(** A checkable sufficient condition for "not a transitive dependency":
    the set [s] is closed under declared dependencies on registered
    modules. *)
Definition closed_under_dependencies {Host} (moduleMap : JsMap.t (ModuleRecord Host))
    (s : list string) : bool :=
  forallb (λ a,
      forallb (λ dep, negb (JsMap.has moduleMap (dep_name dep))
                      || bool_decide (dep_name dep ∈ s))
        (declared_dependencies moduleMap a)) s.

Section loader_vocabulary.
Context `{Ext : Externals}.

(** What [validateManifest] accepts. *)
Definition manifest_accepted (platform : string) (hostLevel : Z) (m : Manifest) : Prop :=
  truthy (name m) = true ∧ truthy (version m) = true
  ∧ truthy (api_level m) = true ∧ truthy (target_platform m) = true
  ∧ api_level_exceeds m hostLevel = false
  ∧ platform_satisfied platform m = true.

(** Every entry of the registry was built by [loadModule]. *)
Definition registry_sound (platform : string) (hostLevel : Z)
  (registry : JsMap.t (ModuleRecord Host)) : Prop :=
  ∀ id r, JsMap.get registry id = Some r →
  mod_id r = id
  ∧ HeliactylModule (exports r) = Some (manifest r)
  ∧ is_Some (load (exports r))
  ∧ manifest_accepted platform hostLevel (manifest r).

(** [this'] differs from [this] at most by diagnostics added to the
    logger and by its registry. *)
Definition loader_extends (this this' : ModuleLoader) : Prop :=
  host this' = host this
  ∧ platformVersion this' = platformVersion this
  ∧ apiLevel this' = apiLevel this
  ∧ loadedModules this' = loadedModules this
  ∧ load_calls this' = load_calls this
  ∧ ∃ ext, logger this' = logger this ++ ext.

(** The diagnostic of a failed initialization. *)
Definition initialization_error_entry (moduleId : string) : LogEntry :=
  mkLogEntry LevelError ("Error initializing module " +:+ moduleId +:+ ":").
End loader_vocabulary.

(** ** Vocabulary of the reload merge *)

(** The part of the heap a value reaches, as a tree: each object node
    carries its reference. *)
Inductive shape :=
  | SLeaf (v : value)
  | SArr (items : list shape)
  | SObj (l : loc) (fields : list (string * shape)).

Definition is_primitive (v : value) : bool :=
  match v with VArray _ | VObject _ => false | _ => true end.

(** The references of the objects of a shape. *)
Fixpoint labels (t : shape) : list loc :=
  match t with
  | SLeaf _ => []
  | SArr items =>
      (fix of_items items :=
         match items with
         | [] => []
         | t' :: items' => labels t' ++ of_items items'
         end) items
  | SObj l fields =>
      l :: (fix of_fields fields :=
              match fields with
              | [] => []
              | (_, t') :: fields' => labels t' ++ of_fields fields'
              end) fields
  end.

(** Nesting of objects: the depth the recursion of the merge can reach. *)
Fixpoint depth (t : shape) : nat :=
  match t with
  | SLeaf _ => 0
  | SArr _ => 0
  | SObj _ fields =>
      S ((fix of_fields fields :=
            match fields with
            | [] => 0
            | (_, t') :: fields' => max (depth t') (of_fields fields')
            end) fields)
  end.

(** No property name of an object of the shape is a name that
    [Object.prototype] defines. *)
Fixpoint plain_keys (t : shape) : Prop :=
  match t with
  | SLeaf _ => True
  | SArr items =>
      (fix of_items items :=
         match items with
         | [] => True
         | t' :: items' => plain_keys t' ∧ of_items items'
         end) items
  | SObj _ fields =>
      (fix of_fields fields :=
         match fields with
         | [] => True
         | (k, t') :: fields' =>
             JsObject.inherited k = false ∧ plain_keys t' ∧ of_fields fields'
         end) fields
  end.

(** [repr h v t]: in heap [h], what value [v] reaches has shape [t]. *)
Inductive repr (h : Heap) : value → shape → Prop :=
  | repr_leaf v :
      is_primitive v = true → repr h v (SLeaf v)
  | repr_arr vs items :
      length vs = length items →
      (∀ i v t, vs !! i = Some v → items !! i = Some t → repr h v t) →
      repr h (VArray vs) (SArr items)
  | repr_obj l o fields :
      h !! l = Some o →
      NoDup (JsObject.own_keys o) →
      (∀ k, is_Some (JsMap.get o k) ↔ is_Some (JsMap.get fields k)) →
      (∀ k v t, JsMap.get o k = Some v → JsMap.get fields k = Some t → repr h v t) →
      repr h (VObject l) (SObj l fields).

(** Structural equality: the same primitives, arrays and keys, whatever
    the references and the order of the keys. *)
Inductive same_structure : shape → shape → Prop :=
  | same_leaf v : same_structure (SLeaf v) (SLeaf v)
  | same_arr items items' :
      length items = length items' →
      (∀ i t t', items !! i = Some t → items' !! i = Some t' → same_structure t t') →
      same_structure (SArr items) (SArr items')
  | same_obj l l' fields fields' :
      (∀ k, is_Some (JsMap.get fields k) ↔ is_Some (JsMap.get fields' k)) →
      (∀ k t t', JsMap.get fields k = Some t → JsMap.get fields' k = Some t' →
                 same_structure t t') →
      same_structure (SObj l fields) (SObj l' fields').

Definition is_object_shape (t : shape) : bool :=
  match t with SObj _ _ => true | _ => false end.

(** Both the live object and the new tree have an object under [k]. *)
Definition both_objects (tfields : list (string * shape)) (k : string) (s : shape) : Prop :=
  is_object_shape s = true
  ∧ ∃ tc, JsMap.get tfields k = Some tc ∧ is_object_shape tc = true.

(** [merged tt ts tr]: [tr] is what the specification asks of the merge
    of the live object [tt] with the new tree [ts]: the reference of [tt];
    the keys of [ts]; under a key where both had an object, the merge of
    the two (so with the reference of the old one); under any other key,
    the new value itself. *)
Inductive merged : shape → shape → shape → Prop :=
  | merged_obj tl tfields sl sfields rfields :
      (∀ k, is_Some (JsMap.get rfields k) ↔ is_Some (JsMap.get sfields k)) →
      (∀ k tc s r, JsMap.get tfields k = Some tc → JsMap.get sfields k = Some s →
                   JsMap.get rfields k = Some r →
                   is_object_shape tc = true → is_object_shape s = true →
                   merged tc s r) →
      (∀ k s r, JsMap.get sfields k = Some s → JsMap.get rfields k = Some r →
                ¬ both_objects tfields k s → r = s) →
      merged (SObj tl tfields) (SObj sl sfields) (SObj tl rfields).

(** What is asked of the field [k] of the result: the merge of the two
    objects if both sides have one, the new value otherwise. *)
Definition field_merged (tfields : list (string * shape)) (k : string)
    (s r : shape) : Prop :=
  (both_objects tfields k s → ∃ tc, JsMap.get tfields k = Some tc ∧ merged tc s r)
  ∧ (¬ both_objects tfields k s → r = s).

(** What a call of the merge with fuel for depth [n] establishes, for a
    live object that is a tree and shares nothing with the new tree. *)
Definition merge_spec (n : nat) (recurse : Heap → loc → loc → Result Heap) : Prop :=
  ∀ h tl sl tt ts,
    repr h (VObject tl) tt → repr h (VObject sl) ts →
    NoDup (labels tt) → (∀ l, l ∈ labels tt → l ∉ labels ts) →
    plain_keys tt → plain_keys ts → depth ts ≤ n →
    ∃ h' tr,
      recurse h tl sl = Ok h'
      ∧ repr h' (VObject tl) tr
      ∧ merged tt ts tr
      ∧ (∀ l, l ∉ labels tt → h' !! l = h !! l)
      ∧ (∀ l, l ∈ labels tr → l ∈ labels tt ∨ l ∈ labels ts).

(** The invariant of the second loop of the merge: [h1] and [o1] are the
    heap and the live object after the first loop, [ks] the keys still to
    do, [rfields] the shape of the fields done. *)
Record merge_inv (h1 : Heap) (tl : loc) (tfields sfields : list (string * shape))
    (o1 : JsObject.t) (ks : list string) (h : Heap) (o : JsObject.t)
    (rfields : list (string * shape)) : Prop := {
  mi_target : h !! tl = Some o;
  mi_nodup : NoDup (JsObject.own_keys o);
  mi_rnodup : NoDup (JsMap.keys rfields);
  mi_frame : ∀ l, l ∉ labels (SObj tl tfields) → h !! l = h1 !! l;
  mi_todo : ∀ k, k ∈ ks →
      JsMap.get o k = JsMap.get o1 k
      ∧ ∀ tc l, JsMap.get tfields k = Some tc → l ∈ labels tc → h !! l = h1 !! l;
  mi_done : ∀ k, is_Some (JsMap.get rfields k) →
      (k ∉ ks) ∧ is_Some (JsMap.get sfields k);
  mi_keys : ∀ k, is_Some (JsMap.get o k)
      ↔ is_Some (JsMap.get o1 k) ∨ is_Some (JsMap.get rfields k);
  mi_fields : ∀ k r, JsMap.get rfields k = Some r →
      ∃ v s, JsMap.get o k = Some v ∧ JsMap.get sfields k = Some s
             ∧ repr h v r ∧ field_merged tfields k s r
             ∧ ∀ l, l ∈ labels r →
                 (∃ tc, JsMap.get tfields k = Some tc ∧ l ∈ labels tc) ∨ l ∈ labels s;
  mi_all : ∀ k, is_Some (JsMap.get sfields k) →
      k ∈ ks ∨ is_Some (JsMap.get rfields k)
}.

(** ** Concrete registries *)

Module Examples.
(** A well-formed manifest declaring [deps]. *)
Definition manifest_with (deps : list Dependency) : Manifest :=
  mkManifest (Some "Example") (Some "1.0.0") (Some 4%Z) (Some "10.0.0") (Some deps).

(** A registry entry whose [load] completes without touching the host. *)
Definition entry (id : string) (deps : list Dependency) : string * ModuleRecord unit :=
  (id, mkRecord id ("modules/" +:+ id +:+ ".js")
     (mkExports (Some (manifest_with deps)) (Some (λ h, Completed h)))
     (manifest_with deps)).

(** A requires B and B requires A. *)
Definition cyclic_registry : JsMap.t (ModuleRecord unit) :=
  [entry "A" [mkDependency "B" false]; entry "B" [mkDependency "A" false]].

(** X requires Z; Y stands between them and is unrelated to both. *)
Definition tie_registry : JsMap.t (ModuleRecord unit) :=
  [entry "X" [mkDependency "Z" false]; entry "Y" []; entry "Z" []].

(** The scenario of the specification, in an order that makes the
    resolver reorder. *)
Definition scenario_registry : JsMap.t (ModuleRecord unit) :=
  [entry "extra/reports"
  [mkDependency "core/billing" true; mkDependency "extra/legacy" true];
  entry "core/billing" [mkDependency "core/auth" false];
  entry "core/auth" []].

(** A manifest that differs from a valid one only by its [api_level]. *)
Definition manifest_at_level (lvl : Z) : Manifest :=
  mkManifest (Some "Example") (Some "1.0.0") (Some lvl) (Some "10.0.0") (Some []).

Definition completes : unit → LoadResult unit := λ h, Completed h.
Definition throws : unit → LoadResult unit := λ h, Threw h.

(** A modules directory with four files, and a stand-in for
    [semver.satisfies] that accepts the exact version only. *)
Definition demo_externals : Externals := {|
  Host := unit;
  semver_satisfies := λ version range, bool_decide (version = range);
  require := λ path,
  if decide (path = "modules/ok.js") then
  Some (mkExports (Some (manifest_at_level 4)) (Some completes))
  else if decide (path = "modules/zero.js") then
  Some (mkExports (Some (manifest_at_level 0)) (Some completes))
  else if decide (path = "modules/broken.js") then
  Some (mkExports (Some (manifest_at_level 4)) (Some throws))
  else if decide (path = "modules/reports.js") then
  Some (mkExports
          (Some (manifest_with [mkDependency "extra/legacy" true;
                                mkDependency "core/auth" false]))
          (Some completes))
  else None
  |}.

Definition ok_candidate : Candidate := mkCandidate "ok" "modules/ok.js".
Definition zero_candidate : Candidate := mkCandidate "zero" "modules/zero.js".
Definition broken_candidate : Candidate := mkCandidate "broken" "modules/broken.js".

Definition demo_loader : @ModuleLoader demo_externals :=
  @new_ModuleLoader demo_externals () "10.0.0" 4%Z.
End Examples.

(** ** Concrete heaps and processes *)

Module ConfigExamples.
(** The live object [{constructor: 1, a: 1}] at reference 1 and the new
    tree [{a: 1}] at reference 2. *)
Definition stale_target : JsObject.t := [("constructor", VNumber 1); ("a", VNumber 1)].
Definition stale_source : JsObject.t := [("a", VNumber 1)].
Definition stale_heap : Heap := <[1%positive := stale_target]> (<[2%positive := stale_source]> ∅).

(** P7 of the specification: [{a: 1, b: {c: 2}}] at reference 1 (its [b]
    at 2), reloaded with [{a: 1, b: {c: 3}}] at reference 3 (its [b] at 4). *)
Definition p7_heap : Heap :=
  <[1%positive := [("a", VNumber 1); ("b", VObject 2%positive)]]>
  (<[2%positive := [("c", VNumber 2)]]>
   (<[3%positive := [("a", VNumber 1); ("b", VObject 4%positive)]]>
      (<[4%positive := [("c", VNumber 3)]]> ∅))).

(** A stand-in for the externals: paths resolve under [/app/], and the
    parser knows two documents. *)
Definition demo_externals : ConfigExternals := {|
  path_resolve := λ p, "/app/" +:+ p;
  path_basename := λ p, p;
  toml_parse := λ content,
  if decide (content = "a = 1") then inr [("a", TomlInteger 1)]
  else if decide (content = "a = 2") then inr [("a", TomlInteger 2)]
  else inl "Unexpected character"
  |}.

(** A process in which [/app/config.toml] was loaded and then removed. *)
Definition orphaned : Process :=
  mkProcess (<[1%positive := [("a", VNumber 1)]]> ∅) ∅
  [("/app/config.toml", mkConfigEntry 1%positive 0)]
  [mkWatcher "/app/config.toml" 1%positive] [] [].

(** A process that has loaded nothing, with one file. *)
Definition fresh : Process :=
  mkProcess ∅ (<["/app/config.toml" := "a = 1"]> ∅) [] [] [] [].

(** The same after [loadConfig("config.toml")], then after the file was
    edited, then after the watcher has reloaded it. *)
Definition loaded : Process :=
  (@loadConfig demo_externals (Some "config.toml") fresh).2.

Definition edited : Process :=
  mkProcess (heap loaded) (<["/app/config.toml" := "a = 2"]> (files loaded))
    (configStore loaded) (watchers loaded) (console loaded) (events loaded).

Definition reloaded : Process :=
  match @on_change demo_externals (mkWatcher "/app/config.toml" 2%positive) edited with
  | Ok (_, s) => s
  | Stopped _ => edited
  end.
End ConfigExamples.

(** The shapes of the two objects of [ConfigExamples.p7_heap]. *)
Module ShapeExamples.
Definition p7_live : shape :=
  SObj 1%positive [("a", SLeaf (VNumber 1));
               ("b", SObj 2%positive [("c", SLeaf (VNumber 2))])].
End ShapeExamples.

(** Proves [repr h v t] for a closed heap and a closed shape. *)
Ltac solve_repr :=
  lazymatch goal with
  | |- repr _ _ (SLeaf _) => by constructor
  | |- repr _ (VObject _) (SObj _ _) =>
      econstructor;
      [ by vm_compute
      | compute_done
      | let k := fresh "k" in
        intros k; cbn [JsMap.get]; repeat case_decide; done
      | let k := fresh "k" in
        intros k ? ?; cbn [JsMap.get]; repeat case_decide;
        intros; simplify_eq; solve_repr ]
  end.

(** ** Diagnostics of the resolver *)

(** The diagnostic of the cycle guard of [visit]. *)
Definition circular_dependency_entry (moduleId : string) : LogEntry :=
  mkLogEntry LevelError
    ("Circular dependency detected involving module " +:+ moduleId).

Section diagnostics_vocabulary.
Context {Host : Type} (moduleMap : JsMap.t (ModuleRecord Host)).

(** [x] reaches itself along one or more declared dependencies on
    registered modules. *)
Definition on_cycle (x : string) : Prop := tc (depends_on moduleMap) x x.

(** A diagnostic the registry accounts for: a dependency that is not
    registered, or a module that is on a cycle. *)
Definition justified (e : LogEntry) : Prop :=
  (∃ a dep, missing_dependency moduleMap a dep ∧ e = missing_dependency_entry a dep)
  ∨ (∃ x, on_cycle x ∧ e = circular_dependency_entry x).

(** The invariant of the closure's variables that relates them to the
    diagnostics [ext] logged so far. *)
Record log_inv (st : SortState) (ext : list LogEntry) : Prop := {
  li_visited : visited st = sorted st;
  li_stack : ∀ x, x ∈ visiting st → x ∉ sorted st;
  li_justified : Forall justified ext;
  li_order : ∀ a b, a ∈ sorted st → depends_on moduleMap a b →
             before (sorted st) b a ∨ circular_dependency_entry b ∈ ext;
  li_missing : ∀ a dep, a ∈ sorted st → missing_dependency moduleMap a dep →
               missing_dependency_entry a dep ∈ ext
}.

(** The keys of the registry are already in dependency order: every
    declared dependency on a registered module names an earlier key. *)
Definition dependency_ordered : Prop :=
  ∀ i k dep, JsMap.keys moduleMap !! i = Some k →
    dep ∈ declared_dependencies moduleMap k →
    JsMap.has moduleMap (dep_name dep) = true →
    ∃ j, j < i ∧ JsMap.keys moduleMap !! j = Some (dep_name dep).
End diagnostics_vocabulary.


(** ** The directory scan: [discoverModules] *)

(** What the scan takes from Node's [path] module; [path_basename_ext p ext]
    is [path.basename(p, ext)]. *)
Class PathExternals := {
  path_join : string → string → string;
  path_relative : string → string → string;
  path_dirname : string → string;
  path_basename_ext : string → string → string
}.

(** An entry of a directory, as [fs.readdir(dir, { withFileTypes: true })]
    gives it: a regular file, a directory, or something else (a link, a
    socket, ...).  A directory carries what reading it gives in turn,
    [None] when [fs.readdir] rejects. *)
Inductive Dirent :=
  | DirentFile (name : string)
  | DirentDirectory (name : string) (listing : option (list Dirent))
  | DirentOther (name : string).

Definition dirent_name (entry : Dirent) : string :=
  match entry with
  | DirentFile name | DirentDirectory name _ | DirentOther name => name
  end.

(** [s.endsWith(suffix)] *)
Definition endsWith (s suffix : string) : bool :=
  String.prefix (String.rev suffix) (String.rev s).

(** The diagnostic of a directory that cannot be read. *)
Definition scan_error_entry (dir : string) : LogEntry :=
  mkLogEntry LevelError ("Error scanning directory " +:+ dir +:+ ":").

Section discover.
Context `{PExt : PathExternals}.

(** The id of the module file [fullPath] under [baseDir]. *)
Definition moduleId_of (baseDir fullPath : string) : string :=
  let relativePath := path_relative baseDir fullPath in
  if decide (path_dirname relativePath = ".")
  then path_basename_ext relativePath ".js"
  else path_dirname relativePath +:+ "/" +:+ path_basename_ext relativePath ".js".

(** One turn of the loop of [scanDirectory(dir, baseDir)], on the array
    [modules] and the logger; a directory entry is scanned by the
    recursive call, whose [catch] logs a failed read. *)
Fixpoint scan_entry (baseDir dir : string) (entry : Dirent)
    (acc : list Candidate * Logger) : list Candidate * Logger :=
  let fullPath := path_join dir (dirent_name entry) in
  match entry with
  | DirentDirectory _ listing =>
      match listing with
      | None =>
          (acc.1, logger_error acc.2 ("Error scanning directory " +:+ fullPath +:+ ":"))
      | Some entries =>
          (fix scan_entries (entries : list Dirent) (acc : list Candidate * Logger) :=
             match entries with
             | [] => acc
             | entry' :: entries' =>
                 scan_entries entries' (scan_entry baseDir fullPath entry' acc)
             end) entries acc
      end
  | DirentFile name =>
      if endsWith name ".js"
      then (acc.1 ++ [mkCandidate (moduleId_of baseDir fullPath) fullPath], acc.2)
      else acc
  | DirentOther _ => acc
  end.

(** [scanDirectory(dir, baseDir)], given what reading [dir] gives. *)
Definition scanDirectory (baseDir dir : string) (listing : option (list Dirent))
    (acc : list Candidate * Logger) : list Candidate * Logger :=
  match listing with
  | None => (acc.1, logger_error acc.2 ("Error scanning directory " +:+ dir +:+ ":"))
  | Some entries => foldl (λ acc entry, scan_entry baseDir dir entry acc) acc entries
  end.

(** [discoverModules()]: [modulesDir] is the field [this.modulesDir] and
    [root] what reading that directory gives; the result is the array
    returned and the logger after the scan. *)
Definition discoverModules (modulesDir : string) (root : option (list Dirent))
    (logger : Logger) : list Candidate * Logger :=
  scanDirectory modulesDir modulesDir root ([], logger).

(** The [.js] files of the readable directories of a listing, as full
    paths, directory by directory in the order of the listings. *)
Fixpoint module_files_of (dir : string) (entry : Dirent) : list string :=
  let fullPath := path_join dir (dirent_name entry) in
  match entry with
  | DirentDirectory _ (Some entries) =>
      (fix of_entries (entries : list Dirent) :=
         match entries with
         | [] => []
         | entry' :: entries' => module_files_of fullPath entry' ++ of_entries entries'
         end) entries
  | DirentDirectory _ None => []
  | DirentFile name => if endsWith name ".js" then [fullPath] else []
  | DirentOther _ => []
  end.

Definition module_files (dir : string) (listing : option (list Dirent)) : list string :=
  match listing with
  | None => []
  | Some entries => flat_map (module_files_of dir) entries
  end.

(** The directories that cannot be read, in the same order. *)
Fixpoint unreadable_of (dir : string) (entry : Dirent) : list string :=
  let fullPath := path_join dir (dirent_name entry) in
  match entry with
  | DirentDirectory _ (Some entries) =>
      (fix of_entries (entries : list Dirent) :=
         match entries with
         | [] => []
         | entry' :: entries' => unreadable_of fullPath entry' ++ of_entries entries'
         end) entries
  | DirentDirectory _ None => [fullPath]
  | _ => []
  end.

Definition unreadable (dir : string) (listing : option (list Dirent)) : list string :=
  match listing with
  | None => [dir]
  | Some entries => flat_map (unreadable_of dir) entries
  end.

Definition candidate_of (baseDir fullPath : string) : Candidate :=
  mkCandidate (moduleId_of baseDir fullPath) fullPath.
End discover.

Section loader_scan.
Context `{Ext : Externals} `{PExt : PathExternals}.

End loader_scan.

(** ** Parsed trees as shapes *)

(** The shape of a parsed tree; the references of its tables are not
    known before the objects are made, [1] stands for them. *)
Fixpoint toml_shape (t : Toml) : shape :=
  match t with
  | TomlString s => SLeaf (VString s)
  | TomlInteger z => SLeaf (VNumber z)
  | TomlBool b => SLeaf (VBool b)
  | TomlArray xs =>
      SArr ((fix of_items (xs : list Toml) :=
               match xs with
               | [] => []
               | x :: xs' => toml_shape x :: of_items xs'
               end) xs)
  | TomlTable fields =>
      SObj 1%positive
        ((fix of_fields (fields : list (string * Toml)) :=
            match fields with
            | [] => []
            | (k, x) :: fields' => (k, toml_shape x) :: of_fields fields'
            end) fields)
  end.

(** No table of the tree has two entries with the same key, which a TOML
    parser guarantees. *)
Fixpoint distinct_keys (t : Toml) : Prop :=
  match t with
  | TomlArray xs =>
      (fix of_items (xs : list Toml) :=
         match xs with
         | [] => True
         | x :: xs' => distinct_keys x ∧ of_items xs'
         end) xs
  | TomlTable fields =>
      NoDup fields.*1
      ∧ (fix of_fields (fields : list (string * Toml)) :=
           match fields with
           | [] => True
           | (_, x) :: fields' => distinct_keys x ∧ of_fields fields'
           end) fields
  | _ => True
  end.

(** A shape without its references. *)
Fixpoint erase (t : shape) : shape :=
  match t with
  | SLeaf v => SLeaf v
  | SArr items =>
      SArr ((fix of_items (items : list shape) :=
               match items with
               | [] => []
               | t' :: items' => erase t' :: of_items items'
               end) items)
  | SObj _ fields =>
      SObj 1%positive
        ((fix of_fields (fields : list (string * shape)) :=
            match fields with
            | [] => []
            | (k, t') :: fields' => (k, erase t') :: of_fields fields'
            end) fields)
  end.

(** The loop over the items of an array in [materialize]. *)
Fixpoint materialize_items (xs : list Toml) (h : Heap) : list value * Heap :=
  match xs with
  | [] => ([], h)
  | x :: xs' =>
      let '(v, h1) := materialize x h in
      let '(vs, h2) := materialize_items xs' h1 in
      (v :: vs, h2)
  end.

(** [s] is the shape of the value [v] that [materialize t] made, taking
    heap [h] to [h']: it has the content of [t], its objects are new and
    pairwise distinct, and the objects of [h] are untouched. *)
Definition materialized (t : Toml) (h h' : Heap) (v : value) (s : shape) : Prop :=
  repr h' v s
  ∧ erase s = toml_shape t
  ∧ NoDup (labels s)
  ∧ (∀ l, l ∈ labels s → h !! l = None ∧ is_Some (h' !! l))
  ∧ (∀ l, is_Some (h !! l) → h' !! l = h !! l).

(** ** The watchers of the store *)

(** The ['exit'] handler: [entry.watcher.close()] for every value of
    [configStore]; the result lists the watchers closed, in order. *)
Definition on_exit (s : Process) : list nat :=
  (λ entry, watcher entry) <$> (configStore s).*2.

(** The ['error'] handler of a watcher: one line on the console. *)
Definition on_error (w : Watcher) (s : Process) : Process :=
  mkProcess (heap s) (files s) (configStore s) (watchers s)
    (console s ++ ["[CONFIG] Watcher error for " +:+ watched_path w +:+ ":"])
    (events s).

(** How [configStore] and the watchers created correspond: the i-th key
    of the store owns the i-th watcher, which watches that path and whose
    handler updates the object cached for it. *)
Record store_inv (s : Process) : Prop := {
  si_keys : NoDup (JsMap.keys (configStore s));
  si_watchers :
    Forall2 (λ p w, watched_path w = p.1 ∧ live w = data p.2)
      (configStore s) (watchers s);
  si_index : ∀ i p, configStore s !! i = Some p → watcher p.2 = i
}.

Section config_run.
Context `{CExt : ConfigExternals}.

(** A step of the process, or an ['error'] event of a watcher. *)
Definition handler_step (s s' : Process) : Prop :=
  step s s' ∨ ∃ w, w ∈ watchers s ∧ s' = on_error w s.

(** The process after other code has written [content] to [path]. *)
Definition write_file (path content : string) (s : Process) : Process :=
  mkProcess (heap s) (<[path := content]> (files s)) (configStore s) (watchers s)
    (console s) (events s).
End config_run.

(** ** Reading a configuration *)

(** [v.k1.k2. ... .kn], read through objects. *)
Fixpoint read_path (h : Heap) (v : value) (keys : list string) : Result value :=
  match keys with
  | [] => Ok v
  | key :: keys' =>
      match v with
      | VObject l =>
          match read_property h l key with
          | Ok v' => read_path h v' keys'
          | Stopped s => Stopped s
          end
      | _ => Stopped NotModelled
      end
  end.

(** The entry of a parsed tree under a path of keys. *)
Fixpoint toml_path (t : Toml) (keys : list string) : option Toml :=
  match keys with
  | [] => Some t
  | key :: keys' =>
      match t with
      | TomlTable fields =>
          match JsMap.get fields key with
          | Some t' => toml_path t' keys'
          | None => None
          end
      | _ => None
      end
  end.

(** The value of an entry that is a string, an integer or a boolean. *)
Definition toml_primitive (t : Toml) : option value :=
  match t with
  | TomlString s => Some (VString s)
  | TomlInteger z => Some (VNumber z)
  | TomlBool b => Some (VBool b)
  | _ => None
  end.

(** ** The logger: [handlers/console.js] *)

(** The values this repository passes to the logger besides the message:
    nothing, [null], a string, an instance of [Error] (with its other
    enumerable properties), or a plain object; properties are strings. *)
Inductive LogValue :=
  | LUndefined
  | LNull
  | LString (s : string)
  | LError (message stack : string) (own : list (string * string))
  | LObject (props : list (string * string)).

(** A reading of the clock, as the getters of [Date] give it. *)
Record DateTime := mkDateTime {
  getFullYear : Z;
  getMonth : nat;
  getDate : nat;
  getHours : nat;
  getMinutes : nat;
  getSeconds : nat
}.

(** What the logger takes from outside this repository: [chalk.hex],
    [chalk.gray], [JSON.stringify] (with and without indentation) and the
    clock, whose n-th reading is [clock n]. *)
Class ConsoleExternals := {
  chalk_hex : string → string → string;
  chalk_gray : string → string;
  JSON_stringify : LogValue → string;
  JSON_stringify_indented : LogValue → string;
  clock : nat → DateTime
}.

(** The two files of the logger, [this.logFile] and [this.errorFile]. *)
Inductive LogFile := CombinedLog | ErrorLog.

Definition same_file (f g : LogFile) : bool :=
  match f, g with
  | CombinedLog, CombinedLog | ErrorLog, ErrorLog => true
  | _, _ => false
  end.

(** What the logger asks of the outside, in order:
    [process.stdout.write(data)] and [fs.appendFile(file, data)]. *)
Inductive Output :=
  | StdoutWrite (data : string)
  | AppendFile (file : LogFile) (data : string).

Record LoggerState := mkLoggerState {
  outputs : list Output;
  clock_reads : nat
}.

Definition newline : string := String (Ascii.ascii_of_nat 10) "".

(** [s.includes(pattern)] *)
Fixpoint includes (s pattern : string) : bool :=
  String.prefix pattern s
  || match s with
     | EmptyString => false
     | String _ s' => includes s' pattern
     end.

(** [s.padStart(targetLength, padString)], for a [padString] of one
    character. *)
Definition padStart (s : string) (targetLength : nat) (padString : string) : string :=
  String.concat "" (replicate (targetLength - String.length s) padString) +:+ s.

Module ERROR_FILTERS.
Definition patterns : list string :=
  ["'app' is missing 'framework'";
   "Bun.serve() needs either";
   "routes object";
   "fetch handler";
   "ERR_INVALID_ARG_TYPE";
   "Learn more at https://bun.sh/docs/api/http";
   "TypeError: Bun.serve()";
   "Or a fetch handler"].

(** [!!v] *)
Definition is_truthy (v : LogValue) : bool :=
  match v with
  | LUndefined | LNull => false
  | LString s => if decide (s = "") then false else true
  | LError _ _ _ | LObject _ => true
  end.

(** [v[key]] for a truthy [v], [None] standing for [undefined]. *)
Definition property (v : LogValue) (key : string) : option string :=
  match v with
  | LError message stack own =>
      if decide (key = "message") then Some message
      else if decide (key = "stack") then Some stack
      else JsMap.get own key
  | LObject props => JsMap.get props key
  | _ => None
  end.

Section filters.
Context `{CExt : ConsoleExternals}.

(** [error.message || error.stack || JSON.stringify(error)] *)
Definition error_string (error : LogValue) : string :=
  match property error "message" with
  | Some (String a m) => String a m
  | _ =>
      match property error "stack" with
      | Some (String a s) => String a s
      | _ => JSON_stringify error
      end
  end.

Definition shouldFilter (error : LogValue) : bool :=
  if negb (is_truthy error) then false
  else
    let errorString :=
      match error with
      | LString s => s
      | _ => error_string error
      end in
    existsb (λ pattern, includes errorString pattern) patterns.
End filters.
End ERROR_FILTERS.

Module RustStyleLogger.
(** [Object.keys(metadata).length > 0] for a truthy [metadata]. *)
Definition has_keys (metadata : LogValue) : bool :=
  match metadata with
  | LString s => if decide (s = "") then false else true
  | LError _ _ own => if decide (own = []) then false else true
  | LObject props => if decide (props = []) then false else true
  | _ => false
  end.

(** A parameter with the default value [{}]. *)
Definition or_empty_object (v : LogValue) : LogValue :=
  match v with LUndefined => LObject [] | _ => v end.

Section logger.
Context `{CExt : ConsoleExternals}.

Definition two_digits (n : nat) : string := padStart (pretty n) 2 "0".

(** The string [getTimestamp()] builds from a reading of the clock. *)
Definition timestamp_of (now : DateTime) : string :=
  pretty (getFullYear now) +:+ "-" +:+ two_digits (getMonth now + 1)
  +:+ "-" +:+ two_digits (getDate now)
  +:+ " " +:+ two_digits (getHours now)
  +:+ ":" +:+ two_digits (getMinutes now)
  +:+ ":" +:+ two_digits (getSeconds now).

Definition getTimestamp (st : LoggerState) : string * LoggerState :=
  (timestamp_of (clock (clock_reads st)),
   mkLoggerState (outputs st) (S (clock_reads st))).

(** [formatLogMessage(level, message, color)]: the level is formatted
    and then left out of the result. *)
Definition formatLogMessage (level message color : string) (st : LoggerState)
    : string * LoggerState :=
  let '(timestamp, st1) := getTimestamp st in
  let formattedTimestamp := chalk_hex "#888888" timestamp in
  let formattedLevel := chalk_hex color (level +:+ String.concat ""
                          (replicate (3 - String.length level) " ")) in
  (formattedTimestamp +:+ " " +:+ message, st1).

Definition emit (o : Output) (st : LoggerState) : LoggerState :=
  mkLoggerState (outputs st ++ [o]) (clock_reads st).

(** [log(level, message, metadata, color)], [metadata] and [color]
    given. *)
Definition log (level message : string) (metadata : LogValue) (color : string)
    (st : LoggerState) : LoggerState :=
  if bool_decide (level = "ERR") && ERROR_FILTERS.shouldFilter (LString message)
  then st
  else
    let formattedMessage :=
      if ERROR_FILTERS.is_truthy metadata && has_keys metadata
      then message +:+ " " +:+ JSON_stringify metadata
      else message in
    let '(consoleMessage, st1) := formatLogMessage level formattedMessage color st in
    let st2 := emit (StdoutWrite (consoleMessage +:+ newline)) st1 in
    let '(timestamp, st3) := getTimestamp st2 in
    let fileMessage := timestamp +:+ " " +:+ level +:+ " " +:+ formattedMessage in
    let st4 := emit (AppendFile CombinedLog (fileMessage +:+ newline)) st3 in
    if bool_decide (level = "ERR")
    then emit (AppendFile ErrorLog (fileMessage +:+ newline)) st4
    else st4.

Definition info (message : string) (metadata : LogValue) : LoggerState → LoggerState :=
  log "INF" message (or_empty_object metadata) "#00b0ff".

Definition debug (message : string) (metadata : LogValue) : LoggerState → LoggerState :=
  log "DBG" message (or_empty_object metadata) "#9e9e9e".

Definition warn (message : string) (metadata : LogValue) : LoggerState → LoggerState :=
  log "WRN" message (or_empty_object metadata) "#ffae00".

(** [error(message, error)] *)
Definition error (message : string) (error : LogValue) : LoggerState → LoggerState :=
  match or_empty_object error with
  | LError error_message stack _ =>
      log "ERR" (message +:+ ": " +:+ error_message) (LObject [("stack", stack)]) "#ff4b4b"
  | LString s =>
      if ERROR_FILTERS.is_truthy (LString s)
      then log "ERR" (message +:+ ": " +:+ s) (LObject []) "#ff4b4b"
      else log "ERR" message (LObject []) "#ff4b4b"
  | metadata => log "ERR" message metadata "#ff4b4b"
  end.

(** The colour of a response, by its status code. *)
Definition status_color (statusCode : Z) : string :=
  if (500 <=? statusCode)%Z then "#ff4b4b"
  else if (400 <=? statusCode)%Z then "#ffae00"
  else if (300 <=? statusCode)%Z then "#9e9e9e"
  else if (200 <=? statusCode)%Z then "#00c853"
  else "#00b0ff".

(** The ['finish'] handler that the middleware of [requestLogger()]
    registers; [duration] is the text of the elapsed milliseconds. *)
Definition request_finished (method originalUrl : string) (statusCode : Z)
    (duration : string) : LoggerState → LoggerState :=
  let httpMethod := chalk_hex (status_color statusCode) method in
  log "INF"
    (httpMethod +:+ " " +:+ originalUrl +:+ " "
       +:+ chalk_gray ("(" +:+ pretty statusCode +:+ ", " +:+ duration +:+ "ms)"))
    (LObject []) "#ffffff".

(** [wsRequestLogger(req, ws, next)], before it calls [next()]. *)
Definition wsRequestLogger (originalUrl : string) : LoggerState → LoggerState :=
  log "INF" ("WS " +:+ originalUrl) (LObject []) "#00b0ff".

(** The methods installed on [console] by [interceptConsole()]; the
    first argument of [console.error] is a string wherever this
    repository calls it, the call with no argument does nothing. *)
Definition show_argument (arg : LogValue) : string :=
  match arg with
  | LString s => s
  | LUndefined => "undefined"
  | _ => JSON_stringify_indented arg
  end.

Definition join_arguments (args : list LogValue) : string :=
  String.concat " " (show_argument <$> args).

Definition console_log (args : list LogValue) (st : LoggerState) : LoggerState :=
  let message := join_arguments args in
  if negb (ERROR_FILTERS.shouldFilter (LString message)) then info message LUndefined st
  else st.

Definition console_info (args : list LogValue) : LoggerState → LoggerState :=
  info (join_arguments args) LUndefined.

Definition console_warn (args : list LogValue) (st : LoggerState) : LoggerState :=
  let message := join_arguments args in
  if negb (ERROR_FILTERS.shouldFilter (LString message)) then warn message LUndefined st
  else st.

Definition console_debug (args : list LogValue) : LoggerState → LoggerState :=
  debug (join_arguments args) LUndefined.

Definition console_error (message : string) (rest : list LogValue)
    (st : LoggerState) : LoggerState :=
  let err := match rest with e :: _ => e | [] => LNull end in
  if negb (ERROR_FILTERS.shouldFilter (LString message))
     && negb (ERROR_FILTERS.shouldFilter err)
  then error message err st
  else st.

(** The handler installed for ['uncaughtException'] and
    ['unhandledRejection'] by [setupProcessHandlers()]. *)
Definition errorHandler (err : LogValue) (st : LoggerState) : LoggerState :=
  if ERROR_FILTERS.shouldFilter err then st else error "Process error" err st.
End logger.
End RustStyleLogger.

(** A call of a method of the logger, or of [console] once the logger is
    installed, a request seen by its middlewares, or an error event of
    the process. *)
Inductive LoggerCall :=
  | CallInfo (message : string) (metadata : LogValue)
  | CallDebug (message : string) (metadata : LogValue)
  | CallWarn (message : string) (metadata : LogValue)
  | CallError (message : string) (error : LogValue)
  | CallConsoleLog (args : list LogValue)
  | CallConsoleInfo (args : list LogValue)
  | CallConsoleWarn (args : list LogValue)
  | CallConsoleDebug (args : list LogValue)
  | CallConsoleError (message : string) (rest : list LogValue)
  | CallRequestFinished (method originalUrl : string) (statusCode : Z) (duration : string)
  | CallWsRequest (originalUrl : string)
  | CallErrorHandler (error : LogValue).

Section logger_calls.
Context `{CExt : ConsoleExternals}.

Definition perform (call : LoggerCall) : LoggerState → LoggerState :=
  match call with
  | CallInfo message metadata => RustStyleLogger.info message metadata
  | CallDebug message metadata => RustStyleLogger.debug message metadata
  | CallWarn message metadata => RustStyleLogger.warn message metadata
  | CallError message error => RustStyleLogger.error message error
  | CallConsoleLog args => RustStyleLogger.console_log args
  | CallConsoleInfo args => RustStyleLogger.console_info args
  | CallConsoleWarn args => RustStyleLogger.console_warn args
  | CallConsoleDebug args => RustStyleLogger.console_debug args
  | CallConsoleError message rest => RustStyleLogger.console_error message rest
  | CallRequestFinished method originalUrl statusCode duration =>
      RustStyleLogger.request_finished method originalUrl statusCode duration
  | CallWsRequest originalUrl => RustStyleLogger.wsRequestLogger originalUrl
  | CallErrorHandler error => RustStyleLogger.errorHandler error
  end.

Definition perform_all (calls : list LoggerCall) (st : LoggerState) : LoggerState :=
  foldl (λ st call, perform call st) st calls.
End logger_calls.

(** The lines written to the standard output, and those appended to one
    of the files. *)
Definition stdout_writes (outs : list Output) : list string :=
  omap (λ o, match o with StdoutWrite data => Some data | _ => None end) outs.

Definition appended_to (file : LogFile) (outs : list Output) : list string :=
  omap (λ o, match o with
             | AppendFile file' data =>
                 if same_file file' file then Some data else None
             | _ => None
             end) outs.

(** ** A holder of the live configuration: the webhook logger *)

(** [!!v] *)
Definition value_truthy (v : value) : bool :=
  match v with
  | VUndefined => false
  | VBuiltin => true
  | VString s => if decide (s = "") then false else true
  | VNumber z => negb (Z.eqb z 0)
  | VBool b => b
  | VArray _ | VObject _ => true
  end.

(** [hex.replace("#", "")]: the first ["#"] is removed. *)
Fixpoint remove_first_hash (s : string) : string :=
  match s with
  | EmptyString => EmptyString
  | String a s' =>
      if decide (String a "" = "#") then s' else String a (remove_first_hash s')
  end.

Definition hex_digit (a : Ascii.ascii) : option Z :=
  match String.index 0 (String a "") "0123456789abcdef" with
  | Some n => Some (Z.of_nat n)
  | None =>
      match String.index 0 (String a "") "0123456789ABCDEF" with
      | Some n => Some (Z.of_nat n)
      | None => None
      end
  end.

(** The value of the longest prefix of hexadecimal digits, [acc] being
    the value of the digits read so far, [None] if there is none yet. *)
Fixpoint hex_digits (s : string) (acc : option Z) : option Z :=
  match s with
  | EmptyString => acc
  | String a s' =>
      match hex_digit a with
      | Some d => hex_digits s' (Some (16 * default 0 acc + d))%Z
      | None => acc
      end
  end.

Definition is_white_space (a : Ascii.ascii) : bool :=
  bool_decide (Ascii.nat_of_ascii a ∈ [9; 10; 11; 12; 13; 32]).

Fixpoint trim_start (s : string) : string :=
  match s with
  | EmptyString => EmptyString
  | String a s' => if is_white_space a then trim_start s' else s
  end.

(** [parseInt(s, 16)], [None] standing for [NaN]: leading white space
    (the ASCII one here), a sign, a prefix [0x] or [0X], then the longest
    run of digits.  The result is exact, as JavaScript's is below 2^53. *)
Definition parseInt16 (s : string) : option Z :=
  let s1 := trim_start s in
  let '(sign, s2) :=
    match s1 with
    | String a s' =>
        if decide (String a "" = "-") then ((-1)%Z, s')
        else if decide (String a "" = "+") then (1%Z, s')
        else (1%Z, s1)
    | EmptyString => (1%Z, s1)
    end in
  let s3 :=
    match s2 with
    | String a (String b s') =>
        if decide (String a "" = "0")
        then if bool_decide (String b "" ∈ ["x"; "X"]) then s' else s2
        else s2
    | _ => s2
    end in
  (λ n, sign * n)%Z <$> hex_digits s3 None.

Definition hexToDecimal (hex : string) : option Z :=
  parseInt16 (remove_first_hash hex).

(** The embed posted to the webhook. *)
Record Embed := mkEmbed {
  embed_color : option Z;
  embed_title : string;
  embed_description : string;
  embed_author_name : string;
  embed_thumbnail_url : string
}.

(** What the webhook logger asks of the outside: [console.log(...)] and
    [axios.post(url, { embeds })], whose failure is ignored. *)
Inductive WebhookEffect :=
  | ConsoleLog (args : list string)
  | AxiosPost (url : value) (embeds : list Embed).

Definition embed_of (action message : string) : Embed :=
  mkEmbed (hexToDecimal "#FFFFFF") ("Event: `" +:+ action +:+ "`") message
    "Heliactyl Logging" "https://atqr.pages.dev/favicon2.png".

(** The exported function [(action, message) => ...]; [settings] is the
    object [loadConfig("./config.toml")] returned when the module was
    loaded, read on the heap as it is at the call. *)
Definition logAction (settings : loc) (action message : string) (h : Heap)
    : Result (list WebhookEffect) :=
  match read_path h (VObject settings) ["logging"; "status"] with
  | Stopped st => Stopped st
  | Ok status =>
    if negb (value_truthy status) then Ok []
    else
      match read_path h (VObject settings) ["logging"; "actions"; "user"; action] with
      | Stopped st => Stopped st
      | Ok for_user =>
        match (if value_truthy for_user then Ok true
               else match read_path h (VObject settings)
                            ["logging"; "actions"; "admin"; action] with
                    | Ok for_admin => Ok (value_truthy for_admin)
                    | Stopped st => Stopped st
                    end) with
        | Stopped st => Stopped st
        | Ok false => Ok []
        | Ok true =>
          match read_path h (VObject settings) ["logging"; "webhook"] with
          | Stopped st => Stopped st
          | Ok url =>
              Ok [ConsoleLog [action; message]; AxiosPost url [embed_of action message]]
          end
        end
      end
  end.

(** ** A caller of the configuration: the list of all servers *)

(** A page of the panel's list of servers: [response.data], with its
    [data] and its [meta.pagination.total_pages]. *)
Record ServersPage (Server : Type) := mkServersPage {
  page_data : list Server;
  total_pages : Z
}.
Global Arguments mkServersPage {Server} _ _.
Global Arguments page_data {Server} _.
Global Arguments total_pages {Server} _.

Section getAllServers.
Context {Server : Type}.

(** The panel: what the request number [n] of a call answers for the
    page asked, [inl] with the message of the error when the request
    fails. *)
Variable getServersOnPage : nat → Z → string + ServersPage Server.

(** The loop [while (true)] of the exported function, [requests] being
    the number of requests made so far; [fuel] bounds the number of
    turns.  A failed request rejects the call. *)
Fixpoint getAllServers_loop (fuel : nat) (requests : nat) (currentPage : Z)
    (allServers : list Server) : Result (Completion (list Server) * nat) :=
  match fuel with
  | O => Stopped OutOfFuel
  | S fuel' =>
      match getServersOnPage requests currentPage with
      | inl msg => Ok (Throw msg, S requests)
      | inr page =>
          let allServers := allServers ++ page_data page in
          if (currentPage <? total_pages page)%Z
          then getAllServers_loop fuel' (S requests) (currentPage + 1)%Z allServers
          else Ok (Return allServers, S requests)
      end
  end.

(** The exported function: the servers, and the number of requests
    made. *)
Definition getAllServers (fuel : nat) : Result (Completion (list Server) * nat) :=
  getAllServers_loop fuel 0 1%Z [].
End getAllServers.

(** ** More concrete inputs *)

Module ResolverExamples.
(** The scenario of the specification with its keys in dependency order. *)
Definition ordered_registry : JsMap.t (ModuleRecord unit) :=
  [Examples.entry "core/auth" [];
   Examples.entry "core/billing" [mkDependency "core/auth" false];
   Examples.entry "extra/reports"
     [mkDependency "core/billing" true; mkDependency "extra/legacy" true]].
End ResolverExamples.

Module ReloadExamples.

(** A process in which nothing was loaded and no file exists. *)
Definition empty_process : Process := mkProcess ∅ ∅ [] [] [] [].
End ReloadExamples.

Module LoggerExamples.
(** A stand-in for the externals of the logger: no colours, objects
    printed as [{}], and a clock stopped at 2025-05-14 12:55:40. *)
Definition demo_externals : ConsoleExternals := {|
  chalk_hex := λ _ text, text;
  chalk_gray := λ text, text;
  JSON_stringify := λ _, "{}";
  JSON_stringify_indented := λ _, "{}";
  clock := λ _, mkDateTime 2025 4 14 12 55 40
  |}.

(** The diagnostic of the resolver for a module whose id contains one of
    the filter patterns. *)
Definition filtered_message : string :=
  "Circular dependency detected involving module routes object".
End LoggerExamples.

Module WebhookExamples.
(** A configuration with its [logging] table, logging on or off. *)
Definition logging_table (status : bool) : list (string * Toml) :=
  [("logging",
    TomlTable
      [("status", TomlBool status);
       ("webhook", TomlString "https://discord.example/hook");
       ("actions",
        TomlTable [("user", TomlTable [("signup", TomlBool true)]);
                   ("admin", TomlTable [])])])].

Definition demo_externals : ConfigExternals := {|
  path_resolve := λ p, "/app/" +:+ p;
  path_basename := λ p, p;
  toml_parse := λ content,
  if decide (content = "logging on") then inr (logging_table true)
  else if decide (content = "logging off") then inr (logging_table false)
  else inl "Unexpected character"
  |}.

(** The process after the module has loaded its configuration, logging
    off, and after the file was edited to turn logging on. *)
Definition started : Process :=
  (@loadConfig demo_externals (Some "config.toml")
     (mkProcess ∅ (<["/app/config.toml" := "logging off"]> ∅) [] [] [] [])).2.

Definition switched_on : Process :=
  mkProcess (heap started) (<["/app/config.toml" := "logging on"]> (files started))
    (configStore started) (watchers started) (console started) (events started).

(** The live object of [started], at reference 6. *)
Definition live_settings : shape :=
  SObj 6%positive
    [("logging",
      SObj 5%positive
        [("status", SLeaf (VBool false));
         ("webhook", SLeaf (VString "https://discord.example/hook"));
         ("actions",
          SObj 4%positive
            [("user", SObj 2%positive [("signup", SLeaf (VBool true))]);
             ("admin", SObj 3%positive [])])])].

(** A heap with a configuration in which logging is on. *)
Definition logging_heap : Heap :=
  <[1%positive := [("logging", VObject 2%positive)]]>
  (<[2%positive := [("status", VBool true);
                    ("webhook", VString "https://discord.example/hook");
                    ("actions", VObject 3%positive)]]>
   (<[3%positive := [("user", VObject 4%positive); ("admin", VObject 5%positive)]]>
    (<[4%positive := [("signup", VBool true)]]>
     (<[5%positive := []]> ∅)))).
End WebhookExamples.

Module ServersExamples.
(** A panel with two pages of servers, one that always announces a
    further page, and one whose second page cannot be fetched. *)
Definition two_pages : list (list string) := [["alpha"; "beta"]; ["gamma"]].

Definition steady_panel (n : nat) (page : Z) : string + ServersPage string :=
  if decide (page = 1%Z) then inr (mkServersPage ["alpha"; "beta"] 2)
  else if decide (page = 2%Z) then inr (mkServersPage ["gamma"] 2)
  else inl "Request failed with status code 404".

Definition endless_panel (n : nat) (page : Z) : string + ServersPage string :=
  inr (mkServersPage ["alpha"] (page + 1)).

Definition failing_panel (n : nat) (page : Z) : string + ServersPage string :=
  if decide (page = 1%Z) then inr (mkServersPage ["alpha"; "beta"] 2)
  else inl "Request failed with status code 502".
End ServersExamples.

(* ===================================================================== *)
(** * Part II: properties                                                 *)
(* ===================================================================== *)

(** ** Containers *)

Section jsmap_facts.
Context {V : Type}.
Implicit Types (m : JsMap.t V) (k : string) (v : V).

Lemma JsMap_get_Some_elem m k v : JsMap.get m k = Some v → (k, v) ∈ m.
Proof.
  induction m as [|[k' v'] m IH]; simpl; [done|].
  case_decide; intros ?; simplify_eq; set_solver.
Qed.

Lemma JsMap_get_None m k : JsMap.get m k = None ↔ k ∉ JsMap.keys m.
Proof.
  unfold JsMap.keys. induction m as [|[k' v'] m IH]; simpl.
  - split; [set_solver|done].
  - case_decide; subst.
    + split; [done|]. set_solver.
    + rewrite IH. set_solver.
Qed.

Lemma JsMap_has_keys m k : JsMap.has m k = true ↔ k ∈ JsMap.keys m.
Proof.
  unfold JsMap.has. destruct (JsMap.get m k) eqn:E.
  - split; [|done]. intros _.
    destruct (decide (k ∈ JsMap.keys m)) as [|Hn]; [done|].
    apply JsMap_get_None in Hn. congruence.
  - apply JsMap_get_None in E. split; [done|]. intros; contradiction.
Qed.

Lemma JsMap_has_false m k : JsMap.has m k = false ↔ k ∉ JsMap.keys m.
Proof.
  rewrite <- JsMap_has_keys. destruct (JsMap.has m k); split; naive_solver.
Qed.

Lemma JsMap_get_is_Some m k : is_Some (JsMap.get m k) ↔ k ∈ JsMap.keys m.
Proof.
  rewrite <- JsMap_has_keys. unfold JsMap.has.
  destruct (JsMap.get m k); split; intros; try done; by eexists.
Qed.

Lemma JsMap_get_set_eq m k v : JsMap.get (JsMap.set m k v) k = Some v.
Proof.
  induction m as [|[k' v'] m IH]; simpl.
  - by rewrite decide_True.
  - case_decide; simpl; [by rewrite decide_True|by rewrite decide_False].
Qed.

Lemma JsMap_get_set_ne m k k' v :
  k ≠ k' → JsMap.get (JsMap.set m k v) k' = JsMap.get m k'.
Proof.
  intros Hne. induction m as [|[k0 v0] m IH]; simpl.
  - by rewrite decide_False.
  - case_decide; simpl; subst.
    + by rewrite !decide_False.
    + case_decide; [done|apply IH].
Qed.

Lemma JsMap_keys_set m k v :
  JsMap.keys (JsMap.set m k v)
  = if JsMap.has m k then JsMap.keys m else JsMap.keys m ++ [k].
Proof.
  unfold JsMap.keys, JsMap.has. induction m as [|[k0 v0] m IH]; [done|].
  cbn [JsMap.set JsMap.get]. case_decide; subst; [done|].
  rewrite !fmap_cons, IH. by destruct (JsMap.get m k).
Qed.

Lemma JsMap_elem_of_keys_set m k k' v :
  k' ∈ JsMap.keys (JsMap.set m k v) ↔ k' = k ∨ k' ∈ JsMap.keys m.
Proof.
  rewrite JsMap_keys_set. destruct (JsMap.has m k) eqn:E.
  - apply JsMap_has_keys in E. set_solver.
  - set_solver.
Qed.

Lemma JsMap_wf_set m k v : JsMap.wf m → JsMap.wf (JsMap.set m k v).
Proof.
  unfold JsMap.wf. rewrite JsMap_keys_set. destruct (JsMap.has m k) eqn:E; [done|].
  apply JsMap_has_false in E. intros Hnd.
  apply NoDup_app. split_and!; [done| |apply NoDup_singleton].
  intros x Hx. set_solver.
Qed.
End jsmap_facts.

Lemma JsSet_has_true s x : JsSet.has s x = true ↔ x ∈ s.
Proof. unfold JsSet.has. by rewrite bool_decide_eq_true. Qed.

Lemma JsSet_has_false s x : JsSet.has s x = false ↔ x ∉ s.
Proof. unfold JsSet.has. by rewrite bool_decide_eq_false. Qed.

Lemma JsSet_add_fresh s x : x ∉ s → JsSet.add s x = s ++ [x].
Proof. intros H. unfold JsSet.add. apply JsSet_has_false in H. by rewrite H. Qed.

Lemma JsSet_delete_last s x : x ∉ s → JsSet.delete (s ++ [x]) x = s.
Proof.
  intros H. unfold JsSet.delete. rewrite filter_app.
  rewrite (filter_cons_False _ x []) by (intros Hc; by apply Hc).
  rewrite filter_nil, app_nil_r.
  induction s as [|y s IH]; [done|].
  rewrite filter_cons_True by set_solver. f_equal. apply IH. set_solver.
Qed.

(** ** The dependency resolver *)

Section resolver.
Context {Host : Type} (moduleMap : JsMap.t (ModuleRecord Host)).

Local Abbreviation K := (JsMap.keys moduleMap).
Local Abbreviation edge := (depends_on moduleMap).
Local Abbreviation reach := (depends_transitively moduleMap).


Lemma before_app_r l l' b a : before l b a → before (l ++ l') b a.
Proof.
  intros (l1 & l2 & -> & Hb). exists l1, (l2 ++ l').
  by rewrite <- app_assoc.
Qed.

Lemma before_snoc l b a : b ∈ l → before (l ++ [a]) b a.
Proof. intros Hb. by exists l, []. Qed.

Lemma before_precedes l b a : NoDup l → before l b a → precedes l b a.
Proof.
  intros Hnd (l1 & l2 & -> & Hb).
  apply list_elem_of_lookup in Hb as [i Hi].
  exists i, (length l1). split_and!.
  - by apply lookup_app_l_Some.
  - by rewrite list_lookup_middle.
  - by apply lookup_lt_Some in Hi.
Qed.


Lemma remaining_le st : remaining moduleMap st ≤ length moduleMap.
Proof.
  unfold remaining. etrans; [apply length_filter|].
  unfold JsMap.keys. by rewrite length_fmap.
Qed.

Lemma filter_push_lt (vs ks : list string) (x : string) :
  x ∈ ks → x ∉ vs →
  length (filter (λ k, k ∉ vs ++ [x]) ks) < length (filter (λ k, k ∉ vs) ks).
Proof.
  intros Hx Hv. induction ks as [|k ks IH]; [by apply elem_of_nil in Hx|].
  assert (Hle : ∀ l : list string,
    length (filter (λ k, k ∉ vs ++ [x]) l) ≤ length (filter (λ k, k ∉ vs) l)).
  { intros l. induction l as [|y l IHl]; [done|].
    destruct (decide (y ∉ vs ++ [x])) as [Hy|Hy].
    - rewrite filter_cons_True by done.
      rewrite filter_cons_True by set_solver. simpl. lia.
    - rewrite filter_cons_False by done.
      destruct (decide (y ∉ vs)).
      + rewrite filter_cons_True by done. simpl. lia.
      + rewrite filter_cons_False by done. done. }
  destruct (decide (k = x)) as [->|Hne].
  - rewrite (filter_cons_False (λ k, k ∉ vs ++ [x])) by set_solver.
    rewrite (filter_cons_True (λ k, k ∉ vs)) by done.
    simpl. specialize (Hle ks). lia.
  - assert (x ∈ ks) as Hin by set_solver. specialize (IH Hin).
    destruct (decide (k ∉ vs)).
    + rewrite !filter_cons_True by set_solver. simpl. lia.
    + rewrite !filter_cons_False by set_solver. done.
Qed.


Lemma edge_of_declared id dep :
  dep ∈ declared_dependencies moduleMap id →
  JsMap.has moduleMap (dep_name dep) = true → edge id (dep_name dep).
Proof. intros ? ?. by exists dep. Qed.

(** The loop over the dependencies of [id], given that the recursive
    calls behave. *)
Lemma for_each_dependency_spec (visit_rec : SortState → string → option SortState)
  (id : string) (stack : list string) :
  (∀ x, x ∈ stack ++ [id] → reach x id) →
  (∀ st d, sort_inv moduleMap st → visiting st = stack ++ [id] → d ∈ K →
         (∀ x, x ∈ visiting st → reach x d) →
         ∃ st', visit_rec st d = Some st' ∧ visit_post moduleMap d st st') →
  ∀ deps st,
  (∀ dep, dep ∈ deps → dep ∈ declared_dependencies moduleMap id) →
  sort_inv moduleMap st → visiting st = stack ++ [id] →
  ∃ st', for_each_dependency visit_rec moduleMap id deps st = Some st'
         ∧ sort_inv moduleMap st'
         ∧ visiting st' = stack ++ [id]
         ∧ (∃ ext, sorted st' = sorted st ++ ext ∧ ∀ x, x ∈ ext → reach id x)
         ∧ (∃ ext, sort_logger st' = sort_logger st ++ ext)
         ∧ (∀ dep, dep ∈ deps → JsMap.has moduleMap (dep_name dep) = true →
                   dep_name dep ∈ sorted st' ∨ dep_name dep ∈ stack ++ [id])
         ∧ (∀ dep, dep ∈ deps → JsMap.has moduleMap (dep_name dep) = false →
                   missing_dependency_entry id dep ∈ sort_logger st').
Proof.
  intros Hstack Hrec deps. induction deps as [|dep deps IH]; intros st Hdeps Hinv Hvis.
  - exists st. simpl. split_and!; try done.
    + exists []. rewrite app_nil_r. split; [done|]. intros x Hx. by apply elem_of_nil in Hx.
    + exists []. by rewrite app_nil_r.
    + intros dep Hd. by apply elem_of_nil in Hd.
    + intros dep Hd. by apply elem_of_nil in Hd.
  - simpl. destruct (JsMap.has moduleMap (dep_name dep)) eqn:Hhas; simpl.
    + (* registered: recurse *)
      assert (Hedge : edge id (dep_name dep)).
      { apply edge_of_declared; [apply Hdeps; left|done]. }
      destruct (Hrec st (dep_name dep)) as (st1 & Hv & Hpost); [done|done| | |].
      { by apply JsMap_has_keys. }
      { intros x Hx. rewrite Hvis in Hx.
        eapply rtc_r; [by apply Hstack|done]. }
      rewrite Hv. destruct Hpost as [Hinv1 Hvis1 (e1 & He1 & Hr1) (le1 & Hle1) Hdone].
      destruct (IH st1) as (st2 & Hf & Hinv2 & Hvis2 & (e2 & He2 & Hr2) & (le2 & Hle2) & Hpres & Hmiss).
      { intros d Hd. apply Hdeps. by right. }
      { done. }
      { congruence. }
      exists st2. split_and!; try done.
      * exists (e1 ++ e2). rewrite He2, He1, <- app_assoc. split; [done|].
        intros x Hx. apply elem_of_app in Hx as [Hx|Hx]; [|by apply Hr2].
        eapply rtc_l; [done|by apply Hr1].
      * exists (le1 ++ le2). by rewrite Hle2, Hle1, <- app_assoc.
      * intros d Hd Hh. apply elem_of_cons in Hd as [->|Hd]; [|by apply Hpres].
        destruct Hdone as [Hdone|Hdone].
        -- left. rewrite He2. apply elem_of_app. by left.
        -- right. by rewrite <- Hvis.
      * intros d Hd Hh. apply elem_of_cons in Hd as [->|Hd]; [congruence|by apply Hmiss].
    + (* not registered: log and continue *)
      set (st1 := log_missing_dependency id dep st).
      assert (Hentry : sort_logger st1 = sort_logger st ++ [missing_dependency_entry id dep]).
      { unfold st1, log_missing_dependency, missing_dependency_entry,
          logger_warn, logger_error. simpl. by destruct (dep_optional dep). }
      assert (Hinv1 : sort_inv moduleMap st1).
      { destruct Hinv. split; try done.
        intros a d Ha Hd. rewrite Hentry. apply elem_of_app. left. by apply inv_logged0. }
      destruct (IH st1) as (st2 & Hf & Hinv2 & Hvis2 & (e2 & He2 & Hr2) & (le2 & Hle2) & Hpres & Hmiss).
      { intros d Hd. apply Hdeps. by right. }
      { done. }
      { done. }
      exists st2. split_and!; try done.
      * by exists e2.
      * exists ([missing_dependency_entry id dep] ++ le2).
        by rewrite Hle2, Hentry, <- app_assoc.
      * intros d Hd Hh. apply elem_of_cons in Hd as [->|Hd]; [congruence|by apply Hpres].
      * intros d Hd Hh. apply elem_of_cons in Hd as [->|Hd]; [|by apply Hmiss].
        rewrite Hle2, Hentry. set_solver.
Qed.
Lemma sort_inv_log st l :
  sort_inv moduleMap st →
  sort_inv moduleMap (mkSortState (visited st) (visiting st) (sorted st)
                      (sort_logger st ++ l)).
Proof.
  intros [? ? ? ? ? Hlog]. split; simpl; try done.
  intros a d Ha Hd. apply elem_of_app. left. by apply Hlog.
Qed.

(** [visit] returns when the fuel exceeds the number of keys off the
    stack, and establishes [visit_post]. *)
Lemma visit_spec fuel : ∀ st id,
  sort_inv moduleMap st → id ∈ K →
  (∀ x, x ∈ visiting st → reach x id) →
  remaining moduleMap st < fuel →
  ∃ st', visit fuel moduleMap st id = Some st' ∧ visit_post moduleMap id st st'.
Proof.
  induction fuel as [|fuel IH]; intros st id Hinv Hid Hstack Hfuel; [lia|].
  simpl. destruct (JsSet.has (visited st) id) eqn:Hvd.
  { (* already visited *)
    apply JsSet_has_true in Hvd. exists st. split; [done|].
    split; try done.
    - exists []. rewrite app_nil_r. split; [done|]. intros x Hx. by apply elem_of_nil in Hx.
    - exists []. by rewrite app_nil_r.
    - left. by rewrite <- (inv_visited _ _ Hinv). }
  destruct (JsSet.has (visiting st) id) eqn:Hvg.
  { (* on the stack: a cycle, reported *)
    apply JsSet_has_true in Hvg. eexists. split; [done|].
    split; simpl; try done.
    - by apply sort_inv_log.
    - exists []. rewrite app_nil_r. split; [done|]. intros x Hx. by apply elem_of_nil in Hx.
    - by eexists.
    - by right. }
  apply JsSet_has_false in Hvd, Hvg.
  rewrite (JsSet_add_fresh _ _ Hvg).
  set (st1 := mkSortState (visited st) (visiting st ++ [id]) (sorted st) (sort_logger st)).
  assert (Hinv1 : sort_inv moduleMap st1).
  { destruct Hinv as [Hv ? Hst ? ? ?]. split; simpl; try done.
    intros x Hx. apply elem_of_app in Hx as [Hx|Hx]; [by apply Hst|].
    apply list_elem_of_singleton in Hx as ->. by rewrite <- Hv. }
  assert (Hrem : remaining moduleMap st1 < remaining moduleMap st).
  { unfold remaining, st1. simpl. by apply filter_push_lt. }
  destruct (for_each_dependency_spec (visit fuel moduleMap) id (visiting st))
    with (deps := declared_dependencies moduleMap id) (st := st1)
    as (st2 & Hf & Hinv2 & Hvis2 & (e2 & He2 & Hr2) & (le2 & Hle2) & Hpres & Hmiss);
    try done.
  { intros x Hx. apply elem_of_app in Hx as [Hx|Hx]; [by apply Hstack|].
    apply list_elem_of_singleton in Hx as ->. apply rtc_refl. }
  { intros st' d Hinv' Hvis' Hd Hreach. apply IH; try done.
    unfold remaining in *. rewrite Hvis'. simpl in Hrem. lia. }
  rewrite Hf. eexists. split; [done|].
  assert (Hfresh : id ∉ sorted st2).
  { apply (inv_stack _ _ Hinv2). rewrite Hvis2. set_solver. }
  rewrite (inv_visited _ _ Hinv2), (JsSet_add_fresh _ _ Hfresh).
  rewrite Hvis2, (JsSet_delete_last _ _ Hvg).
  split; simpl.
  - destruct Hinv2 as [Hv2 Hnd2 Hst2 Hk2 Ho2 Hl2]. split; simpl.
    + done.
    + apply NoDup_app. split_and!; [done| |apply NoDup_singleton].
      intros x Hx Hx'. apply list_elem_of_singleton in Hx' as ->. done.
    + intros x Hx Hin. apply elem_of_app in Hin as [Hin|Hin].
      * apply (Hst2 x); [|done]. rewrite Hvis2. set_solver.
      * apply list_elem_of_singleton in Hin as ->. done.
    + intros x Hx. apply elem_of_app in Hx as [Hx|Hx]; [by apply Hk2|].
      by apply list_elem_of_singleton in Hx as ->.
    + intros a b Ha Hab. apply elem_of_app in Ha as [Ha|Ha].
      * destruct (Ho2 a b Ha Hab) as [Hb|Hb]; [left|by right].
        by apply before_app_r.
      * apply list_elem_of_singleton in Ha as ->.
        destruct Hab as (dep & Hdep & <- & Hhas).
        destruct (Hpres dep Hdep Hhas) as [Hs|Hs].
        -- left. by apply before_snoc.
        -- right. apply elem_of_app in Hs as [Hs|Hs]; [by apply Hstack|].
           apply list_elem_of_singleton in Hs as ->. apply rtc_refl.
    + intros a dep Ha Hmd. apply elem_of_app in Ha as [Ha|Ha]; [by apply Hl2|].
      apply list_elem_of_singleton in Ha as ->. destruct Hmd as [Hd Hh].
      by apply Hmiss.
  - done.
  - exists (e2 ++ [id]). rewrite He2. simpl. rewrite <- app_assoc. split; [done|].
    intros x Hx. apply elem_of_app in Hx as [Hx|Hx]; [by apply Hr2|].
    apply list_elem_of_singleton in Hx as ->. apply rtc_refl.
  - exists le2. by rewrite Hle2.
  - left. set_solver.
Qed.
Lemma visit_all_app fuel ids1 ids2 st :
  visit_all fuel moduleMap (ids1 ++ ids2) st
  = match visit_all fuel moduleMap ids1 st with
  | Some st' => visit_all fuel moduleMap ids2 st'
  | None => None
  end.
Proof.
  revert st. induction ids1 as [|x ids1 IH]; intros st; simpl; [done|].
  destruct (visit fuel moduleMap st x); [apply IH|done].
Qed.

(** The loop over the keys, started with an empty stack. *)
Lemma visit_all_spec fuel ids : ∀ st,
  length moduleMap < fuel →
  (∀ x, x ∈ ids → x ∈ K) →
  sort_inv moduleMap st → visiting st = [] →
  ∃ st', visit_all fuel moduleMap ids st = Some st'
       ∧ sort_inv moduleMap st'
       ∧ visiting st' = []
       ∧ (∃ ext, sorted st' = sorted st ++ ext
                 ∧ ∀ x, x ∈ ext → ∃ k, k ∈ ids ∧ reach k x)
       ∧ (∃ ext, sort_logger st' = sort_logger st ++ ext)
       ∧ (∀ x, x ∈ ids → x ∈ sorted st').
Proof.
  induction ids as [|id ids IH]; intros st Hfuel Hids Hinv Hvis; simpl.
  - exists st. split_and!; try done.
    + exists []. rewrite app_nil_r. split; [done|]. intros x Hx. by apply elem_of_nil in Hx.
    + exists []. by rewrite app_nil_r.
    + intros x Hx. by apply elem_of_nil in Hx.
  - destruct (visit_spec fuel st id) as (st1 & Hv & [Hinv1 Hvis1 (e1 & He1 & Hr1) (le1 & Hle1) Hdone]);
      try done.
    { apply Hids. by left. }
    { intros x Hx. rewrite Hvis in Hx. by apply elem_of_nil in Hx. }
    { pose proof (remaining_le st). lia. }
    rewrite Hv.
    destruct (IH st1) as (st2 & Hva & Hinv2 & Hvis2 & (e2 & He2 & Hr2) & (le2 & Hle2) & Hall);
      try done.
    { intros x Hx. apply Hids. by right. }
    { congruence. }
    exists st2. split_and!; try done.
    + exists (e1 ++ e2). rewrite He2, He1, <- app_assoc. split; [done|].
      intros x Hx. apply elem_of_app in Hx as [Hx|Hx].
      * exists id. split; [by left|by apply Hr1].
      * destruct (Hr2 x Hx) as (k & Hk & Hkx). exists k. split; [by right|done].
    + exists (le1 ++ le2). by rewrite Hle2, Hle1, <- app_assoc.
    + intros x Hx. apply elem_of_cons in Hx as [->|Hx]; [|by apply Hall].
      destruct Hdone as [Hd|Hd].
      * rewrite He2. apply elem_of_app. by left.
      * rewrite Hvis in Hd. by apply elem_of_nil in Hd.
Qed.

Lemma sort_inv_initial l :
  sort_inv moduleMap (mkSortState JsSet.empty JsSet.empty [] l).
Proof.
  split; simpl; try done; try apply NoDup_nil_2;
    try (intros ? Hx; by apply elem_of_nil in Hx);
    intros ? ? Hx; by apply elem_of_nil in Hx.
Qed.

(** [sortModulesByDependency] returns, and its result satisfies the
    invariant and holds exactly the keys. *)
Lemma sortModulesByDependency_spec l :
  ∃ st, sortModulesByDependency l moduleMap = Some (sorted st, sort_logger st)
      ∧ sort_inv moduleMap st
      ∧ (∀ x, x ∈ sorted st ↔ x ∈ K)
      ∧ (∃ ext, sort_logger st = l ++ ext).
Proof.
  unfold sortModulesByDependency.
  destruct (visit_all_spec (S (length moduleMap)) K
    (mkSortState JsSet.empty JsSet.empty [] l))
    as (st & Hv & Hinv & Hvis & _ & Hlog & Hall); try done.
  { lia. }
  { apply sort_inv_initial. }
  rewrite Hv. exists st. split_and!; try done.
  intros x. split; [apply (inv_keys _ _ Hinv)|apply Hall].
Qed.
End resolver.

Section resolver_claims.
Context {Host : Type} (moduleMap : JsMap.t (ModuleRecord Host)).

Lemma requires_depends_on a b : requires moduleMap a b → depends_on moduleMap a b.
Proof. intros (dep & ? & ? & ? & ?). by exists dep. Qed.

Lemma depends_on_registered a b :
  depends_on moduleMap a b → a ∈ JsMap.keys moduleMap ∧ b ∈ JsMap.keys moduleMap.
Proof.
  intros (dep & Hdep & <- & Hhas). split; [|by apply JsMap_has_keys].
  unfold declared_dependencies in Hdep.
  destruct (JsMap.get moduleMap a) eqn:E; [|by apply elem_of_nil in Hdep].
  apply JsMap_get_is_Some. by eexists.
Qed.

(** A dependency, optional or required, on a registered module that does
    not depend back on the dependent comes first in the resolved order. *)
Lemma dependency_resolved_first l a b :
  depends_on moduleMap a b → ¬ depends_transitively moduleMap b a →
  ∃ order l', sortModulesByDependency l moduleMap = Some (order, l')
            ∧ precedes order b a.
Proof.
  intros Hab Hback.
  destruct (sortModulesByDependency_spec moduleMap l) as (st & Hs & Hinv & Hkeys & _).
  exists (sorted st), (sort_logger st). split; [done|].
  destruct (depends_on_registered a b Hab) as [Ha _].
  apply Hkeys in Ha.
  destruct (inv_order _ _ Hinv a b Ha Hab) as [Hb|Hb]; [|contradiction].
  apply before_precedes; [apply (inv_nodup _ _ Hinv)|done].
Qed.

(** C1 (amended): if A declares a required dependency on the registered
    module B, and B does not depend back on A along declared
    dependencies on registered modules, then [sortModulesByDependency]
    returns a sequence in which the position of B is strictly before the
    position of A. *)
Theorem required_dependency_precedes l a b :
  requires moduleMap a b → ¬ depends_transitively moduleMap b a →
  ∃ order l', sortModulesByDependency l moduleMap = Some (order, l')
            ∧ precedes order b a.
Proof.
  intros Hab. apply dependency_resolved_first. by apply requires_depends_on.
Qed.

(** C2: whatever the registry declares (cycles, names that are not
    registered), [sortModulesByDependency] returns, and what it returns
    has no duplicates and is a permutation of the keys of the registry. *)
Theorem sortModulesByDependency_permutation l :
  JsMap.wf moduleMap →
  ∃ order l', sortModulesByDependency l moduleMap = Some (order, l')
            ∧ NoDup order ∧ order ≡ₚ JsMap.keys moduleMap.
Proof.
  intros Hwf.
  destruct (sortModulesByDependency_spec moduleMap l) as (st & Hs & Hinv & Hkeys & _).
  exists (sorted st), (sort_logger st). split_and!; [done|apply (inv_nodup _ _ Hinv)|].
  apply NoDup_Permutation; [apply (inv_nodup _ _ Hinv)|done|done].
Qed.

(** C9 (amended): if P is before Q in the key order of the registry and
    Q is not a dependency, direct or transitive, of P or of a key before
    P, then P is before Q in the sequence [sortModulesByDependency]
    returns. *)
Theorem registry_order_kept l i j p q :
  JsMap.keys moduleMap !! i = Some p →
  JsMap.keys moduleMap !! j = Some q →
  i < j →
  (∀ i' k, i' ≤ i → JsMap.keys moduleMap !! i' = Some k →
         ¬ depends_transitively moduleMap k q) →
  ∃ order l', sortModulesByDependency l moduleMap = Some (order, l')
            ∧ precedes order p q.
Proof.
  intros Hp Hq Hij Hfree.
  destruct (sortModulesByDependency_spec moduleMap l) as (st & Hs & Hinv & Hkeys & _).
  exists (sorted st), (sort_logger st). split; [done|].
  unfold sortModulesByDependency in Hs.
  pose proof (take_drop (S i) (JsMap.keys moduleMap)) as Hsplit.
  rewrite <- Hsplit, visit_all_app in Hs.
  set (st0 := mkSortState JsSet.empty JsSet.empty [] l) in *.
  destruct (visit_all_spec moduleMap (S (length moduleMap))
    (take (S i) (JsMap.keys moduleMap)) st0)
    as (st1 & Hv1 & Hinv1 & Hvis1 & (e1 & He1 & Hr1) & _ & Hall1).
  { lia. }
  { intros x Hx. by eapply subseteq_take. }
  { apply sort_inv_initial. }
  { done. }
  rewrite Hv1 in Hs.
  destruct (visit_all_spec moduleMap (S (length moduleMap))
    (drop (S i) (JsMap.keys moduleMap)) st1)
    as (st2 & Hv2 & Hinv2 & Hvis2 & (e2 & He2 & Hr2) & _ & Hall2).
  { lia. }
  { intros x Hx. by eapply subseteq_drop. }
  { done. }
  { done. }
  rewrite Hv2 in Hs. injection Hs as Hs _.
  assert (Hp1 : p ∈ sorted st1).
  { apply Hall1. apply list_elem_of_lookup. exists i.
    rewrite lookup_take_lt by lia. done. }
  assert (Hq1 : q ∉ sorted st1).
  { intros Hin. rewrite He1 in Hin. simpl in Hin.
    destruct (Hr1 q Hin) as (k & Hk & Hkq).
    apply list_elem_of_lookup in Hk as [i' Hi'].
    apply lookup_take_Some in Hi' as [Hi' Hlt].
    apply (Hfree i' k); [lia|done|done]. }
  assert (Hq2 : q ∈ e2).
  { assert (q ∈ sorted st2) as Hin.
    { apply Hall2. apply list_elem_of_lookup. exists (j - S i).
      rewrite lookup_drop. rewrite <- Hq. f_equal. lia. }
    rewrite He2 in Hin. apply elem_of_app in Hin as [Hin|Hin]; [contradiction|done]. }
  apply list_elem_of_split in Hq2 as (e21 & e22 & ->).
  rewrite <- Hs, He2. apply before_precedes.
  { rewrite <- He2. apply (inv_nodup _ _ Hinv2). }
  exists (sorted st1 ++ e21), e22. rewrite <- app_assoc. split; [done|].
  apply elem_of_app. by left.
Qed.
End resolver_claims.

(** ** The manifest validator and [loadModule] *)

Section loader_facts.
Context `{Ext : Externals}.
Implicit Types (this : ModuleLoader) (m : Manifest).

Lemma loader_extends_refl this : loader_extends this this.
Proof. repeat split. exists []. by rewrite app_nil_r. Qed.

Lemma loader_extends_log_error this msg : loader_extends this (log_error this msg).
Proof. repeat split. by eexists. Qed.

Lemma loader_extends_trans this1 this2 this3 :
  loader_extends this1 this2 → loader_extends this2 this3 → loader_extends this1 this3.
Proof.
  intros (? & ? & ? & ? & ? & e1 & He1) (? & ? & ? & ? & ? & e2 & He2).
  repeat split; try congruence.
  exists (e1 ++ e2). by rewrite He2, He1, <- app_assoc.
Qed.

Lemma find_required_None m :
  List.find (λ field, negb (manifest_field_truthy m field)) requiredFields = None
  ↔ truthy (name m) = true ∧ truthy (version m) = true
  ∧ truthy (api_level m) = true ∧ truthy (target_platform m) = true.
Proof.
  unfold requiredFields, manifest_field_truthy. simpl.
  destruct (truthy (name m)), (truthy (version m)), (truthy (api_level m)),
    (truthy (target_platform m)); simpl; naive_solver.
Qed.

(** [validateManifest] answers [true] exactly on the accepted manifests,
    and then logs nothing. *)
Lemma validateManifest_true this m moduleId :
  (validateManifest this (Some m) moduleId).1 = true
  ↔ manifest_accepted (platformVersion this) (apiLevel this) m.
Proof.
  unfold validateManifest, manifest_accepted.
  destruct (List.find (λ field, negb (manifest_field_truthy m field)) requiredFields) eqn:Hfind.
  - simpl. split; [done|]. intros (? & ? & ? & ? & _).
    assert (List.find (λ field, negb (manifest_field_truthy m field)) requiredFields = None)
      as Hn by by apply find_required_None.
    congruence.
  - apply find_required_None in Hfind as (? & ? & ? & ?).
    destruct (api_level_exceeds m (apiLevel this)); simpl; [naive_solver|].
    destruct (platform_satisfied (platformVersion this) m); simpl; naive_solver.
Qed.

Lemma validateManifest_extends this manifest moduleId :
  loader_extends this (validateManifest this manifest moduleId).2
  ∧ moduleRegistry (validateManifest this manifest moduleId).2 = moduleRegistry this.
Proof.
  unfold validateManifest. destruct manifest as [m|]; cbv beta iota.
  - destruct (List.find (λ field, negb (manifest_field_truthy m field)) requiredFields); simpl.
    { split; [apply loader_extends_log_error|done]. }
    destruct (api_level_exceeds m (apiLevel this)); simpl.
    { split; [apply loader_extends_log_error|done]. }
    destruct (platform_satisfied (platformVersion this) m); simpl.
    + split; [apply loader_extends_refl|done].
    + split; [apply loader_extends_log_error|done].
  - split; [apply loader_extends_log_error|done].
Qed.

(** What a call of [loadModule] does to the loader. *)
Lemma loadModule_spec this moduleId modulePath :
  let r := loadModule this moduleId modulePath in
  loader_extends this r.2
  ∧ ((r.1 = false ∧ moduleRegistry r.2 = moduleRegistry this)
   ∨ (r.1 = true
      ∧ ∃ e m, require modulePath = Some e
               ∧ HeliactylModule e = Some m
               ∧ is_Some (load e)
               ∧ manifest_accepted (platformVersion this) (apiLevel this) m
               ∧ moduleRegistry r.2
                 = JsMap.set (moduleRegistry this) moduleId
                     (mkRecord moduleId modulePath e m))).
Proof.
  unfold loadModule. destruct (require modulePath) as [e|] eqn:Hreq; cbv beta iota zeta.
  2:{ split; [apply loader_extends_log_error|by left]. }
  destruct (HeliactylModule e) as [m|] eqn:Hm; cbv beta iota zeta.
  2:{ split; [apply loader_extends_log_error|by left]. }
  pose proof (validateManifest_extends this (Some m) moduleId) as [Hext Hreg].
  pose proof (validateManifest_true this m moduleId) as Hval.
  destruct (validateManifest this (Some m) moduleId) as [valid this1].
  cbn [fst snd negb] in *.
  destruct valid; cbn [fst snd negb].
  - destruct (load e) as [f|] eqn:Hload; simpl.
    + split.
      * destruct Hext as (? & ? & ? & ? & ? & ?). repeat split; done.
      * right. split; [done|]. exists e, m. rewrite Hreg.
        split_and!; try done. by apply Hval.
    + split; [done|by left].
  - split; [done|by left].
Qed.

(** A manifest whose [api_level] exceeds the host's is not registered. *)
Lemma loadModule_api_level_too_high this moduleId modulePath e m a :
  require modulePath = Some e → HeliactylModule e = Some m →
  api_level m = Some a → (apiLevel this < a)%Z →
  (loadModule this moduleId modulePath).1 = false
  ∧ moduleRegistry (loadModule this moduleId modulePath).2 = moduleRegistry this.
Proof.
  intros Hreq Hm Ha Hlt.
  destruct (loadModule_spec this moduleId modulePath) as [_ [Hr|[_ Hr]]]; [done|].
  destruct Hr as (e' & m' & He' & Hm' & _ & Hacc & _).
  rewrite Hreq in He'. injection He' as <-. rewrite Hm in Hm'. injection Hm' as <-.
  destruct Hacc as (_ & _ & _ & _ & Hex & _).
  unfold api_level_exceeds in Hex. rewrite Ha in Hex.
  apply Z.ltb_ge in Hex. lia.
Qed.
End loader_facts.

(** ** Registration and initialization *)

Section lifecycle_facts.
Context `{Ext : Externals}.
Implicit Types (this : ModuleLoader) (m : Manifest).

Lemma validateManifest_accepts this m moduleId :
  manifest_accepted (platformVersion this) (apiLevel this) m →
  validateManifest this (Some m) moduleId = (true, this).
Proof.
  intros (Hn & Hv & Ha & Ht & Hex & Hsat). unfold validateManifest.
  assert (List.find (λ field, negb (manifest_field_truthy m field)) requiredFields = None)
    as -> by by apply find_required_None.
  by rewrite Hex, Hsat.
Qed.

Lemma loadModule_accepts this moduleId modulePath e m :
  require modulePath = Some e → HeliactylModule e = Some m → is_Some (load e) →
  manifest_accepted (platformVersion this) (apiLevel this) m →
  loadModule this moduleId modulePath
  = (true, with_registry this
           (JsMap.set (moduleRegistry this) moduleId
              (mkRecord moduleId modulePath e m))).
Proof.
  intros Hreq Hm [f Hf] Hacc. unfold loadModule.
  rewrite Hreq, Hm, (validateManifest_accepts _ _ _ Hacc). cbn [negb].
  by rewrite Hf.
Qed.

Lemma load_definitions_cons this c cs :
  load_definitions this (c :: cs)
  = load_definitions (loadModule this (cand_id c) (cand_path c)).2 cs.
Proof. done. Qed.

Lemma load_definitions_app this cs1 cs2 :
  load_definitions this (cs1 ++ cs2) = load_definitions (load_definitions this cs1) cs2.
Proof. unfold load_definitions. apply foldl_app. Qed.

Lemma registry_sound_set platform hostLevel registry id path e m :
  registry_sound platform hostLevel registry →
  HeliactylModule e = Some m → is_Some (load e) →
  manifest_accepted platform hostLevel m →
  registry_sound platform hostLevel (JsMap.set registry id (mkRecord id path e m)).
Proof.
  intros Hs Hm Hl Hacc id' r Hget.
  destruct (decide (id = id')) as [->|Hne].
  - rewrite JsMap_get_set_eq in Hget. injection Hget as <-. by simpl.
  - rewrite JsMap_get_set_ne in Hget by done. by apply Hs.
Qed.

(** The registration pass: only the logger and the registry change, and
    the registry stays sound. *)
Lemma load_definitions_spec discovered : ∀ this,
  registry_sound (platformVersion this) (apiLevel this) (moduleRegistry this) →
  loader_extends this (load_definitions this discovered)
  ∧ registry_sound (platformVersion this) (apiLevel this)
    (moduleRegistry (load_definitions this discovered)).
Proof.
  induction discovered as [|c cs IH]; intros this Hs.
  - split; [apply loader_extends_refl|done].
  - rewrite load_definitions_cons.
    destruct (loadModule_spec this (cand_id c) (cand_path c)) as [Hext Hcase].
    set (this1 := (loadModule this (cand_id c) (cand_path c)).2) in *.
    assert (Hpv : platformVersion this1 = platformVersion this) by apply Hext.
    assert (Hlv : apiLevel this1 = apiLevel this) by apply Hext.
    destruct (IH this1) as [Hext' Hs'].
    { rewrite Hpv, Hlv. destruct Hcase as [[_ ->]|[_ (e & m & _ & Hm & Hl & Hacc & ->)]];
        [done|by apply registry_sound_set]. }
    split; [by eapply loader_extends_trans|]. by rewrite <- Hpv, <- Hlv.
Qed.

Lemma load_definitions_get_other discovered id : ∀ this,
  id ∉ cand_id <$> discovered →
  JsMap.get (moduleRegistry (load_definitions this discovered)) id
  = JsMap.get (moduleRegistry this) id.
Proof.
  induction discovered as [|c cs IH]; intros this Hid; [done|].
  rewrite load_definitions_cons, IH by set_solver.
  destruct (loadModule_spec this (cand_id c) (cand_path c))
    as [_ [[_ ->]|[_ (e & m & _ & _ & _ & _ & ->)]]]; [done|].
  apply JsMap_get_set_ne. set_solver.
Qed.

(** A candidate that passes every check, and whose id no other candidate
    has, is in the registry after the pass. *)
Lemma load_definitions_registers this discovered c e m :
  NoDup (cand_id <$> discovered) → c ∈ discovered →
  require (cand_path c) = Some e → HeliactylModule e = Some m → is_Some (load e) →
  manifest_accepted (platformVersion this) (apiLevel this) m →
  registry_sound (platformVersion this) (apiLevel this) (moduleRegistry this) →
  JsMap.get (moduleRegistry (load_definitions this discovered)) (cand_id c)
  = Some (mkRecord (cand_id c) (cand_path c) e m).
Proof.
  intros Hnd Hc Hreq Hm Hl Hacc Hs.
  apply list_elem_of_split in Hc as (pre & post & ->).
  rewrite fmap_app, fmap_cons in Hnd.
  apply NoDup_app in Hnd as (_ & _ & Hnd). apply NoDup_cons in Hnd as [Hfresh _].
  rewrite load_definitions_app, load_definitions_cons.
  destruct (load_definitions_spec pre this Hs) as [Hext _].
  set (this1 := load_definitions this pre) in *.
  assert (Hpv : platformVersion this1 = platformVersion this) by apply Hext.
  assert (Hlv : apiLevel this1 = apiLevel this) by apply Hext.
  rewrite load_definitions_get_other by done.
  rewrite (loadModule_accepts this1 _ _ e m) by (try done; by rewrite Hpv, Hlv).
  simpl. apply JsMap_get_set_eq.
Qed.
Lemma initialize_in_order_cons this id ids :
  initialize_in_order this (id :: ids)
  = initialize_in_order (initializeModule this id).2 ids.
Proof. done. Qed.

(** The initialization pass over ids that are all registered with a
    callable entry point: every entry point is invoked, in order; the
    loaded map gains exactly the ids whose call completed; each failure
    is logged. *)
Lemma initialize_in_order_spec ids : ∀ this,
  (∀ id, id ∈ ids → ∃ r, JsMap.get (moduleRegistry this) id = Some r
                        ∧ is_Some (load (exports r))) →
  let this' := initialize_in_order this ids in
  moduleRegistry this' = moduleRegistry this
  ∧ ∃ new ext,
    load_calls this' = load_calls this ++ new
    ∧ new.*1 = ids
    ∧ logger this' = logger this ++ ext
    ∧ (∀ id, id ∈ JsMap.keys (loadedModules this')
             ↔ id ∈ JsMap.keys (loadedModules this) ∨ (id, true) ∈ new)
    ∧ (∀ id, (id, false) ∈ new → initialization_error_entry id ∈ ext)
    ∧ (∀ id r, JsMap.get (loadedModules this') id = Some r →
               JsMap.get (loadedModules this) id = Some r
               ∨ JsMap.get (moduleRegistry this) id = Some r)
    ∧ (∀ id r f, id ∈ ids → JsMap.get (moduleRegistry this) id = Some r →
                 load (exports r) = Some f → (∀ h, ∃ h', f h = Completed h') →
                 (id, true) ∈ new).
Proof.
  induction ids as [|id ids IH]; intros this Hreg this'.
  - split; [done|]. exists [], []. rewrite !app_nil_r.
    split_and!; try done.
    + intros id. split; [by left|]. intros [?|Hin]; [done|by apply elem_of_nil in Hin].
    + intros id Hin. by apply elem_of_nil in Hin.
    + intros id r; by left.
    + intros id r f Hin. by apply elem_of_nil in Hin.
  - subst this'. rewrite initialize_in_order_cons.
    destruct (Hreg id) as (r & Hr & [f Hf]); [by left|].
    set (this1 := (initializeModule this id).2).
    assert (Hthis1 :
      moduleRegistry this1 = moduleRegistry this
      ∧ ∃ ok ext1,
      load_calls this1 = load_calls this ++ [(id, ok)]
      ∧ logger this1 = logger this ++ ext1
      ∧ loadedModules this1
      = (if ok then JsMap.set (loadedModules this) id r else loadedModules this)
      ∧ (ok = false → initialization_error_entry id ∈ ext1)
      ∧ ((∀ h, ∃ h', f h = Completed h') → ok = true)).
    { unfold this1, initializeModule. rewrite Hr, Hf.
      destruct (f (host this)) as [h|h] eqn:Hfh; simpl.
      - split; [done|]. exists true, []. rewrite app_nil_r. by split_and!.
      - split; [done|]. exists false, [initialization_error_entry id].
        split_and!; try done.
        + intros _. by apply list_elem_of_singleton.
        + intros Hall. destruct (Hall (host this)) as [h' Hh']. congruence. }
    destruct Hthis1 as (Hreg1 & ok & ext1 & Hcalls1 & Hlog1 & Hloaded1 & Herr1 & Hok1).
    destruct (IH this1) as (Hreg2 & new & ext2 & Hcalls2 & Hnew & Hlog2 & Hkeys2 & Herr2 & Hget2 & Hokk2).
    { intros id' Hin. rewrite Hreg1. apply Hreg. by right. }
    split; [congruence|].
    exists ((id, ok) :: new), (ext1 ++ ext2).
    split_and!.
    + rewrite Hcalls2, Hcalls1, <- app_assoc. done.
    + rewrite fmap_cons. simpl. by rewrite Hnew.
    + rewrite Hlog2, Hlog1, <- app_assoc. done.
    + intros id'. rewrite Hkeys2, Hloaded1, elem_of_cons. destruct ok.
      * rewrite JsMap_elem_of_keys_set. naive_solver.
      * naive_solver.
    + intros id' Hin. apply elem_of_cons in Hin as [Heq|Hin].
      * simplify_eq. apply elem_of_app. left. by apply Herr1.
      * apply elem_of_app. right. by apply Herr2.
    + intros id' r' Hget. destruct (Hget2 id' r' Hget) as [Hl|Hl].
      * rewrite Hloaded1 in Hl. destruct ok; [|by left].
        destruct (decide (id = id')) as [->|Hne].
        -- rewrite JsMap_get_set_eq in Hl. right. congruence.
        -- rewrite JsMap_get_set_ne in Hl by done. by left.
      * right. by rewrite <- Hreg1.
    + intros id' r' f' Hin Hr' Hf' Hall. apply elem_of_cons in Hin as [->|Hin].
      * assert (r' = r) as -> by congruence. assert (f' = f) as -> by congruence.
        rewrite Hok1 by done. by left.
      * right. eapply Hokk2; [done| |done|done]. by rewrite Hreg1.
Qed.
End lifecycle_facts.


Section loader_claims.
Context `{Ext : Externals}.
Implicit Types (this : ModuleLoader) (m : Manifest).

(** [loadAllModules] on a new loader: it returns; its registry is the one
    the registration pass built; the entry points of the resolved order
    are invoked one after the other; the loaded map holds the ids whose
    call completed. *)
Lemma loadAllModules_spec app_db platform hostLevel discovered :
  let this0 := new_ModuleLoader app_db platform hostLevel in
  let this1 := load_definitions this0 discovered in
  ∃ st this',
  sortModulesByDependency (logger this1) (moduleRegistry this1)
    = Some (sorted st, sort_logger st)
  ∧ sort_inv (moduleRegistry this1) st
  ∧ (∀ x, x ∈ sorted st ↔ x ∈ JsMap.keys (moduleRegistry this1))
  ∧ loadAllModules this0 discovered = Some this'
  ∧ moduleRegistry this' = moduleRegistry this1
  ∧ registry_sound platform hostLevel (moduleRegistry this1)
  ∧ (∃ ext, logger this' = sort_logger st ++ ext
            ∧ ∀ id, (id, false) ∈ load_calls this' →
                    initialization_error_entry id ∈ ext)
  ∧ (load_calls this').*1 = sorted st
  ∧ (∀ id, id ∈ JsMap.keys (loadedModules this') ↔ (id, true) ∈ load_calls this')
  ∧ (∀ id r, JsMap.get (loadedModules this') id = Some r →
             JsMap.get (moduleRegistry this1) id = Some r)
  ∧ (∀ id r f, JsMap.get (moduleRegistry this1) id = Some r →
               load (exports r) = Some f → (∀ h, ∃ h', f h = Completed h') →
               (id, true) ∈ load_calls this').
Proof.
  intros this0 this1.
  destruct (load_definitions_spec discovered this0) as [Hext Hsound].
  { intros id r Hget. done. }
  fold this1 in Hext, Hsound. simpl in Hsound.
  destruct Hext as (_ & _ & _ & Hloaded1 & Hcalls1 & _).
  destruct (sortModulesByDependency_spec (moduleRegistry this1) (logger this1))
    as (st & Hs & Hinv & Hkeys & _).
  pose proof (initialize_in_order_spec (sorted st)
    (with_logger this1 (sort_logger st))) as Hinit.
  destruct Hinit as (Hreg & new & ext & Hcalls & Hnew & Hlog & Hk & Herr & Hget & Hok).
  { intros id Hid. apply Hkeys, JsMap_get_is_Some in Hid as [r Hr].
    exists r. split; [done|]. by apply (Hsound id r Hr). }
  simpl in *. rewrite Hcalls1 in Hcalls. rewrite Hloaded1 in Hk, Hget. simpl in *.
  exists st, (initialize_in_order (with_logger this1 (sort_logger st)) (sorted st)).
  split_and!; try done.
  - unfold loadAllModules. fold this0 this1. by rewrite Hs.
  - exists ext. split; [done|]. intros id Hid. apply Herr. by rewrite Hcalls in Hid.
  - by rewrite Hcalls.
  - intros id. rewrite Hk, Hcalls. split; [|by right].
    intros [Hin|Hin]; [by apply elem_of_nil in Hin|done].
  - intros id r Hr. by destruct (Hget id r Hr).
  - intros id r f Hr Hf Hall. rewrite Hcalls. eapply Hok; try done.
    apply Hkeys, JsMap_get_is_Some. by eexists.
Qed.

(** C10: [validateManifest] answers [false] on every manifest one of
    whose four required fields is falsy: absent, the empty string, or the
    number [0] for [api_level]; and it answers and logs exactly as on the
    manifest in which the falsy fields are absent. *)
Theorem validateManifest_rejects_falsy this m moduleId :
  name m ∈ [None; Some ""] ∨ version m ∈ [None; Some ""]
  ∨ api_level m ∈ [None; Some 0%Z] ∨ target_platform m ∈ [None; Some ""] →
  (validateManifest this (Some m) moduleId).1 = false
  ∧ validateManifest this (Some m) moduleId
  = validateManifest this
      (Some (mkManifest
               (if truthy (name m) then name m else None)
               (if truthy (version m) then version m else None)
               (if truthy (api_level m) then api_level m else None)
               (if truthy (target_platform m) then target_platform m else None)
               (dependencies m)))
      moduleId.
Proof.
  intros Hfalsy. split.
  - destruct (validateManifest this (Some m) moduleId).1 eqn:Hv; [|done].
    apply validateManifest_true in Hv as (Hn & Hv & Ha & Ht & _).
    destruct Hfalsy as [H|[H|[H|H]]];
      apply elem_of_cons in H as [H|H%list_elem_of_singleton];
      first [ rewrite H in Hn; by cbv in Hn | rewrite H in Hv; by cbv in Hv
      | rewrite H in Ha; by cbv in Ha | rewrite H in Ht; by cbv in Ht ].
  - destruct m as [n v a t d]. simpl.
    unfold validateManifest, requiredFields, manifest_field_truthy,
      api_level_exceeds, platform_satisfied, show_api_level, show_target_platform.
    simpl.
    destruct (truthy n) eqn:Hn, (truthy v) eqn:Hv, (truthy a) eqn:Ha,
      (truthy t) eqn:Ht; simpl; rewrite ?Hn, ?Hv, ?Ha, ?Ht; try done.
Qed.



(** C6 (amended): [loadModule] refuses a candidate whose manifest declares
    an [api_level] above the host's and leaves the registry as it was, so
    that no record of the registry or of the loaded map declares one; and
    a candidate whose id no other candidate has, whose four required
    fields are truthy ([api_level] not [0], the strings not empty), whose
    [api_level] is at most the host's, whose [target_platform] the host
    version satisfies, and whose [load] is a function that completes, is
    in the loaded map. *)
Theorem manifest_gating app_db platform hostLevel discovered :
  ∃ this',
  loadAllModules (new_ModuleLoader app_db platform hostLevel) discovered = Some this'
  ∧ (∀ this id path e m a,
       require path = Some e → HeliactylModule e = Some m →
       api_level m = Some a → (apiLevel this < a)%Z →
       (loadModule this id path).1 = false
       ∧ moduleRegistry (loadModule this id path).2 = moduleRegistry this)
  ∧ (∀ id r, JsMap.get (moduleRegistry this') id = Some r
             ∨ JsMap.get (loadedModules this') id = Some r →
             ∃ a, api_level (manifest r) = Some a ∧ (a ≤ hostLevel)%Z)
  ∧ (∀ c e m f n v a t,
       NoDup (cand_id <$> discovered) → c ∈ discovered →
       require (cand_path c) = Some e → HeliactylModule e = Some m →
       name m = Some n → n ≠ "" →
       version m = Some v → v ≠ "" →
       api_level m = Some a → a ≠ 0%Z → (a ≤ hostLevel)%Z →
       target_platform m = Some t → t ≠ "" → semver_satisfies platform t = true →
       load e = Some f → (∀ h, ∃ h', f h = Completed h') →
       cand_id c ∈ JsMap.keys (loadedModules this')).
Proof.
  destruct (loadAllModules_spec app_db platform hostLevel discovered)
    as (st & this' & Hs & Hinv & Hkeys & Hload & Hreg & Hsound & _ & Hcalls & Hk & Hget & Hok).
  exists this'. split_and!; [done| | |].
  - intros this id path e m a. apply loadModule_api_level_too_high.
  - intros id r Hr.
    assert (JsMap.get (moduleRegistry
      (load_definitions (new_ModuleLoader app_db platform hostLevel) discovered))
      id = Some r) as Hr'.
    { destruct Hr as [Hr|Hr]; [by rewrite <- Hreg|by apply Hget]. }
    destruct (Hsound id r Hr') as (_ & _ & _ & (_ & _ & Ha & _ & Hex & _)).
    unfold api_level_exceeds in Hex.
    destruct (api_level (manifest r)) as [a|]; [|done].
    exists a. split; [done|]. apply Z.ltb_ge in Hex. lia.
  - intros c e m f n v a t Hnd Hc Hreq Hm Hn Hne Hv Hve Ha Hae Hle Ht Hte Hsat Hf Hall.
    apply Hk. eapply (Hok (cand_id c) (mkRecord (cand_id c) (cand_path c) e m) f);
      [|done|done].
    apply load_definitions_registers; try done.
    unfold manifest_accepted, api_level_exceeds, platform_satisfied. simpl.
    rewrite Hn, Hv, Ha, Ht. simpl. split_and!.
    + by destruct n.
    + by destruct v.
    + unfold truthy, Z_truthy. apply negb_true_iff. by apply Z.eqb_neq.
    + by destruct t.
    + apply Z.ltb_ge. lia.
    + done.
Qed.
End loader_claims.

(** ** The claims at concrete registries *)

Lemma closed_under_dependencies_sound {Host} (moduleMap : JsMap.t (ModuleRecord Host))
    (s : list string) a b :
  closed_under_dependencies moduleMap s = true →
  a ∈ s → depends_transitively moduleMap a b → b ∈ s.
Proof.
  intros Hclosed Ha Hab. induction Hab as [a|a c b Hac _ IH]; [done|].
  apply IH. destruct Hac as (dep & Hdep & <- & Hhas).
  unfold closed_under_dependencies in Hclosed.
  rewrite forallb_forall in Hclosed.
  apply list_elem_of_In, Hclosed in Ha. rewrite forallb_forall in Ha.
  apply list_elem_of_In, Ha in Hdep. rewrite Hhas in Hdep. simpl in Hdep.
  by apply bool_decide_eq_true in Hdep.
Qed.

Lemma not_precedes_swapped (x y : string) : x ≠ y → ¬ precedes [x; y] y x.
Proof.
  intros Hne (i & j & Hi & Hj & Hlt).
  destruct i as [|[|i]], j as [|[|j]]; simpl in *; simplify_eq; lia.
Qed.

(** C1, as stated, fails on a cycle: B requires A and A is registered, yet
    A is not before B in the resolved order. *)
Lemma required_dependency_precedes_counterexample :
  requires Examples.cyclic_registry "B" "A"
  ∧ sortModulesByDependency [] Examples.cyclic_registry
    = Some (["B"; "A"],
            [mkLogEntry LevelError "Circular dependency detected involving module A"])
  ∧ ¬ precedes ["B"; "A"] "A" "B".
Proof.
  split_and!.
  - exists (mkDependency "A" false). split_and!; [by left|done|done|done].
  - by vm_compute.
  - by apply not_precedes_swapped.
Qed.

Lemma required_dependency_precedes_witness :
  requires Examples.scenario_registry "core/billing" "core/auth"
  ∧ ¬ depends_transitively Examples.scenario_registry "core/auth" "core/billing"
  ∧ ∃ order l', sortModulesByDependency [] Examples.scenario_registry = Some (order, l')
                ∧ precedes order "core/auth" "core/billing".
Proof.
  assert (Hreq : requires Examples.scenario_registry "core/billing" "core/auth").
  { exists (mkDependency "core/auth" false). split_and!; [by left|done|done|done]. }
  assert (Hback : ¬ depends_transitively Examples.scenario_registry "core/auth" "core/billing").
  { intros Hr.
    pose proof (closed_under_dependencies_sound Examples.scenario_registry
      ["core/auth"] _ _ eq_refl (list_elem_of_here _ _) Hr) as Hin.
    apply list_elem_of_singleton in Hin. discriminate Hin. }
  split_and!; [done|done|].
  exact (required_dependency_precedes Examples.scenario_registry [] _ _ Hreq Hback).
Defined.

Lemma sortModulesByDependency_permutation_witness :
  JsMap.wf Examples.cyclic_registry
  ∧ ∃ order l', sortModulesByDependency [] Examples.cyclic_registry = Some (order, l')
                ∧ NoDup order ∧ order ≡ₚ JsMap.keys Examples.cyclic_registry.
Proof.
  assert (Hwf : JsMap.wf Examples.cyclic_registry).
  { unfold JsMap.wf. compute_done. }
  split; [done|].
  exact (sortModulesByDependency_permutation Examples.cyclic_registry [] Hwf).
Defined.

(** C9, as stated, fails: Y and Z have no dependency relationship, Y is
    before Z in the registry, and Z is before Y in the resolved order. *)
Lemma registry_order_kept_counterexample :
  JsMap.keys Examples.tie_registry = ["X"; "Y"; "Z"]
  ∧ ¬ depends_transitively Examples.tie_registry "Y" "Z"
  ∧ ¬ depends_transitively Examples.tie_registry "Z" "Y"
  ∧ sortModulesByDependency [] Examples.tie_registry = Some (["Z"; "X"; "Y"], [])
  ∧ precedes ["Z"; "X"; "Y"] "Z" "Y"
  ∧ ¬ precedes ["Z"; "X"; "Y"] "Y" "Z".
Proof.
  split_and!.
  - done.
  - intros Hr.
    pose proof (closed_under_dependencies_sound Examples.tie_registry
      ["Y"] _ _ eq_refl (list_elem_of_here _ _) Hr) as Hin.
    apply list_elem_of_singleton in Hin. discriminate Hin.
  - intros Hr.
    pose proof (closed_under_dependencies_sound Examples.tie_registry
      ["Z"] _ _ eq_refl (list_elem_of_here _ _) Hr) as Hin.
    apply list_elem_of_singleton in Hin. discriminate Hin.
  - by vm_compute.
  - exists 0, 2. split_and!; [done|done|lia].
  - intros (i & j & Hi & Hj & Hlt).
    destruct i as [|[|[|i]]], j as [|[|[|j]]]; simpl in *; simplify_eq; lia.
Qed.

Lemma registry_order_kept_witness :
  JsMap.keys Examples.tie_registry !! 0 = Some "X"
  ∧ JsMap.keys Examples.tie_registry !! 1 = Some "Y"
  ∧ 0 < 1
  ∧ (∀ i' k, i' ≤ 0 → JsMap.keys Examples.tie_registry !! i' = Some k →
             ¬ depends_transitively Examples.tie_registry k "Y")
  ∧ ∃ order l', sortModulesByDependency [] Examples.tie_registry = Some (order, l')
                ∧ precedes order "X" "Y".
Proof.
  assert (Hfree : ∀ i' k, i' ≤ 0 → JsMap.keys Examples.tie_registry !! i' = Some k →
    ¬ depends_transitively Examples.tie_registry k "Y").
  { intros i' k Hi' Hk Hr. assert (i' = 0) as -> by lia.
    injection Hk as <-.
    pose proof (closed_under_dependencies_sound Examples.tie_registry
      ["X"; "Z"] _ _ eq_refl (list_elem_of_here _ _) Hr) as Hin.
    apply elem_of_cons in Hin as [Hin|Hin]; [discriminate Hin|].
    apply list_elem_of_singleton in Hin. discriminate Hin. }
  split_and!; [done|done|lia|done|].
  exact (registry_order_kept Examples.tie_registry [] 0 1 "X" "Y"
    eq_refl eq_refl (le_n 1) Hfree).
Defined.

Lemma validateManifest_rejects_falsy_witness :
  (name (Examples.manifest_at_level 0) ∈ [None; Some ""]
   ∨ version (Examples.manifest_at_level 0) ∈ [None; Some ""]
   ∨ api_level (Examples.manifest_at_level 0) ∈ [None; Some 0%Z]
   ∨ target_platform (Examples.manifest_at_level 0) ∈ [None; Some ""])
  ∧ (validateManifest Examples.demo_loader (Some (Examples.manifest_at_level 0)) "zero").1
    = false.
Proof.
  assert (Hfalsy : name (Examples.manifest_at_level 0) ∈ [None; Some ""]
    ∨ version (Examples.manifest_at_level 0) ∈ [None; Some ""]
    ∨ api_level (Examples.manifest_at_level 0) ∈ [None; Some 0%Z]
    ∨ target_platform (Examples.manifest_at_level 0) ∈ [None; Some ""]).
  { right. right. left. simpl. right. left. }
  split; [done|].
  exact (proj1 (validateManifest_rejects_falsy Examples.demo_loader
    (Examples.manifest_at_level 0) "zero" Hfalsy)).
Defined.

(** C6, as stated, fails: the candidate [zero] declares [api_level] 0,
    which is at most the host's 4; its [target_platform] is satisfied, its
    other required fields are present and its [load] completes; it is not
    in the loaded map. *)
Lemma manifest_gating_counterexample :
  ∃ e m f this',
    @require Examples.demo_externals (cand_path Examples.zero_candidate) = Some e
    ∧ HeliactylModule e = Some m
    ∧ api_level m = Some 0%Z ∧ (0 ≤ 4)%Z
    ∧ name m = Some "Example" ∧ version m = Some "1.0.0"
    ∧ target_platform m = Some "10.0.0"
    ∧ @semver_satisfies Examples.demo_externals "10.0.0" "10.0.0" = true
    ∧ load e = Some f ∧ (∀ h, ∃ h', f h = Completed h')
    ∧ loadAllModules Examples.demo_loader [Examples.zero_candidate] = Some this'
    ∧ cand_id Examples.zero_candidate ∉ JsMap.keys (loadedModules this').
Proof.
  eexists _, _, _, _. split_and!; try by vm_compute.
  - intros h. by exists h.
  - vm_compute. intros Hin. by apply elem_of_nil in Hin.
Qed.

Lemma manifest_gating_witness :
  ∃ this',
    loadAllModules Examples.demo_loader
      [Examples.ok_candidate; Examples.zero_candidate; Examples.broken_candidate]
    = Some this'
    ∧ "ok" ∈ JsMap.keys (loadedModules this').
Proof.
  destruct (@manifest_gating Examples.demo_externals () "10.0.0" 4%Z
    [Examples.ok_candidate; Examples.zero_candidate; Examples.broken_candidate])
    as (this' & Hload & _ & _ & Hacc).
  exists this'. split; [exact Hload|].
  apply (Hacc Examples.ok_candidate
    (mkExports (Some (Examples.manifest_at_level 4)) (Some Examples.completes))
    (Examples.manifest_at_level 4) Examples.completes
    "Example" "1.0.0" 4%Z "10.0.0"); try done.
  - compute_done.
  - by left.
  - intros h. by exists h.
Defined.


(** The scenario of a failing entry point, evaluated: [broken] throws,
    [ok] after it is still initialized and loaded. *)
Example initialization_failures_isolated_example :
  ∃ this',
    loadAllModules Examples.demo_loader [Examples.broken_candidate; Examples.ok_candidate]
    = Some this'
    ∧ load_calls this' = [("broken", false); ("ok", true)]
    ∧ JsMap.keys (loadedModules this') = ["ok"]
    ∧ logger this' = [initialization_error_entry "broken"].
Proof. eexists. split_and!; by vm_compute. Qed.

(** ** The configuration handler *)

Section config_claims.
Context `{CExt : ConfigExternals}.

Lemma loadConfig_cached filePath s entry :
  JsMap.get (configStore s) (path_resolve (default "config.toml" filePath)) = Some entry →
  loadConfig filePath s = (Return (data entry), s).
Proof. intros Hget. unfold loadConfig. by rewrite Hget. Qed.

(** After a call that returned, the store maps the resolved path to the
    object returned. *)
Lemma loadConfig_stores filePath s configData s1 :
  loadConfig filePath s = (Return configData, s1) →
  ∃ w, JsMap.get (configStore s1) (path_resolve (default "config.toml" filePath))
     = Some (mkConfigEntry configData w).
Proof.
  unfold loadConfig. set (fullPath := path_resolve _).
  destruct (JsMap.get (configStore s) fullPath) as [[d w]|] eqn:Hget.
  { intros [= <- <-]. by exists w. }
  destruct (files s !! fullPath); [|done].
  destruct (toml_parse _) as [msg|table]; [done|].
  destruct (materialize_table _ _) as [obj h'].
  intros [= <- <-]. simpl. eexists. apply JsMap_get_set_eq.
Qed.

(** No step changes or removes an entry of the store. *)
Lemma step_keeps_entry s s' fullPath entry :
  step s s' →
  JsMap.get (configStore s) fullPath = Some entry →
  JsMap.get (configStore s') fullPath = Some entry.
Proof.
  intros Hstep Hget. destruct Hstep as [filePath s r s' Hload|w s r s' Hw Hch|s h fs].
  - unfold loadConfig in Hload. set (p := path_resolve _) in Hload.
    destruct (JsMap.get (configStore s) p) eqn:Hp.
    { by injection Hload as _ <-. }
    destruct (files s !! p).
    2:{ by injection Hload as _ <-. }
    destruct (toml_parse _) as [msg|table].
    { by injection Hload as _ <-. }
    destruct (materialize_table _ _) as [obj h'].
    injection Hload as _ <-. simpl.
    rewrite JsMap_get_set_ne; [done|]. intros ->. congruence.
  - unfold on_change in Hch.
    destruct (files s !! watched_path w).
    2:{ by injection Hch as _ <-. }
    destruct (toml_parse _) as [msg|table].
    { by injection Hch as _ <-. }
    destruct (materialize_table _ _) as [obj h'].
    destruct (updateObjectInPlace _ _ _ _); [|done].
    by injection Hch as _ <-.
  - done.
Qed.

Lemma steps_keep_entry s s' fullPath entry :
  steps s s' →
  JsMap.get (configStore s) fullPath = Some entry →
  JsMap.get (configStore s') fullPath = Some entry.
Proof.
  intros Hsteps. induction Hsteps as [|s1 s2 s3 Hstep _ IH]; [done|].
  intros Hget. apply IH. by eapply step_keeps_entry.
Qed.

(** C4: once [loadConfig] has returned an object for a path, every later
    call whose argument resolves to the same absolute path returns that
    same reference and leaves the process as it was: the file is not
    read or parsed again and no watcher is created. *)
Theorem loadConfig_returns_cached_object filePath filePath' s configData s1 s2 :
  loadConfig filePath s = (Return configData, s1) →
  steps s1 s2 →
  path_resolve (default "config.toml" filePath')
  = path_resolve (default "config.toml" filePath) →
  loadConfig filePath' s2 = (Return configData, s2).
Proof.
  intros Hload Hsteps Hsame.
  destruct (loadConfig_stores _ _ _ _ Hload) as [w Hget].
  apply (steps_keep_entry _ _ _ _ Hsteps) in Hget.
  rewrite <- Hsame in Hget. by rewrite (loadConfig_cached _ _ _ Hget).
Qed.

(** C5: when the read or the parse of a reload throws, the handler
    returns normally, one line is written to the console, and the heap
    (so the live object and everything it reaches), the store and the
    watchers are as before. *)
Theorem failed_reload_leaves_config_untouched w s :
  files s !! watched_path w = None
  ∨ (∃ content msg, files s !! watched_path w = Some content
                  ∧ toml_parse content = inl msg) →
  ∃ s' line,
  on_change w s = Ok (Return (), s')
  ∧ heap s' = heap s
  ∧ files s' = files s
  ∧ configStore s' = configStore s
  ∧ watchers s' = watchers s
  ∧ console s' = console s ++ [line].
Proof.
  intros [Hread|(content & msg & Hread & Hparse)]; unfold on_change.
  - rewrite Hread. by eexists _, _.
  - rewrite Hread, Hparse. by eexists _, _.
Qed.
End config_claims.

Lemma loadConfig_returns_cached_object_witness :
  let ext := ConfigExamples.demo_externals in
  @loadConfig ext (Some "config.toml") ConfigExamples.fresh
  = (Return 2%positive, ConfigExamples.loaded)
  ∧ @steps ext ConfigExamples.loaded ConfigExamples.reloaded
  ∧ heap ConfigExamples.reloaded !! 2%positive = Some [("a", VNumber 2)]
  ∧ @path_resolve ext (default "config.toml" None)
    = @path_resolve ext (default "config.toml" (Some "config.toml"))
  ∧ @loadConfig ext None ConfigExamples.reloaded
    = (Return 2%positive, ConfigExamples.reloaded).
Proof.
  intros ext.
  assert (Hload : @loadConfig ext (Some "config.toml") ConfigExamples.fresh
    = (Return 2%positive, ConfigExamples.loaded)) by (by vm_compute).
  assert (Hsteps : @steps ext ConfigExamples.loaded ConfigExamples.reloaded).
  { eapply rtc_l.
    { exact (@step_other ext ConfigExamples.loaded (heap ConfigExamples.loaded)
        (files ConfigExamples.edited)). }
    eapply rtc_l; [|apply rtc_refl].
    eapply (@step_change ext (mkWatcher "/app/config.toml" 2%positive)
      ConfigExamples.edited (Return ())).
    - vm_compute. by left.
    - by vm_compute. }
  split_and!; [exact Hload|exact Hsteps|by vm_compute|done|].
  exact (@loadConfig_returns_cached_object ext (Some "config.toml") None
    ConfigExamples.fresh 2%positive ConfigExamples.loaded ConfigExamples.reloaded
    Hload Hsteps eq_refl).
Defined.

Lemma failed_reload_leaves_config_untouched_witness :
  let ext := ConfigExamples.demo_externals in
  let w := mkWatcher "/app/config.toml" 1%positive in
  (files ConfigExamples.orphaned !! watched_path w = None
   ∨ (∃ content msg, files ConfigExamples.orphaned !! watched_path w = Some content
                     ∧ @toml_parse ext content = inl msg))
  ∧ ∃ s' line,
      @on_change ext w ConfigExamples.orphaned = Ok (Return (), s')
      ∧ heap s' = heap ConfigExamples.orphaned
      ∧ files s' = files ConfigExamples.orphaned
      ∧ configStore s' = configStore ConfigExamples.orphaned
      ∧ watchers s' = watchers ConfigExamples.orphaned
      ∧ console s' = console ConfigExamples.orphaned ++ [line].
Proof.
  intros ext w.
  assert (Hfail : files ConfigExamples.orphaned !! watched_path w = None
    ∨ (∃ content msg,
    files ConfigExamples.orphaned !! watched_path w = Some content
    ∧ @toml_parse ext content = inl msg)).
  { left. done. }
  split; [exact Hfail|].
  exact (@failed_reload_leaves_config_untouched ext w ConfigExamples.orphaned Hfail).
Defined.

(** *** Allocation *)

Lemma next_loc_fresh (h : Heap) : h !! next_loc h = None.
Proof.
  assert (Hmax : ∀ l o, h !! l = Some o →
            (l ≤ map_fold (λ l (_ : JsObject.t) m, Pos.max l m) 1 h)%positive).
  { apply (map_fold_weak_ind
             (λ r (m : Heap), ∀ l o, m !! l = Some o → (l ≤ r)%positive)).
    - intros l o Hl. by rewrite lookup_empty in Hl.
    - intros i x m r _ IH l o Hl. destruct (decide (i = l)) as [->|Hne].
      + lia.
      + rewrite lookup_insert_ne in Hl by done. specialize (IH l o Hl). lia. }
  unfold next_loc.
  destruct (h !! Pos.succ (map_fold (λ l (_ : JsObject.t) m, Pos.max l m) 1%positive h))
    as [o|] eqn:E; [|done].
  apply Hmax in E. lia.
Qed.

(** The top-level table is materialized as any other table. *)
Lemma materialize_table_eq fields (h : Heap) :
  materialize (TomlTable fields) h
  = (VObject (materialize_table fields h).1, (materialize_table fields h).2).
Proof.
  unfold materialize_table. cbn [materialize].
  assert (Hfix : ∀ (h0 : Heap),
            (fix properties (fields0 : list (string * Toml)) (h1 : Heap) :=
               match fields0 with
               | [] => ([], h1)
               | (k, x) :: fields' =>
                   let '(v, h2) := materialize x h1 in
                   let '(props, h3) := properties fields' h2 in
                   ((k, v) :: props, h3)
               end) fields h0 = materialize_fields fields h0).
  { induction fields as [|[k x] fields IH]; intros h0; [done|].
    cbn [materialize_fields]. destruct (materialize x h0) as [v h2]. by rewrite IH. }
  rewrite Hfix. by destruct (materialize_fields fields h) as [props h'].
Qed.

(** A first load creates an object no reference of the heap pointed to. *)
Lemma loadConfig_allocates `{CExt : ConfigExternals} filePath s configData s1 :
  JsMap.get (configStore s) (path_resolve (default "config.toml" filePath)) = None →
  loadConfig filePath s = (Return configData, s1) →
  is_Some (heap s1 !! configData).
Proof.
  intros Hnone. unfold loadConfig. rewrite Hnone.
  destruct (files s !! _); [|done]. destruct (toml_parse _) as [msg|table]; [done|].
  unfold materialize_table. destruct (materialize_fields table (heap s)) as [props h'].
  intros [= <- <-]. simpl. rewrite lookup_insert_eq. by eexists.
Qed.

(** ** The reload merge on trees *)

Lemma shape_ind' (P : shape → Prop) :
  (∀ v, P (SLeaf v)) →
  (∀ items, Forall P items → P (SArr items)) →
  (∀ l fields, Forall (λ p, P p.2) fields → P (SObj l fields)) →
  ∀ t, P t.
Proof.
  intros Hleaf Harr Hobj. fix IH 1. intros [v|items|l fields].
  - apply Hleaf.
  - apply Harr. induction items as [|t items IHitems]; constructor; [apply IH|done].
  - apply Hobj. induction fields as [|[k t] fields IHfields]; constructor; [apply IH|done].
Qed.

Lemma labels_SArr items : labels (SArr items) = flat_map labels items.
Proof. simpl. induction items as [|t items IH]; simpl; congruence. Qed.

Lemma labels_SObj l fields :
  labels (SObj l fields) = l :: flat_map (λ p, labels p.2) fields.
Proof.
  simpl. f_equal. induction fields as [|[k t] fields IH]; simpl; congruence.
Qed.

Lemma depth_SObj l fields :
  depth (SObj l fields) = S (foldr (λ p d, max (depth p.2) d) 0 fields).
Proof.
  simpl. f_equal. induction fields as [|[k t] fields IH]; simpl; congruence.
Qed.

Lemma plain_keys_SObj l fields :
  plain_keys (SObj l fields)
  ↔ Forall (λ p, JsObject.inherited p.1 = false ∧ plain_keys p.2) fields.
Proof.
  simpl. induction fields as [|[k t] fields IH]; simpl.
  - split; [constructor|done].
  - rewrite Forall_cons, <- IH. simpl. naive_solver.
Qed.

Section assoc_facts.
Context {V : Type}.
Implicit Types (m : list (string * V)) (k : string).



Lemma JsMap_get_filter_key (P : string → Prop) `{∀ k, Decision (P k)} m k :
  JsMap.get (filter (λ p, P p.1) m) k = if decide (P k) then JsMap.get m k else None.
Proof.
  induction m as [|[k' v'] m IH].
  - simpl. by destruct (decide (P k)).
  - destruct (decide (P k')) as [Hk'|Hk'].
    + rewrite filter_cons_True by done. cbn [JsMap.get].
      destruct (decide (k' = k)) as [->|]; [by destruct (decide (P k))|apply IH].
    + rewrite filter_cons_False by done. rewrite IH. cbn [JsMap.get].
      destruct (decide (k' = k)) as [->|]; [by destruct (decide (P k))|done].
Qed.

Lemma JsMap_set_id m k v : JsMap.get m k = Some v → JsMap.set m k v = m.
Proof.
  induction m as [|[k' v'] m IH]; simpl; [done|].
  case_decide; subst; [by intros [= ->]|]. intros Hget. by rewrite IH.
Qed.

Lemma JsMap_get_set m k k' v :
  JsMap.get (JsMap.set m k v) k' = if decide (k = k') then Some v else JsMap.get m k'.
Proof.
  case_decide; subst; [apply JsMap_get_set_eq|by apply JsMap_get_set_ne].
Qed.

Lemma JsMap_keys_filter_NoDup (P : string * V → Prop) `{∀ p, Decision (P p)} m :
  NoDup (JsMap.keys m) → NoDup (JsMap.keys (filter P m)).
Proof.
  unfold JsMap.keys. induction m as [|[k v] m IH]; [done|].
  rewrite fmap_cons. intros [Hk Hnd]%NoDup_cons.
  destruct (decide (P (k, v))).
  - rewrite filter_cons_True by done. rewrite fmap_cons. apply NoDup_cons.
    split; [|by apply IH]. intros Hin. apply Hk.
    apply list_elem_of_fmap in Hin as (q & -> & Hq).
    apply list_elem_of_filter in Hq as [_ Hq]. apply list_elem_of_fmap. by exists q.
  - rewrite filter_cons_False by done. by apply IH.
Qed.
End assoc_facts.

(** What [NoDup (labels (SObj l fields))] gives for the children. *)
Lemma labels_child l fields k t :
  JsMap.get fields k = Some t → labels t ⊆ labels (SObj l fields).
Proof.
  intros Hget%JsMap_get_Some_elem x Hx. rewrite labels_SObj. right.
  apply list_elem_of_In, in_flat_map. exists (k, t).
  split; [by apply list_elem_of_In|by apply list_elem_of_In].
Qed.

Lemma labels_item items i t :
  items !! i = Some t → labels t ⊆ labels (SArr items).
Proof.
  intros Hi x Hx. rewrite labels_SArr.
  apply list_elem_of_In, in_flat_map. exists t.
  split; apply list_elem_of_In; [by eapply list_elem_of_lookup_2|done].
Qed.

Lemma NoDup_flat_map_child fields k t :
  NoDup (flat_map (λ p : string * shape, labels p.2) fields) →
  JsMap.get fields k = Some t → NoDup (labels t).
Proof.
  induction fields as [|[k' t'] fields IH]; simpl; [done|].
  intros (Hnd1 & _ & Hnd2)%NoDup_app. case_decide; subst.
  - by intros [= ->].
  - by apply IH.
Qed.

Lemma NoDup_flat_map_disjoint fields k k' t t' :
  NoDup (flat_map (λ p : string * shape, labels p.2) fields) →
  JsMap.get fields k = Some t → JsMap.get fields k' = Some t' → k ≠ k' →
  ∀ x, x ∈ labels t → x ∉ labels t'.
Proof.
  induction fields as [|[k0 t0] fields IH]; simpl; [done|].
  intros (Hnd1 & Hdisj & Hnd2)%NoDup_app Ht Ht' Hne x Hx Hx'.
  assert (Hsub : ∀ k1 t1, JsMap.get fields k1 = Some t1 → ∀ y, y ∈ labels t1 →
    y ∈ flat_map (λ p : string * shape, labels p.2) fields).
  { intros k1 t1 Hg%JsMap_get_Some_elem y Hy. apply list_elem_of_In, in_flat_map.
    exists (k1, t1). split; by apply list_elem_of_In. }
  destruct (decide (k0 = k)) as [Hk|Hk]; destruct (decide (k0 = k')) as [Hk'|Hk'].
  - congruence.
  - injection Ht as ->. apply (Hdisj x Hx). by eapply Hsub.
  - injection Ht' as ->. apply (Hdisj x Hx'). by eapply Hsub.
  - by eapply (IH Hnd2 Ht Ht' Hne x).
Qed.

Lemma depth_child l fields k t :
  JsMap.get fields k = Some t → depth t < depth (SObj l fields).
Proof.
  rewrite depth_SObj. intros Hget%JsMap_get_Some_elem.
  induction fields as [|[k' t'] fields IH]; [by apply elem_of_nil in Hget|].
  simpl. apply elem_of_cons in Hget as [[= <- <-]|Hget]; [lia|].
  specialize (IH Hget). lia.
Qed.

Lemma plain_keys_child l fields k t :
  plain_keys (SObj l fields) → JsMap.get fields k = Some t →
  JsObject.inherited k = false ∧ plain_keys t.
Proof.
  rewrite plain_keys_SObj, Forall_forall. intros Hall Hget%JsMap_get_Some_elem.
  apply (Hall (k, t) Hget).
Qed.

(** Only the objects of the shape matter to [repr]. *)
Lemma repr_frame h h' v t :
  repr h v t → (∀ l, l ∈ labels t → h' !! l = h !! l) → repr h' v t.
Proof.
  intros Hrepr. induction Hrepr as [v Hv|vs items Hlen _ IH|l o fields Hl Hnd Hkeys _ IH];
    intros Hsame.
  - by constructor.
  - constructor; [done|]. intros i v t Hv Ht. apply (IH i v t Hv Ht).
    intros l Hin. apply Hsame. by eapply labels_item.
  - econstructor; [|done|done|].
    + rewrite Hsame; [done|]. rewrite labels_SObj. by left.
    + intros k v t Hv Ht. apply (IH k v t Hv Ht).
      intros l' Hin. apply Hsame. by eapply labels_child.
Qed.

(** A shape determines the value. *)
Lemma repr_inj t : ∀ h h' v v', repr h v t → repr h' v' t → v = v'.
Proof.
  induction t as [v0|items IH|l fields _] using shape_ind'; intros h h' v v' H1 H2.
  - inversion H1; inversion H2; congruence.
  - inversion H1 as [|vs1 ? Hlen1 Hall1|]; inversion H2 as [|vs2 ? Hlen2 Hall2|]; subst.
    f_equal. apply list_eq_same_length with (length items); [done|done|].
    intros i x y Hi Hx Hy.
    destruct (lookup_lt_is_Some_2 items i Hi) as [t Ht].
    rewrite Forall_forall in IH.
    eapply (IH t); [by eapply list_elem_of_lookup_2| |]; eauto.
  - inversion H1; inversion H2; congruence.
Qed.

Lemma repr_object_shape h v t :
  repr h v t → is_object_shape t = is_plain_object v.
Proof. intros [v' Hv| |]; [by destruct v'|done|done]. Qed.

(** *** The first loop *)

Lemma JsObject_get_delete (o : JsObject.t) k k' :
  JsMap.get (JsObject.delete o k') k = if decide (k = k') then None else JsMap.get o k.
Proof.
  unfold JsObject.delete. induction o as [|[k0 v0] o IH].
  - simpl. by destruct (decide (k = k')).
  - destruct (decide (k0 = k')) as [->|Hk0].
    + rewrite filter_cons_False by (simpl; intros Hc; by apply Hc).
      rewrite IH. cbn [JsMap.get].
      destruct (decide (k = k')) as [->|Hk]; [done|]. by rewrite decide_False.
    + rewrite filter_cons_True by done. cbn [JsMap.get].
      destruct (decide (k0 = k)) as [->|Hk]; [by rewrite decide_False|apply IH].
Qed.

Lemma JsObject_has_own_keys (o : JsObject.t) k :
  JsObject.has_own o k = true ↔ k ∈ JsObject.own_keys o.
Proof. apply JsMap_has_keys. Qed.

Lemma remove_stale_keys_spec tl sl (so : JsObject.t) ks : ∀ (h : Heap) (o : JsObject.t),
  tl ≠ sl → h !! tl = Some o → h !! sl = Some so →
  NoDup (JsObject.own_keys o) →
  (∀ k, k ∈ ks → JsObject.inherited k = false) →
  ∃ (h' : Heap) (o' : JsObject.t),
    remove_stale_keys tl sl ks h = Ok h'
    ∧ h' !! tl = Some o'
    ∧ NoDup (JsObject.own_keys o')
    ∧ (∀ l, l ≠ tl → h' !! l = h !! l)
    ∧ (∀ k, JsMap.get o' k
            = if decide (k ∈ ks ∧ k ∉ JsObject.own_keys so) then None
              else JsMap.get o k).
Proof.
  induction ks as [|key ks IH]; intros h o Hne Ht Hs Hnd Hplain.
  - exists h, o. split_and!; done.
  - cbn [remove_stale_keys]. unfold key_in. rewrite Hs.
    unfold JsObject.has_property. rewrite (Hplain key) by by left.
    rewrite orb_false_r.
    destruct (JsObject.has_own so key) eqn:Hown.
    + apply JsObject_has_own_keys in Hown.
      destruct (IH h o) as (h' & o' & Hr & Ht' & Hnd' & Hframe & Hget); try done.
      { intros k Hk. apply Hplain. by right. }
      exists h', o'. split_and!; try done.
      intros k. rewrite Hget.
      destruct (decide (k ∈ ks ∧ k ∉ JsObject.own_keys so)) as [[? ?]|Hn].
      * rewrite decide_True; [done|]. split; [by right|done].
      * rewrite decide_False; [done|]. intros [Hin Hnot]. apply Hn. split; [|done].
        apply elem_of_cons in Hin as [->|Hin]; [contradiction|done].
    + assert (key ∉ JsObject.own_keys so) as Hnot.
      { intros Hin. apply JsObject_has_own_keys in Hin. congruence. }
      unfold delete_property. rewrite Ht.
      destruct (IH (<[tl := JsObject.delete o key]> h) (JsObject.delete o key))
        as (h' & o' & Hr & Ht' & Hnd' & Hframe & Hget); try done.
      { apply lookup_insert_eq. }
      { by rewrite lookup_insert_ne. }
      { by apply JsMap_keys_filter_NoDup. }
      { intros k Hk. apply Hplain. by right. }
      exists h', o'. split_and!; try done.
      * intros l Hl. rewrite Hframe by done. by rewrite lookup_insert_ne.
      * intros k. rewrite Hget, JsObject_get_delete.
        destruct (decide (k = key)) as [->|Hk].
        -- rewrite (decide_True (P := key ∈ key :: ks ∧ _)); [|split; [by left|done]].
           by destruct (decide (key ∈ ks ∧ key ∉ JsObject.own_keys so)).
        -- destruct (decide (k ∈ ks ∧ k ∉ JsObject.own_keys so)) as [[? ?]|Hn].
           ++ rewrite decide_True; [done|]. split; [by right|done].
           ++ rewrite decide_False; [done|]. intros [Hin Hnot']. apply Hn. split; [|done].
              apply elem_of_cons in Hin as [->|Hin]; [contradiction|done].
Qed.

(** *** The second loop *)

Lemma inherited_proto k : JsObject.inherited k = false → k ≠ "__proto__".
Proof. intros Hk ->. by vm_compute in Hk. Qed.

Lemma JsMap_elem_get {V} (m : list (string * V)) k v :
  NoDup (JsMap.keys m) → (k, v) ∈ m → JsMap.get m k = Some v.
Proof.
  unfold JsMap.keys. induction m as [|[k' v'] m IH]; [by intros _ ?%elem_of_nil|].
  rewrite fmap_cons. intros [Hk Hnd]%NoDup_cons [[= <- <-]|Hin]%elem_of_cons; simpl.
  - by rewrite decide_True.
  - rewrite decide_False; [by apply IH|]. intros ->. apply Hk.
    apply list_elem_of_fmap. by exists (k, v).
Qed.

Section merge_loop.
Variables (n : nat) (recurse : Heap → loc → loc → Result Heap).
Hypothesis Hrec : merge_spec n recurse.
Variables (h1 : Heap) (tl sl : loc) (tfs sfs : list (string * shape)).
Variables (o1 so : JsObject.t).
Hypothesis Hsrc : h1 !! sl = Some so.
Hypothesis Hsrc_keys : ∀ k, is_Some (JsMap.get so k) ↔ is_Some (JsMap.get sfs k).
Hypothesis Hsrc_repr : ∀ k v s, JsMap.get so k = Some v → JsMap.get sfs k = Some s → repr h1 v s.
Hypothesis Htree : NoDup (labels (SObj tl tfs)).
Hypothesis Hdisj : ∀ l, l ∈ labels (SObj tl tfs) → l ∉ labels (SObj sl sfs).
Hypothesis Hplain_t : plain_keys (SObj tl tfs).
Hypothesis Hplain_s : plain_keys (SObj sl sfs).
Hypothesis Hdepth : depth (SObj sl sfs) ≤ S n.
Hypothesis Ho1_some : ∀ k v, JsMap.get o1 k = Some v →
  ∃ tc, JsMap.get tfs k = Some tc ∧ repr h1 v tc.
Hypothesis Ho1_none : ∀ k, is_Some (JsMap.get sfs k) → JsMap.get o1 k = None →
  JsMap.get tfs k = None.

Local Abbreviation inv := (merge_inv h1 tl tfs sfs o1).

Lemma tl_in_target : tl ∈ labels (SObj tl tfs).
Proof using Type. rewrite labels_SObj. by left. Qed.

Lemma tl_not_in_child k tc : JsMap.get tfs k = Some tc → tl ∉ labels tc.
Proof using Htree.
  intros Hget Hin. rewrite labels_SObj in Htree. apply NoDup_cons in Htree as [Hnot _].
  apply Hnot. apply list_elem_of_In, in_flat_map. exists (k, tc).
  split; apply list_elem_of_In; [by apply JsMap_get_Some_elem|done].
Qed.

Lemma tl_not_in_source_child k s : JsMap.get sfs k = Some s → tl ∉ labels s.
Proof using Hdisj.
  intros Hget Hin. apply (Hdisj tl tl_in_target). by eapply labels_child.
Qed.

Lemma source_child_off_target k s l :
  JsMap.get sfs k = Some s → l ∈ labels s → l ∉ labels (SObj tl tfs).
Proof using Hdisj.
  intros Hget Hin Hin'. apply (Hdisj l Hin'). by eapply labels_child.
Qed.

Lemma sl_off_target : sl ∉ labels (SObj tl tfs).
Proof using Hdisj.
  intros Hin. apply (Hdisj sl Hin). rewrite labels_SObj. by left.
Qed.

Lemma children_disjoint k k' tc tc' l :
  JsMap.get tfs k = Some tc → JsMap.get tfs k' = Some tc' → k ≠ k' →
  l ∈ labels tc → l ∉ labels tc'.
Proof using Htree.
  intros Hk Hk' Hne. rewrite labels_SObj in Htree. apply NoDup_cons in Htree as [_ Hnd].
  by eapply NoDup_flat_map_disjoint.
Qed.

(** The source is as it was, whatever the loop has done so far. *)
Lemma source_kept ks h o rfs k v s :
  inv ks h o rfs → JsMap.get so k = Some v → JsMap.get sfs k = Some s →
  h !! sl = Some so ∧ repr h v s.
Proof using Hsrc Hsrc_repr Hdisj.
  intros Hinv Hv Hs. split.
  - rewrite (mi_frame _ _ _ _ _ _ _ _ _ Hinv); [done|apply sl_off_target].
  - eapply repr_frame; [by eapply Hsrc_repr|].
    intros l Hl. apply (mi_frame _ _ _ _ _ _ _ _ _ Hinv). by eapply source_child_off_target.
Qed.

(** The fields already done are not disturbed by a write to [tl] or to
    the objects of another child of the live object. *)
Lemma done_field_kept ks h o rfs h' k k' r v :
  inv ks h o rfs → JsMap.get rfs k' = Some r → k' ≠ k → repr h v r →
  (∀ l, l ≠ tl → (∀ tc, JsMap.get tfs k = Some tc → l ∉ labels tc) → h' !! l = h !! l) →
  (∀ l, l ∈ labels r → (∃ tc, JsMap.get tfs k' = Some tc ∧ l ∈ labels tc)
             ∨ (∃ s, JsMap.get sfs k' = Some s ∧ l ∈ labels s)) →
  repr h' v r.
Proof using Htree Hdisj.
  intros Hinv Hr Hne Hrepr Hsame Hlab. eapply repr_frame; [done|].
  intros l Hl. apply Hsame.
  - destruct (Hlab l Hl) as [(tc & Htc & Hin)|(s & Hs & Hin)].
    + intros ->. by eapply tl_not_in_child.
    + intros ->. by eapply tl_not_in_source_child.
  - intros tc Htc Hin. destruct (Hlab l Hl) as [(tc' & Htc' & Hin')|(s & Hs & Hin')].
    + by eapply (children_disjoint k' k tc' tc l).
    + eapply source_child_off_target; [done|done|]. by eapply labels_child.
Qed.

(** The step [target[key] = value]. *)
Lemma step_assign ks h o rfs k v s :
  inv (k :: ks) h o rfs → k ∉ ks →
  JsMap.get so k = Some v → JsMap.get sfs k = Some s →
  ¬ both_objects tfs k s →
  ∃ h', assign_property h tl k v = Ok h'
  ∧ inv ks h' (JsMap.set o k v) (JsMap.set rfs k s).
Proof using Hsrc Hsrc_repr Htree Hdisj Hplain_s.
  intros Hinv Hk Hv Hs Hnot.
  destruct (plain_keys_child _ _ _ _ Hplain_s Hs) as [Hplain _].
  pose proof (inherited_proto _ Hplain) as Hproto.
  destruct (source_kept _ _ _ _ _ _ _ Hinv Hv Hs) as [_ Hrepr].
  destruct Hinv as [Ht Hnd Hrnd Hframe Htodo Hdone Hkeys Hfields Hall].
  unfold assign_property, JsObject.set. rewrite Ht.
  rewrite bool_decide_eq_false_2 by done. cbn [andb].
  eexists. split; [done|].
  assert (Hother : ∀ l, l ≠ tl → (<[tl := JsMap.set o k v]> h) !! l = h !! l).
  { intros l Hl. by rewrite lookup_insert_ne. }
  split.
  - apply lookup_insert_eq.
  - by apply JsMap_wf_set.
  - by apply JsMap_wf_set.
  - intros l Hl. rewrite Hother; [by apply Hframe|].
    intros ->. apply Hl, tl_in_target.
  - intros k' Hk'. destruct (Htodo k') as [Hget Hlab]; [by right|].
    assert (k ≠ k') by (intros ->; done).
    split; [by rewrite JsMap_get_set_ne|].
    intros tc l Htc Hl. rewrite Hother; [by eapply Hlab|].
    intros ->. by eapply tl_not_in_child.
  - intros k' Hk'. rewrite JsMap_get_set in Hk'. destruct (decide (k = k')) as [<-|Hne].
    + split; [done|by eexists].
    + destruct (Hdone k' Hk') as [Hnin ?]. split; [|done].
      intros Hin. apply Hnin. by right.
  - intros k'. rewrite !JsMap_get_set. destruct (decide (k = k')) as [<-|Hne].
    + split; [intros _; right|]; by eexists.
    + apply Hkeys.
  - intros k' r Hr. rewrite JsMap_get_set in Hr. destruct (decide (k = k')) as [<-|Hne].
    + injection Hr as <-. exists v, s. rewrite JsMap_get_set_eq.
      split_and!; try done.
      * eapply repr_frame; [done|]. intros l Hl. apply Hother.
        intros ->. by eapply tl_not_in_source_child.
      * intros l Hl. by right.
    + destruct (Hfields k' r Hr) as (v' & s' & Hv' & Hs' & Hrepr' & Hfm & Hlab).
      exists v', s'. rewrite JsMap_get_set_ne by done. split_and!; try done.
      eapply repr_frame; [done|]. intros l Hl. apply Hother.
      destruct (Hlab l Hl) as [(tc & Htc & Hin)|Hin].
      * intros ->. by eapply tl_not_in_child.
      * intros ->. by eapply tl_not_in_source_child.
  - intros k' Hk'. rewrite JsMap_get_set. destruct (decide (k = k')) as [<-|Hne].
    + right. by eexists.
    + destruct (Hall k' Hk') as [Hin|?]; [|by right].
      apply elem_of_cons in Hin as [->|Hin]; [done|by left].
Qed.

(** The step [updateObjectInPlace(target[key], value)]. *)
Lemma step_recurse ks h o rfs k tl' sl' s :
  inv (k :: ks) h o rfs → k ∉ ks →
  JsMap.get so k = Some (VObject sl') → JsMap.get sfs k = Some s →
  JsMap.get o1 k = Some (VObject tl') →
  ∃ h' r, recurse h tl' sl' = Ok h' ∧ inv ks h' o (JsMap.set rfs k r).
Proof using All.
  intros Hinv Hk Hv Hs Ho1.
  destruct (source_kept _ _ _ _ _ _ _ Hinv Hv Hs) as [_ Hrepr_s].
  destruct (Ho1_some k _ Ho1) as (tc & Htc & Hrepr_t1).
  pose proof Hinv as [Ht Hnd Hrnd Hframe Htodo Hdone Hkeys Hfields Hall].
  destruct (Htodo k) as [Hget Hlab]; [by left|].
  assert (Hrepr_t : repr h (VObject tl') tc).
  { eapply repr_frame; [done|]. intros l Hl. by eapply Hlab. }
  assert (Htc_obj : is_object_shape tc = true) by by rewrite (repr_object_shape _ _ _ Hrepr_t).
  assert (Hs_obj : is_object_shape s = true) by by rewrite (repr_object_shape _ _ _ Hrepr_s).
  destruct (Hrec h tl' sl' tc s) as (h' & r & Hcall & Hrepr_r & Hmerged & Hframe' & Hlabels);
    try done.
  { rewrite labels_SObj in Htree. apply NoDup_cons in Htree as [_ Hnd'].
    by eapply NoDup_flat_map_child. }
  { intros l Hl Hl'. eapply source_child_off_target; [done|done|]. by eapply labels_child. }
  { by destruct (plain_keys_child _ _ _ _ Hplain_t Htc). }
  { by destruct (plain_keys_child _ _ _ _ Hplain_s Hs). }
  { pose proof (depth_child sl sfs k s Hs). lia. }
  exists h', r. split; [done|].
  split.
  - rewrite Hframe'; [done|]. by eapply tl_not_in_child.
  - done.
  - by apply JsMap_wf_set.
  - intros l Hl. rewrite Hframe'; [by apply Hframe|].
    intros Hin. apply Hl. by eapply labels_child.
  - intros k' Hk'. destruct (Htodo k') as [Hget' Hlab']; [by right|].
    assert (k ≠ k') by (intros ->; done).
    split; [done|]. intros tc' l Htc' Hl. rewrite Hframe'; [by eapply Hlab'|].
    by eapply (children_disjoint k' k tc' tc l).
  - intros k' Hk'. rewrite JsMap_get_set in Hk'. destruct (decide (k = k')) as [<-|Hne].
    + split; [done|by eexists].
    + destruct (Hdone k' Hk') as [Hnin ?]. split; [|done].
      intros Hin. apply Hnin. by right.
  - intros k'. rewrite JsMap_get_set. destruct (decide (k = k')) as [<-|Hne].
    + rewrite Hget, Ho1. split; [intros _; right|]; by eexists.
    + apply Hkeys.
  - intros k' r' Hr'. rewrite JsMap_get_set in Hr'. destruct (decide (k = k')) as [<-|Hne].
    + injection Hr' as <-. exists (VObject tl'), s. rewrite Hget.
      split_and!; try done.
      * split; [intros _; by exists tc|].
        intros Hnot. exfalso. apply Hnot. split; [done|by exists tc].
      * intros l Hl. destruct (Hlabels l Hl) as [?|?]; [left; by exists tc|by right].
    + destruct (Hfields k' r' Hr') as (v' & s' & Hv' & Hs' & Hrepr' & Hfm & Hlab').
      exists v', s'. split_and!; try done.
      eapply repr_frame; [done|]. intros l Hl. apply Hframe'.
      destruct (Hlab' l Hl) as [(tc' & Htc' & Hin)|Hin].
      * by eapply (children_disjoint k' k tc' tc l).
      * intros Hin'. eapply source_child_off_target; [done|done|]. by eapply labels_child.
  - intros k' Hk'. rewrite JsMap_get_set. destruct (decide (k = k')) as [<-|Hne].
    + right. by eexists.
    + destruct (Hall k' Hk') as [Hin|?]; [|by right].
      apply elem_of_cons in Hin as [->|Hin]; [done|by left].
Qed.

Lemma not_both_objects_value k v s :
  JsMap.get sfs k = Some s → repr h1 v s → is_plain_object v = false →
  ¬ both_objects tfs k s.
Proof using Type.
  intros Hs Hrepr Hv [Hobj _]. rewrite (repr_object_shape _ _ _ Hrepr) in Hobj. congruence.
Qed.

Lemma not_both_objects_target k vt s :
  JsMap.get o1 k = Some vt → is_plain_object vt = false → ¬ both_objects tfs k s.
Proof using Ho1_some.
  intros Ho1 Hvt [_ (tc & Htc & Hobj)].
  destruct (Ho1_some k vt Ho1) as (tc' & Htc' & Hrepr).
  assert (tc' = tc) as -> by congruence.
  rewrite (repr_object_shape _ _ _ Hrepr) in Hobj. congruence.
Qed.

Lemma not_both_objects_absent k s :
  JsMap.get sfs k = Some s → JsMap.get o1 k = None → ¬ both_objects tfs k s.
Proof using Ho1_none.
  intros Hs Ho1 [_ (tc & Htc & _)].
  rewrite Ho1_none in Htc; [done|by eexists|done].
Qed.

(** The second loop, from the invariant to the invariant with nothing
    left to do. *)
Lemma update_keys_spec ks : ∀ h o rfs,
  NoDup ks → (∀ k, k ∈ ks → is_Some (JsMap.get sfs k)) →
  inv ks h o rfs →
  ∃ h' o' rfs', update_keys recurse tl sl ks h = Ok h' ∧ inv [] h' o' rfs'.
Proof using All.
  induction ks as [|k ks IH]; intros h o rfs Hnd Hks Hinv.
  { by exists h, o, rfs. }
  apply NoDup_cons in Hnd as [Hk Hnd].
  destruct (Hks k) as [s Hs]; [by left|].
  destruct (proj2 (Hsrc_keys k)) as [v Hv]; [by eexists|].
  destruct (source_kept _ _ _ _ _ _ _ Hinv Hv Hs) as [Hsl _].
  pose proof (Hsrc_repr k v s Hv Hs) as Hrepr1.
  destruct (plain_keys_child _ _ _ _ Hplain_s Hs) as [Hplain _].
  pose proof (inherited_proto _ Hplain) as Hproto.
  pose proof (mi_target _ _ _ _ _ _ _ _ _ Hinv) as Ht.
  destruct (mi_todo _ _ _ _ _ _ _ _ _ Hinv k) as [Hget _]; [by left|].
  assert (Hks' : ∀ k', k' ∈ ks → is_Some (JsMap.get sfs k')).
  { intros k' Hk'. apply Hks. by right. }
  assert (Hassign : ¬ both_objects tfs k s →
    ∃ h' o' rfs',
    match assign_property h tl k v with
    | Ok h' => update_keys recurse tl sl ks h'
    | Stopped st => Stopped st
    end = Ok h' ∧ inv [] h' o' rfs').
  { intros Hnot.
    destruct (step_assign ks h o rfs k v s Hinv Hk Hv Hs Hnot) as (h' & Ha & Hinv').
    rewrite Ha. by eapply IH. }
  cbn [update_keys]. unfold read_property at 1. rewrite Hsl.
  unfold JsObject.get at 1, JsObject.get_own. rewrite Hv.
  destruct v as [| | | | | |sl'];
    try (apply Hassign; by eapply not_both_objects_value).
  unfold read_property. rewrite Ht.
  unfold JsObject.get, JsObject.get_own. rewrite Hget.
  destruct (JsMap.get o1 k) as [vt|] eqn:Ho1.
  - destruct vt as [| | | | | |tl'];
      try (apply Hassign; by eapply not_both_objects_target).
    destruct (step_recurse ks h o rfs k tl' sl' s Hinv Hk Hv Hs Ho1) as (h' & r & Hcall & Hinv').
    rewrite Hcall. by eapply IH.
  - rewrite decide_False by done. rewrite Hplain.
    apply Hassign. by eapply not_both_objects_absent.
Qed.
End merge_loop.

(** *** The merge *)

Lemma updateObjectInPlace_step n :
  merge_spec n (updateObjectInPlace n) → merge_spec (S n) (updateObjectInPlace (S n)).
Proof.
  intros Hrec h tl sl tt ts Hrt Hrs Hnd Hdisj Hpt Hps Hdepth.
  inversion Hrt as [? Hp| |? to tfs Hto Hnd_to Hkeys_t Hch_t]; subst; [done|].
  inversion Hrs as [? Hp| |? so sfs Hso Hnd_so Hkeys_s Hch_s]; subst; [done|].
  assert (Htl : tl ∈ labels (SObj tl tfs)) by (rewrite labels_SObj; by left).
  assert (Hne : tl ≠ sl).
  { intros ->. apply (Hdisj sl Htl). rewrite labels_SObj. by left. }
  assert (Hchild_tl : ∀ k tc, JsMap.get tfs k = Some tc → tl ∉ labels tc).
  { intros k tc. by apply tl_not_in_child. }
  cbn [updateObjectInPlace]. unfold own_keys_of. rewrite Hto.
  destruct (remove_stale_keys_spec tl sl so (JsObject.own_keys to) h to)
    as (h1 & o1 & Hrem & Ht1 & Hnd1 & Hframe1 & Hget1); try done.
  { intros k Hk. apply JsMap_get_is_Some, Hkeys_t in Hk as [tc Htc].
    by destruct (plain_keys_child _ _ _ _ Hpt Htc). }
  rewrite Hrem. cbv beta iota. rewrite (Hframe1 sl), Hso by done. cbv beta iota.
  assert (Hsurvive : ∀ k, k ∈ JsObject.own_keys so → JsMap.get o1 k = JsMap.get to k).
  { intros k Hk. rewrite Hget1. rewrite decide_False; [done|]. by intros [_ ?]. }
  assert (Hgone : ∀ k, is_Some (JsMap.get o1 k) → k ∈ JsObject.own_keys so).
  { intros k [v Hv]. rewrite Hget1 in Hv.
    destruct (decide (k ∈ JsObject.own_keys so)) as [|Hn]; [done|].
    rewrite decide_True in Hv; [done|]. split; [|done].
    apply JsMap_get_is_Some. destruct (decide _); [done|by eexists]. }
  destruct (update_keys_spec n (updateObjectInPlace n) Hrec h1 tl sl tfs sfs o1 so)
    with (ks := JsObject.own_keys so) (h := h1) (o := o1) (rfs := @nil (string * shape))
    as (h' & o' & rfs' & Hloop & Hinv); try done.
  { by rewrite Hframe1. }
  { intros k v s Hv Hs. eapply repr_frame; [by eapply Hch_s|].
    intros l Hl. apply Hframe1. intros ->.
    apply (Hdisj tl Htl). by eapply labels_child. }
  { intros k v Hv.
    assert (k ∈ JsObject.own_keys so) as Hk by (apply Hgone; by eexists).
    rewrite (Hsurvive k Hk) in Hv.
    destruct (proj1 (Hkeys_t k)) as [tc Htc]; [by eexists|].
    exists tc. split; [done|]. eapply repr_frame; [by eapply Hch_t|].
    intros l Hl. apply Hframe1. intros ->. by eapply Hchild_tl. }
  { intros k Hk Hnone.
    assert (k ∈ JsObject.own_keys so) as Hk' by (by apply JsMap_get_is_Some, Hkeys_s).
    rewrite (Hsurvive k Hk') in Hnone.
    destruct (JsMap.get tfs k) eqn:E; [|done].
    destruct (proj2 (Hkeys_t k)) as [? ?]; [by eexists|congruence]. }
  { intros k Hk. by apply Hkeys_s, JsMap_get_is_Some. }
  { split; try done.
    - apply NoDup_nil_2.
    - intros k [? [=]].
    - intros k. split; [by left|]. by intros [?|[? [=]]].
    - intros k Hk. left. by apply JsMap_get_is_Some, Hkeys_s. }
  rewrite Hloop.
  destruct Hinv as [Ht' Hnd' Hrnd' Hframe' _ Hdone' Hkeys' Hfields' Hall'].
  assert (Hrkeys : ∀ k, is_Some (JsMap.get rfs' k) ↔ is_Some (JsMap.get sfs k)).
  { intros k. split; [intros Hk; by destruct (Hdone' k Hk)|].
    intros Hk. destruct (Hall' k Hk) as [Hin|?]; [by apply elem_of_nil in Hin|done]. }
  exists h', (SObj tl rfs'). split_and!.
  - done.
  - econstructor; [done|done| |].
    + intros k. rewrite Hkeys'. split; [|by right].
      intros [Ho1|?]; [|done]. by apply Hrkeys, Hkeys_s, JsMap_get_is_Some, Hgone.
    + intros k v r Hv Hr.
      destruct (Hfields' k r Hr) as (v' & s & Hv' & _ & Hrepr & _). congruence.
  - constructor; [done| |].
    + intros k tc s r Htc Hs Hr Htc_obj Hs_obj.
      destruct (Hfields' k r Hr) as (v' & s' & _ & Hs' & _ & [Hboth _] & _).
      assert (s' = s) as -> by congruence.
      destruct Hboth as (tc' & Htc' & Hm); [split; [done|by exists tc]|].
      congruence.
    + intros k s r Hs Hr Hnot.
      destruct (Hfields' k r Hr) as (v' & s' & _ & Hs' & _ & [_ Heq] & _).
      assert (s' = s) as -> by congruence. by apply Heq.
  - intros l Hl. rewrite Hframe' by done. apply Hframe1. by intros ->.
  - intros l Hl. rewrite labels_SObj in Hl. apply elem_of_cons in Hl as [->|Hl]; [by left|].
    apply list_elem_of_In, in_flat_map in Hl as ([k r] & Hin%list_elem_of_In & Hl%list_elem_of_In).
    simpl in Hl. apply JsMap_elem_get in Hin; [|done].
    destruct (Hfields' k r Hin) as (v' & s & _ & Hs & _ & _ & Hlab).
    destruct (Hlab l Hl) as [(tc & Htc & Hin')|Hin'].
    + left. by eapply labels_child.
    + right. by eapply labels_child.
Qed.

(** With fuel for the depth of the new tree, the merge of a live object
    that is a tree with a new tree it shares nothing with returns, writes
    only to objects of the live object, and leaves the live object as
    [merged] describes. *)
Lemma updateObjectInPlace_merge n : merge_spec n (updateObjectInPlace n).
Proof.
  induction n as [|n IH]; [|by apply updateObjectInPlace_step].
  intros h tl sl tt ts _ Hrs _ _ _ _ Hdepth.
  inversion Hrs as [? Hp| |]; subst; [done|]. rewrite depth_SObj in Hdepth. lia.
Qed.

(** *** Structural equality and idempotence *)

Lemma same_structure_refl t : same_structure t t.
Proof.
  induction t as [v|items IH|l fields IH] using shape_ind'.
  - constructor.
  - constructor; [done|]. intros i t t' Ht Ht'.
    assert (t' = t) as -> by congruence.
    rewrite Forall_forall in IH. apply IH. by eapply list_elem_of_lookup_2.
  - constructor; [done|]. intros k t t' Ht Ht'.
    assert (t' = t) as -> by congruence.
    rewrite Forall_forall in IH. by apply (IH (k, t)), JsMap_get_Some_elem.
Qed.

Lemma both_objects_dec tfields k s : both_objects tfields k s ∨ ¬ both_objects tfields k s.
Proof.
  unfold both_objects. destruct (is_object_shape s); [|right; by intros [? _]].
  destruct (JsMap.get tfields k) as [tc|]; [|right; by intros [_ (? & ? & _)]].
  destruct (is_object_shape tc) eqn:E.
  - left. split; [done|by exists tc].
  - right. intros [_ (tc' & [= <-] & ?)]. congruence.
Qed.

(** What [merged] describes is structurally equal to the new tree. *)
Lemma merged_same_structure ts : ∀ tt tr, merged tt ts tr → same_structure tr ts.
Proof.
  induction ts as [v|items _|sl sfs IH] using shape_ind'; intros tt tr Hm;
    inversion Hm as [tl tfs ? ? rfs Hkeys Hboth Hother]; subst.
  constructor; [done|]. intros k r s Hr Hs.
  destruct (both_objects_dec tfs k s) as [[Hs_obj (tc & Htc & Htc_obj)]|Hnot].
  - rewrite Forall_forall in IH.
    eapply (IH (k, s)); [by apply JsMap_get_Some_elem|]. by eapply Hboth.
  - rewrite (Hother k s r Hs Hr Hnot). apply same_structure_refl.
Qed.

Lemma merged_self s : is_object_shape s = true → merged s s s.
Proof.
  induction s as [v|items _|l fields IH] using shape_ind'; intros Hobj; try done.
  constructor; [done| |].
  - intros k tc s r Htc Hs Hr _ Hs_obj.
    assert (tc = s) as -> by congruence. assert (r = s) as -> by congruence.
    rewrite Forall_forall in IH. apply (IH (k, s)); [by apply JsMap_get_Some_elem|done].
  - intros k s r Hs Hr _. congruence.
Qed.

Lemma remove_stale_keys_nothing tl sl (so : JsObject.t) (h : Heap) ks :
  h !! sl = Some so → (∀ k, k ∈ ks → is_Some (JsMap.get so k)) →
  remove_stale_keys tl sl ks h = Ok h.
Proof.
  intros Hs. induction ks as [|k ks IH]; intros Hks; [done|].
  cbn [remove_stale_keys]. unfold key_in. rewrite Hs.
  unfold JsObject.has_property, JsObject.has_own, JsMap.has.
  destruct (Hks k) as [v ->]; [by left|]. cbn [orb].
  apply IH. intros k' Hk'. apply Hks. by right.
Qed.

(** Merging again with the same new tree changes nothing. *)
Lemma updateObjectInPlace_again n : ∀ (h : Heap) tl sl tt ts tr,
  merged tt ts tr → repr h (VObject tl) tr → repr h (VObject sl) ts →
  depth ts ≤ n → updateObjectInPlace n h tl sl = Ok h.
Proof.
  induction n as [|n IH]; intros h tl sl tt ts tr Hm Hrt Hrs Hdepth.
  { inversion Hrs as [? Hp| |]; subst; [done|]. rewrite depth_SObj in Hdepth. lia. }
  inversion Hm as [? tfs ? sfs rfs Hkeys Hboth Hother]; subst.
  inversion Hrt as [| |? ot ? Hot Hnd_t Hkeys_t Hch_t]; subst.
  inversion Hrs as [| |? os ? Hos Hnd_s Hkeys_s Hch_s]; subst.
  match goal with
    | |- updateObjectInPlace _ _ ?a ?b = _ => try rename a into tl; try rename b into sl
    end.
  cbn [updateObjectInPlace]. unfold own_keys_of. rewrite Hot.
  rewrite (remove_stale_keys_nothing tl sl os h); [|done|].
  2:{ intros k Hk. by apply Hkeys_s, Hkeys, Hkeys_t, JsMap_get_is_Some. }
  rewrite Hos.
  assert (Hloop : ∀ ks, (∀ k, k ∈ ks → is_Some (JsMap.get os k)) →
    update_keys (updateObjectInPlace n) tl sl ks h = Ok h).
  { induction ks as [|k ks IHks]; intros Hks; [done|].
    destruct (Hks k) as [vs Hvs]; [by left|].
    destruct (proj1 (Hkeys_s k)) as [s Hs]; [by eexists|].
    destruct (proj2 (Hkeys k)) as [r Hr]; [by eexists|].
    destruct (proj2 (Hkeys_t k)) as [vt Hvt]; [by eexists|].
    pose proof (Hch_s k vs s Hvs Hs) as Hrepr_s.
    pose proof (Hch_t k vt r Hvt Hr) as Hrepr_t.
    assert (Hrest : update_keys (updateObjectInPlace n) tl sl ks h = Ok h).
    { apply IHks. intros k' Hk'. apply Hks. by right. }
    assert (Hsame : ¬ both_objects tfs k s →
      match assign_property h tl k vs with
      | Ok h' => update_keys (updateObjectInPlace n) tl sl ks h'
      | Stopped st => Stopped st
      end = Ok h).
    { intros Hnot. assert (r = s) as -> by by eapply Hother.
      assert (vt = vs) as -> by by eapply repr_inj.
      unfold assign_property, JsObject.set, JsObject.has_own, JsMap.has.
      rewrite Hot, Hvt. rewrite andb_false_r.
      rewrite (JsMap_set_id _ _ _ Hvt), insert_id by done. done. }
    assert (Hdepth_s : depth s ≤ n).
    { pose proof (depth_child sl sfs k s Hs). lia. }
    cbn [update_keys]. unfold read_property at 1. rewrite Hos.
    unfold JsObject.get at 1, JsObject.get_own. rewrite Hvs.
    destruct (both_objects_dec tfs k s) as [[Hs_obj (tc & Htc & Htc_obj)]|Hnot].
    - pose proof (Hboth k tc s r Htc Hs Hr Htc_obj Hs_obj) as Hm'.
      inversion Hm' as [tl' tfs' sl' sfs' rfs' ? ? ?]; subst.
      inversion Hrepr_s; subst. inversion Hrepr_t; subst.
      unfold read_property. rewrite Hot. unfold JsObject.get, JsObject.get_own. rewrite Hvt.
      rewrite (IH _ _ _ _ _ _ Hm' Hrepr_t Hrepr_s Hdepth_s). done.
    - destruct vs as [| | | | | |sl']; try by apply Hsame.
      assert (r = s) as -> by by eapply Hother.
      assert (vt = VObject sl') as -> by by eapply repr_inj.
      unfold read_property. rewrite Hot. unfold JsObject.get, JsObject.get_own. rewrite Hvt.
      assert (Hs_obj : is_object_shape s = true)
        by by rewrite (repr_object_shape _ _ _ Hrepr_s).
      rewrite (IH h sl' sl' s s s (merged_self s Hs_obj) Hrepr_s Hrepr_s Hdepth_s). done. }
  apply Hloop. intros k Hk. by apply JsMap_get_is_Some.
Qed.



(** ** The reload merge at concrete heaps *)

(** C3 (the code departs from it): the live object [{constructor: 1, a: 1}]
    merged with the new tree [{a: 1}].  The key [constructor] is not an own
    key of the new tree, yet ['constructor' in source] holds through
    [Object.prototype], so the key is not deleted: the merge changes
    nothing and the live object keeps a key the new tree does not have. *)
Theorem updateObjectInPlace_keeps_inherited_name :
  JsObject.own_keys ConfigExamples.stale_source = ["a"]
  ∧ JsObject.has_own ConfigExamples.stale_source "constructor" = false
  ∧ JsObject.has_property ConfigExamples.stale_source "constructor" = true
  ∧ updateObjectInPlace 2 ConfigExamples.stale_heap 1%positive 2%positive = Ok ConfigExamples.stale_heap
  ∧ JsObject.own_keys <$> (ConfigExamples.stale_heap !! 1%positive)
    = Some ["constructor"; "a"].
Proof. split_and!; by vm_compute. Qed.

(** P7 and P8 of the specification, evaluated. *)
Example updateObjectInPlace_p7 :
  ∃ h', updateObjectInPlace 3 ConfigExamples.p7_heap 1%positive 3%positive = Ok h'
        ∧ h' !! 1%positive = Some [("a", VNumber 1); ("b", VObject 2%positive)]
        ∧ h' !! 2%positive = Some [("c", VNumber 3)]
        ∧ updateObjectInPlace 3 h' 1%positive 3%positive = Ok h'.
Proof. eexists. split_and!; by vm_compute. Qed.

Example updateObjectInPlace_p8 :
  let h : Heap := <[1%positive := [("a", VNumber 1); ("b", VNumber 2)]]>
                    (<[2%positive := [("a", VNumber 1)]]> ∅) in
  ∃ h', updateObjectInPlace 2 h 1%positive 2%positive = Ok h'
        ∧ h' !! 1%positive = Some [("a", VNumber 1)].
Proof. eexists. split_and!; by vm_compute. Qed.

(** ** Diagnostics of the resolver *)

Section resolver_diagnostics.
Context {Host : Type} (moduleMap : JsMap.t (ModuleRecord Host)).

Local Abbreviation edge := (depends_on moduleMap).

Lemma log_inv_more st ext ext' :
  log_inv moduleMap st ext → Forall (justified moduleMap) ext' →
  log_inv moduleMap
    (mkSortState (visited st) (visiting st) (sorted st) (sort_logger st ++ ext'))
    (ext ++ ext').
Proof.
  intros [Hv Hs Hj Ho Hm] Hj'. split; simpl; try done.
  - by apply Forall_app.
  - intros a b Ha Hab. destruct (Ho a b Ha Hab) as [?|?]; [by left|right].
    apply elem_of_app. by left.
  - intros a dep Ha Hd. apply elem_of_app. left. by apply Hm.
Qed.

(** The loop over the dependencies of [id], for a recursive call that
    keeps the invariant. *)
Lemma for_each_dependency_log (visit_rec : SortState → string → option SortState)
  (id : string) (stack : list string) :
  (∀ x, x ∈ stack ++ [id] → x = id ∨ tc edge x id) →
  (∀ st d st' ext,
     visit_rec st d = Some st' → log_inv moduleMap st ext →
     visiting st = stack ++ [id] →
     (∀ x, x ∈ visiting st → tc edge x d) →
     ∃ ext', sort_logger st' = sort_logger st ++ ext'
           ∧ log_inv moduleMap st' (ext ++ ext')
           ∧ visiting st' = visiting st
           ∧ (∃ s', sorted st' = sorted st ++ s')
           ∧ (d ∈ sorted st' ∨ circular_dependency_entry d ∈ ext ++ ext')) →
  ∀ deps st st' ext,
  (∀ dep, dep ∈ deps → dep ∈ declared_dependencies moduleMap id) →
  for_each_dependency visit_rec moduleMap id deps st = Some st' →
  log_inv moduleMap st ext → visiting st = stack ++ [id] →
  ∃ ext', sort_logger st' = sort_logger st ++ ext'
        ∧ log_inv moduleMap st' (ext ++ ext')
        ∧ visiting st' = stack ++ [id]
        ∧ (∃ s', sorted st' = sorted st ++ s')
        ∧ (∀ dep, dep ∈ deps → JsMap.has moduleMap (dep_name dep) = true →
                  dep_name dep ∈ sorted st'
                  ∨ circular_dependency_entry (dep_name dep) ∈ ext ++ ext')
        ∧ (∀ dep, dep ∈ deps → JsMap.has moduleMap (dep_name dep) = false →
                  missing_dependency_entry id dep ∈ ext ++ ext').
Proof.
  intros Hstack Hrec deps.
  induction deps as [|dep deps IH]; intros st st' ext Hdeps Hrun Hinv Hvis.
  - simpl in Hrun. simplify_eq. exists []. rewrite !app_nil_r.
    split_and!; [done|done|done|exists []; by rewrite app_nil_r| |];
      intros ? Hd; by apply elem_of_nil in Hd.
  - cbn [for_each_dependency] in Hrun.
    assert (Hdep : dep ∈ declared_dependencies moduleMap id) by (apply Hdeps; set_solver).
    destruct (JsMap.has moduleMap (dep_name dep)) eqn:Ehas; cbn [negb] in Hrun.
    + destruct (visit_rec st (dep_name dep)) as [st1|] eqn:Evisit; [|done].
      destruct (Hrec _ _ _ _ Evisit Hinv Hvis) as (ext1 & Hl1 & Hinv1 & Hvis1 & [s1 Hs1] & Hdone1).
      { intros x Hx. rewrite Hvis in Hx.
        assert (edge id (dep_name dep)) as He by (by exists dep).
        destruct (Hstack x Hx) as [->|Hx']; [by apply tc_once|].
        eapply tc_r; eauto. }
      destruct (IH st1 st' (ext ++ ext1)) as (ext2 & Hl2 & Hinv2 & Hvis2 & [s2 Hs2] & Hd2 & Hm2);
        [set_solver|done|done|congruence|].
      exists (ext1 ++ ext2). rewrite !app_assoc. split_and!; try done.
      * by rewrite Hl2, Hl1.
      * exists (s1 ++ s2). by rewrite Hs2, Hs1, <- app_assoc.
      * intros d [->|Hd]%elem_of_cons Hh; [|by apply Hd2].
        destruct Hdone1 as [Hin|Hin].
        -- left. rewrite Hs2. apply elem_of_app. by left.
        -- right. apply elem_of_app. by left.
      * intros d [->|Hd]%elem_of_cons Hh; [congruence|by apply Hm2].
    + set (e := missing_dependency_entry id dep).
      assert (Hlog : log_missing_dependency id dep st
                = mkSortState (visited st) (visiting st) (sorted st) (sort_logger st ++ [e])).
      { unfold log_missing_dependency, e, missing_dependency_entry, logger_warn, logger_error.
        by destruct (dep_optional dep). }
      rewrite Hlog in Hrun.
      assert (Hje : Forall (justified moduleMap) [e]).
      { apply Forall_singleton. left. exists id, dep. by split. }
      pose proof (log_inv_more st ext [e] Hinv Hje) as Hinv1.
      destruct (IH _ st' (ext ++ [e]) ltac:(set_solver) Hrun Hinv1 Hvis)
        as (ext2 & Hl2 & Hinv2 & Hvis2 & [s2 Hs2] & Hd2 & Hm2).
      simpl in *.
      exists ([e] ++ ext2). rewrite !app_assoc. split_and!; try done.
      * by exists s2.
      * intros d [->|Hd]%elem_of_cons Hh; [congruence|by apply Hd2].
      * intros d [->|Hd]%elem_of_cons Hh; [|by apply Hm2].
        apply elem_of_app. left. apply elem_of_app. right. by apply list_elem_of_singleton.
Qed.

Lemma visit_log fuel : ∀ st id st' ext,
  visit fuel moduleMap st id = Some st' →
  log_inv moduleMap st ext →
  (∀ x, x ∈ visiting st → tc edge x id) →
  ∃ ext', sort_logger st' = sort_logger st ++ ext'
        ∧ log_inv moduleMap st' (ext ++ ext')
        ∧ visiting st' = visiting st
        ∧ (∃ s', sorted st' = sorted st ++ s')
        ∧ (id ∈ sorted st' ∨ circular_dependency_entry id ∈ ext ++ ext').
Proof.
  induction fuel as [|fuel IH]; intros st id st' ext Hrun Hinv Hstack; [done|].
  cbn [visit] in Hrun.
  destruct (JsSet.has (visited st) id) eqn:Ev.
  { simplify_eq. exists []. rewrite !app_nil_r.
    split_and!; [done|done|done|exists []; by rewrite app_nil_r|].
    left. apply JsSet_has_true in Ev. by rewrite <- (li_visited _ _ _ Hinv). }
  destruct (JsSet.has (visiting st) id) eqn:Eg.
  { simplify_eq. set (e := circular_dependency_entry id).
    exists [e]. split_and!; [done| |done|exists []; by rewrite app_nil_r|].
    - apply (log_inv_more st ext [e] Hinv), Forall_singleton.
      right. exists id. split; [|done]. apply Hstack. by apply JsSet_has_true.
    - right. apply elem_of_app. right. by apply list_elem_of_singleton. }
  apply JsSet_has_false in Ev, Eg.
  rewrite (JsSet_add_fresh _ _ Eg) in Hrun.
  set (st1 := mkSortState (visited st) (visiting st ++ [id]) (sorted st) (sort_logger st))
    in Hrun.
  destruct (for_each_dependency (visit fuel moduleMap) moduleMap id
              (declared_dependencies moduleMap id) st1) as [st2|] eqn:Eloop; [|done].
  simplify_eq.
  assert (Hinv1 : log_inv moduleMap st1 ext).
  { destruct Hinv as [Hv Hs Hj Ho Hm]. split; simpl; try done.
    intros x [Hx| ->%list_elem_of_singleton]%elem_of_app; [by apply Hs|by rewrite <- Hv]. }
  destruct (for_each_dependency_log (visit fuel moduleMap) id (visiting st))
    with (deps := declared_dependencies moduleMap id) (st := st1) (st' := st2) (ext := ext)
    as (ext' & Hl & Hinv2 & Hvis2 & [s' Hs'] & Hd & Hm); try done.
  { intros x [Hx| ->%list_elem_of_singleton]%elem_of_app; [right; by apply Hstack|by left]. }
  { intros st0 d st0' ext0 Hrun0 Hinv0 _ Hst0. by apply IH. }
  destruct Hinv2 as [Hv2 Hs2 Hj2 Ho2 Hm2].
  assert (Hfresh : id ∉ sorted st2).
  { apply Hs2. rewrite Hvis2. apply elem_of_app. right. by apply list_elem_of_singleton. }
  exists ext'. split_and!; simpl.
  - done.
  - split; simpl.
    + rewrite Hv2. by apply JsSet_add_fresh.
    + rewrite Hvis2, (JsSet_delete_last _ _ Eg).
      intros x Hx [Hin| ->%list_elem_of_singleton]%elem_of_app; [|done].
      apply (Hs2 x); [|done]. rewrite Hvis2. apply elem_of_app. by left.
    + done.
    + intros a b [Ha| ->%list_elem_of_singleton]%elem_of_app Hab.
      * destruct (Ho2 a b Ha Hab) as [Hb|Hb]; [left|by right].
        by apply before_app_r.
      * destruct Hab as (dep & Hdep & <- & Hhas).
        destruct (Hd dep Hdep Hhas) as [Hb|Hb]; [left|by right].
        by apply before_snoc.
    + intros a dep [Ha| ->%list_elem_of_singleton]%elem_of_app Hmiss; [by apply Hm2|].
      destruct Hmiss as [Hdep Hhas]. by apply Hm.
  - by rewrite Hvis2, (JsSet_delete_last _ _ Eg).
  - exists (s' ++ [id]). by rewrite Hs', <- app_assoc.
  - left. apply elem_of_app. right. by apply list_elem_of_singleton.
Qed.

Lemma visit_all_log fuel ids : ∀ st st' ext,
  visit_all fuel moduleMap ids st = Some st' →
  log_inv moduleMap st ext → visiting st = [] →
  ∃ ext', sort_logger st' = sort_logger st ++ ext'
        ∧ log_inv moduleMap st' (ext ++ ext').
Proof.
  induction ids as [|id ids IH]; intros st st' ext Hrun Hinv Hvis.
  - simpl in Hrun. simplify_eq. exists []. by rewrite !app_nil_r.
  - cbn [visit_all] in Hrun.
    destruct (visit fuel moduleMap st id) as [st1|] eqn:Evisit; [|done].
    destruct (visit_log _ _ _ _ _ Evisit Hinv) as (ext1 & Hl1 & Hinv1 & Hvis1 & _).
    { intros x Hx. rewrite Hvis in Hx. by apply elem_of_nil in Hx. }
    destruct (IH _ _ _ Hrun Hinv1) as (ext2 & Hl2 & Hinv2); [congruence|].
    exists (ext1 ++ ext2). rewrite !app_assoc. split; [by rewrite Hl2, Hl1|done].
Qed.

(** What the diagnostics of a run say about the registry. *)
Lemma sortModulesByDependency_log l :
  ∃ order ext,
    sortModulesByDependency l moduleMap = Some (order, l ++ ext)
    ∧ NoDup order
    ∧ (∀ x, x ∈ order ↔ x ∈ JsMap.keys moduleMap)
    ∧ Forall (justified moduleMap) ext
    ∧ (∀ a b, depends_on moduleMap a b →
              before order b a ∨ circular_dependency_entry b ∈ ext)
    ∧ (∀ a dep, missing_dependency moduleMap a dep →
                missing_dependency_entry a dep ∈ ext).
Proof.
  destruct (sortModulesByDependency_spec moduleMap l) as (st & Hsort & Hinv & Hkeys & _).
  pose proof Hsort as Hrun. unfold sortModulesByDependency in Hrun.
  destruct (visit_all _ _ _ _) as [st'|] eqn:Eall; [|done].
  destruct (visit_all_log _ _ _ _ [] Eall) as (ext & Hl & [_ _ Hj Ho Hm]); [|done|].
  { split; simpl; [done| |done| |]; intros ? ? Hx; by apply elem_of_nil in Hx. }
  simpl in Hl, Hj, Ho, Hm. simplify_eq.
  assert (Hs : sorted st' = sorted st) by congruence.
  assert (Hlg : sort_logger st = l ++ ext) by congruence.
  rewrite Hs in Ho, Hm.
  exists (sorted st), ext. split_and!; try done.
  - by rewrite Hsort, Hlg.
  - apply (inv_nodup _ _ Hinv).
  - intros a b Hab. apply Ho; [|done].
    apply Hkeys. by apply (depends_on_registered moduleMap a b).
  - intros a dep Hmiss. apply Hm; [|done]. apply Hkeys.
    destruct Hmiss as [Hdep _]. unfold declared_dependencies in Hdep.
    destruct (JsMap.get moduleMap a) eqn:E; [|by apply elem_of_nil in Hdep].
    apply JsMap_get_is_Some. by eexists.
Qed.

Lemma precedes_trans (l : list string) a b c :
  NoDup l → precedes l a b → precedes l b c → precedes l a c.
Proof.
  intros Hnd (i & j & Hi & Hj & Hij) (j' & k & Hj' & Hk & Hjk).
  assert (j = j') as <- by (eapply NoDup_lookup; eauto).
  exists i, k. split_and!; [done|done|lia].
Qed.

Lemma precedes_irrefl (l : list string) a : NoDup l → ¬ precedes l a a.
Proof.
  intros Hnd (i & j & Hi & Hj & Hij).
  assert (i = j) by (eapply NoDup_lookup; eauto). lia.
Qed.

(** Along a chain of dependencies either the order is respected or the
    guard has reported a module. *)
Lemma chain_ordered_or_reported (order : list string) (ext : list LogEntry) :
  NoDup order →
  (∀ a b, edge a b → before order b a ∨ circular_dependency_entry b ∈ ext) →
  ∀ a b, tc edge a b →
  precedes order b a ∨ ∃ y, circular_dependency_entry y ∈ ext.
Proof.
  intros Hnd Hedge a b Hab. induction Hab as [a b Hab|a b c Hab Hbc IH].
  - destruct (Hedge a b Hab) as [Hb|Hb]; [left|right; by exists b].
    by apply before_precedes.
  - destruct IH as [IH|IH]; [|by right].
    destruct (Hedge a b Hab) as [Hb|Hb]; [left|right; by exists b].
    eapply precedes_trans; [done|done|]. by apply before_precedes.
Qed.

(** X2: the cycle guard reports exactly the cycles: the module named by a
    circular-dependency diagnostic is on a cycle of declared dependencies,
    and a registry with a cycle gets at least one such diagnostic. *)
Theorem circular_dependency_reported l :
  ∃ order ext,
    sortModulesByDependency l moduleMap = Some (order, l ++ ext)
    ∧ (∀ y, circular_dependency_entry y ∈ ext → on_cycle moduleMap y)
    ∧ ((∃ x, on_cycle moduleMap x) → ∃ y, circular_dependency_entry y ∈ ext).
Proof.
  destruct (sortModulesByDependency_log l) as (order & ext & Hsort & Hnd & _ & Hj & Ho & _).
  exists order, ext. split_and!; [done| |].
  - intros y Hy. rewrite Forall_forall in Hj.
    destruct (Hj _ Hy) as [(a & dep & _ & Heq)|(x & Hx & Heq)].
    + unfold missing_dependency_entry, circular_dependency_entry in Heq.
      destruct (dep_optional dep); simplify_eq/=.
    + unfold circular_dependency_entry in Heq. by simplify_eq/=.
  - intros [x Hx].
    destruct (chain_ordered_or_reported order ext Hnd Ho x x Hx) as [Hp|Hy]; [|done].
    by apply precedes_irrefl in Hp.
Qed.

(** X3: the resolver logs nothing exactly when every declared dependency
    is registered and no module is on a cycle. *)
Theorem sortModulesByDependency_quiet l :
  ∃ order ext,
    sortModulesByDependency l moduleMap = Some (order, l ++ ext)
    ∧ (ext = [] ↔ (∀ a dep, ¬ missing_dependency moduleMap a dep)
                  ∧ (∀ x, ¬ on_cycle moduleMap x)).
Proof.
  destruct (sortModulesByDependency_log l) as (order & ext & Hsort & Hnd & _ & Hj & Ho & Hm).
  exists order, ext. split; [done|]. split.
  - intros ->. split.
    + intros a dep Hmiss. specialize (Hm a dep Hmiss). by apply elem_of_nil in Hm.
    + intros x Hx.
      destruct (chain_ordered_or_reported order [] Hnd Ho x x Hx) as [Hp|[y Hy]].
      * by apply precedes_irrefl in Hp.
      * by apply elem_of_nil in Hy.
  - intros [Hnomiss Hnocycle]. destruct ext as [|e ext]; [done|].
    apply Forall_cons in Hj as [[(a & dep & Hmiss & _)|(x & Hx & _)] _].
    + by destruct (Hnomiss a dep).
    + by destruct (Hnocycle x).
Qed.
End resolver_diagnostics.

(** ** A registry that is already in dependency order *)

Section resolver_order.
Context {Host : Type} (moduleMap : JsMap.t (ModuleRecord Host)).

Lemma visit_S fuel st id :
  visit (S fuel) moduleMap st id
  = if JsSet.has (visited st) id then Some st
    else if JsSet.has (visiting st) id then
      Some (mkSortState (visited st) (visiting st) (sorted st)
              (logger_error (sort_logger st)
                 ("Circular dependency detected involving module " +:+ id)))
    else
      match for_each_dependency (visit fuel moduleMap) moduleMap id
              (declared_dependencies moduleMap id)
              (mkSortState (visited st) (JsSet.add (visiting st) id)
                 (sorted st) (sort_logger st)) with
      | Some st2 =>
          Some (mkSortState (JsSet.add (visited st2) id)
                  (JsSet.delete (visiting st2) id)
                  (sorted st2 ++ [id])
                  (sort_logger st2))
      | None => None
      end.
Proof. done. Qed.

(** The loop over dependencies that are all resolved or missing only
    writes diagnostics. *)
Lemma for_each_dependency_resolved fuel id deps : ∀ st,
  (∀ dep, dep ∈ deps → JsMap.has moduleMap (dep_name dep) = true →
          dep_name dep ∈ visited st) →
  ∃ l', for_each_dependency (visit (S fuel) moduleMap) moduleMap id deps st
        = Some (mkSortState (visited st) (visiting st) (sorted st) l').
Proof.
  induction deps as [|dep deps IH]; intros st Hready.
  - exists (sort_logger st). by destruct st.
  - cbn [for_each_dependency].
    destruct (JsMap.has moduleMap (dep_name dep)) eqn:Ehas; cbn [negb].
    + assert (Hv : JsSet.has (visited st) (dep_name dep) = true).
      { apply JsSet_has_true, Hready; [set_solver|done]. }
      rewrite visit_S, Hv. apply IH. intros d Hd. apply Hready. set_solver.
    + destruct (IH (log_missing_dependency id dep st)) as [l' Hl'].
      { intros d Hd. apply Hready. set_solver. }
      by exists l'.
Qed.

Lemma visit_resolved fuel st id :
  id ∉ visited st → id ∉ visiting st →
  (∀ dep, dep ∈ declared_dependencies moduleMap id →
          JsMap.has moduleMap (dep_name dep) = true → dep_name dep ∈ visited st) →
  ∃ l', visit (S (S fuel)) moduleMap st id
        = Some (mkSortState (visited st ++ [id]) (visiting st) (sorted st ++ [id]) l').
Proof.
  intros Hv Hg Hready. rewrite visit_S.
  rewrite (proj2 (JsSet_has_false _ _) Hv), (proj2 (JsSet_has_false _ _) Hg).
  rewrite (JsSet_add_fresh _ _ Hg).
  destruct (for_each_dependency_resolved fuel id (declared_dependencies moduleMap id)
              (mkSortState (visited st) (visiting st ++ [id]) (sorted st) (sort_logger st)))
    as [l' Hl']; [done|].
  rewrite Hl'. simpl. exists l'.
  by rewrite (JsSet_add_fresh _ _ Hv), (JsSet_delete_last _ _ Hg).
Qed.

Lemma visit_all_ordered fuel ids : ∀ done l,
  JsMap.keys moduleMap = done ++ ids → NoDup (JsMap.keys moduleMap) →
  dependency_ordered moduleMap →
  ∃ l', visit_all (S (S fuel)) moduleMap ids (mkSortState done [] done l)
        = Some (mkSortState (JsMap.keys moduleMap) [] (JsMap.keys moduleMap) l').
Proof.
  induction ids as [|id ids IH]; intros done l Hkeys Hnd Hord.
  - exists l. rewrite app_nil_r in Hkeys. by rewrite Hkeys.
  - cbn [visit_all].
    assert (Hfresh : id ∉ done).
    { rewrite Hkeys in Hnd. apply NoDup_app in Hnd as (_ & Hd & _).
      intros Hin. apply (Hd id Hin). set_solver. }
    destruct (visit_resolved fuel (mkSortState done [] done l) id) as [l1 Hl1];
      [done|by intros ?%elem_of_nil| |].
    { intros dep Hdep Hhas. simpl.
      destruct (Hord (length done) id dep) as (j & Hj & Hlook); [|done|done|].
      - rewrite Hkeys. by rewrite list_lookup_middle.
      - rewrite Hkeys, lookup_app_l in Hlook by done.
        by apply list_elem_of_lookup_2 in Hlook. }
    rewrite Hl1. simpl. apply IH; [|done|done].
    by rewrite Hkeys, <- app_assoc.
Qed.

(** X4: when the keys of the registry are already in dependency order
    (every declared dependency that is registered names an earlier key),
    the resolver returns the keys unchanged. *)
Theorem sort_keeps_dependency_order l :
  JsMap.wf moduleMap → dependency_ordered moduleMap →
  ∃ l', sortModulesByDependency l moduleMap = Some (JsMap.keys moduleMap, l').
Proof.
  intros Hwf Hord. unfold sortModulesByDependency.
  destruct moduleMap as [|entry rest] eqn:E; [by exists l|].
  rewrite <- E in *.
  replace (length moduleMap) with (S (length rest)) by (by rewrite E).
  destruct (visit_all_ordered (length rest) (JsMap.keys moduleMap) [] l) as [l' Hl'];
    [done|done|done|].
  unfold JsSet.empty. rewrite Hl'. by exists l'.
Qed.
End resolver_order.

(** ** The lifecycle, end to end *)

Section lifecycle_more.
Context `{Ext : Externals}.
Implicit Types (this : ModuleLoader) (m : Manifest).






Lemma validateManifest_log this manifest moduleId :
  let r := validateManifest this manifest moduleId in
  (r.1 = true ∧ r.2 = this) ∨ (r.1 = false ∧ ∃ msg, r.2 = log_error this msg).
Proof.
  unfold validateManifest. destruct manifest as [m|]; [|right; by eauto].
  destruct (List.find _ requiredFields); [right; by eauto|].
  destruct (api_level_exceeds m (apiLevel this)); [right; by eauto|].
  destruct (negb (platform_satisfied (platformVersion this) m)); [right; by eauto|].
  by left.
Qed.

(** X7: [loadModule] touches neither the host, the loaded map nor the
    record of calls; it changes the registry only when it returns
    [true], and then logs nothing; when it returns [false] it logs
    exactly one error, unless the only defect of the module is a missing
    [load] function, which is rejected without any diagnostic. *)
Theorem loadModule_diagnostics this moduleId modulePath :
  let r := loadModule this moduleId modulePath in
  host r.2 = host this
  ∧ loadedModules r.2 = loadedModules this
  ∧ load_calls r.2 = load_calls this
  ∧ ((r.1 = true ∧ logger r.2 = logger this)
     ∨ (r.1 = false ∧ moduleRegistry r.2 = moduleRegistry this
        ∧ ((∃ msg, logger r.2 = logger_error (logger this) msg)
           ∨ (logger r.2 = logger this
              ∧ ∃ e m, require modulePath = Some e
                       ∧ HeliactylModule e = Some m
                       ∧ manifest_accepted (platformVersion this) (apiLevel this) m
                       ∧ load e = None)))).
Proof.
  intros r. unfold r, loadModule.
  destruct (require modulePath) as [e|] eqn:Ereq.
  2:{ simpl. split_and!; try done. right. split_and!; try done. left. by eexists. }
  destruct (HeliactylModule e) as [m|] eqn:Em.
  2:{ simpl. split_and!; try done. right. split_and!; try done. left. by eexists. }
  pose proof (validateManifest_true this m moduleId) as Hacc.
  pose proof (validateManifest_log this (Some m) moduleId) as Hlog.
  destruct (validateManifest this (Some m) moduleId) as [valid this1].
  simpl in Hacc, Hlog.
  destruct Hlog as [[-> ->]|[-> [msg ->]]]; cbn [negb].
  - destruct (load e) as [f|] eqn:El; simpl.
    + split_and!; try done. by left.
    + split_and!; try done. right. split_and!; try done. right. split; [done|].
      exists e, m. split_and!; try done. by apply Hacc.
  - simpl. split_and!; try done. right. split_and!; try done. left. by eexists.
Qed.
End lifecycle_more.

(** ** The directory scan *)

Lemma Dirent_ind' (P : Dirent → Prop) :
  (∀ name, P (DirentFile name)) →
  (∀ name, P (DirentDirectory name None)) →
  (∀ name entries, Forall P entries → P (DirentDirectory name (Some entries))) →
  (∀ name, P (DirentOther name)) →
  ∀ entry, P entry.
Proof.
  intros Hfile Hnone Hdir Hother.
  fix IH 1. intros [name|name [entries|]|name]; [done| |done|done].
  apply Hdir. induction entries as [|entry entries IHentries]; constructor; [apply IH|done].
Qed.

Section discover_facts.
Context `{PExt : PathExternals}.

Lemma scan_entry_directory baseDir dir name listing acc :
  scan_entry baseDir dir (DirentDirectory name listing) acc
  = scanDirectory baseDir (path_join dir name) listing acc.
Proof.
  destruct listing as [entries|]; [|done]. simpl.
  revert acc. induction entries as [|entry entries IH]; intros acc; [done|].
  simpl. by rewrite IH.
Qed.

Lemma module_files_of_directory dir name listing :
  module_files_of dir (DirentDirectory name listing)
  = module_files (path_join dir name) listing.
Proof.
  destruct listing as [entries|]; [|done]. simpl.
  induction entries as [|entry entries IH]; [done|]. simpl. by rewrite IH.
Qed.

Lemma unreadable_of_directory dir name listing :
  unreadable_of dir (DirentDirectory name listing)
  = unreadable (path_join dir name) listing.
Proof.
  destruct listing as [entries|]; [|done]. simpl.
  induction entries as [|entry entries IH]; [done|]. simpl. by rewrite IH.
Qed.

Lemma scan_entry_spec baseDir entry : ∀ dir acc,
  scan_entry baseDir dir entry acc
  = (acc.1 ++ (candidate_of baseDir <$> module_files_of dir entry),
     acc.2 ++ (scan_error_entry <$> unreadable_of dir entry)).
Proof.
  induction entry as [name|name|name entries IH|name] using Dirent_ind'; intros dir acc.
  - simpl. destruct (endsWith name ".js"); simpl; rewrite ?app_nil_r; by destruct acc.
  - simpl. by rewrite app_nil_r.
  - rewrite scan_entry_directory, module_files_of_directory, unreadable_of_directory.
    simpl. generalize (path_join dir name). intros dir'. revert acc.
    induction IH as [|entry entries Hentry _ IHentries]; intros acc.
    + simpl. rewrite !app_nil_r. by destruct acc.
    + simpl. rewrite IHentries, Hentry. simpl.
      by rewrite !fmap_app, !app_assoc.
  - simpl. rewrite !app_nil_r. by destruct acc.
Qed.

Lemma scanDirectory_spec baseDir dir listing acc :
  scanDirectory baseDir dir listing acc
  = (acc.1 ++ (candidate_of baseDir <$> module_files dir listing),
     acc.2 ++ (scan_error_entry <$> unreadable dir listing)).
Proof.
  destruct listing as [entries|]; simpl; [|by rewrite app_nil_r].
  revert acc. induction entries as [|entry entries IH]; intros acc.
  - simpl. rewrite !app_nil_r. by destruct acc.
  - simpl. rewrite IH, scan_entry_spec. simpl. by rewrite !fmap_app, !app_assoc.
Qed.

(** X8: the scan returns one candidate for each [.js] file of a readable
    directory, in the order of the listings, and logs one error for each
    directory that cannot be read; neither disturbs the other. *)
Theorem discoverModules_scan modulesDir root l :
  discoverModules modulesDir root l
  = (candidate_of modulesDir <$> module_files modulesDir root,
     l ++ (scan_error_entry <$> unreadable modulesDir root)).
Proof. unfold discoverModules. by rewrite scanDirectory_spec. Qed.
End discover_facts.

Section loader_scan_facts.
Context `{Ext : Externals} `{PExt : PathExternals}.
Implicit Types (this : ModuleLoader).


End loader_scan_facts.

(** ** Objects made from a parsed tree *)

Lemma Toml_ind' (P : Toml → Prop) :
  (∀ s, P (TomlString s)) →
  (∀ z, P (TomlInteger z)) →
  (∀ b, P (TomlBool b)) →
  (∀ xs, Forall P xs → P (TomlArray xs)) →
  (∀ fields, Forall (λ p, P p.2) fields → P (TomlTable fields)) →
  ∀ t, P t.
Proof.
  intros Hs Hz Hb Harr Htab. fix IH 1. intros [s|z|b|xs|fields]; [done..| |].
  - apply Harr. induction xs as [|x xs IHxs]; constructor; [apply IH|done].
  - apply Htab. induction fields as [|[k x] fields IHfields]; constructor; [apply IH|done].
Qed.

Lemma toml_shape_array xs : toml_shape (TomlArray xs) = SArr (toml_shape <$> xs).
Proof. reflexivity. Qed.

Lemma toml_shape_table fields :
  toml_shape (TomlTable fields) = SObj 1%positive (prod_map id toml_shape <$> fields).
Proof. simpl. f_equal. induction fields as [|[k x] fields IH]; [done|]. by rewrite IH. Qed.

Lemma erase_SArr items : erase (SArr items) = SArr (erase <$> items).
Proof. reflexivity. Qed.

Lemma erase_SObj l fields :
  erase (SObj l fields) = SObj 1%positive (prod_map id erase <$> fields).
Proof. simpl. f_equal. induction fields as [|[k t] fields IH]; [done|]. by rewrite IH. Qed.

Lemma distinct_keys_array xs : distinct_keys (TomlArray xs) ↔ Forall distinct_keys xs.
Proof.
  simpl. induction xs as [|x xs IH]; [by split; [constructor|]|].
  rewrite Forall_cons. naive_solver.
Qed.

Lemma distinct_keys_table fields :
  distinct_keys (TomlTable fields)
  ↔ NoDup fields.*1 ∧ Forall (λ p, distinct_keys p.2) fields.
Proof.
  simpl. apply and_iff_compat_l.
  induction fields as [|[k x] fields IH]; [by split; [constructor|]|].
  rewrite Forall_cons. simpl. naive_solver.
Qed.

Lemma materialize_array xs (h : Heap) :
  materialize (TomlArray xs) h
  = (VArray (materialize_items xs h).1, (materialize_items xs h).2).
Proof.
  cbn [materialize].
  assert (Hfix : ∀ (h0 : Heap),
            (fix elements (xs0 : list Toml) (h1 : Heap) :=
               match xs0 with
               | [] => ([], h1)
               | x :: xs' =>
                   let '(v, h2) := materialize x h1 in
                   let '(vs, h3) := elements xs' h2 in
                   (v :: vs, h3)
               end) xs h0 = materialize_items xs h0).
  { induction xs as [|x xs IH]; intros h0; [done|].
    cbn [materialize_items]. destruct (materialize x h0) as [v h2]. by rewrite IH. }
  rewrite Hfix. by destruct (materialize_items xs h) as [vs h'].
Qed.

Lemma materialize_table_fields fields (h : Heap) :
  materialize_table fields h
  = (next_loc (materialize_fields fields h).2,
     <[next_loc (materialize_fields fields h).2
       := object_of (materialize_fields fields h).1]> (materialize_fields fields h).2).
Proof. unfold materialize_table. by destruct (materialize_fields fields h). Qed.

(** With pairwise distinct keys, the object has the properties in the
    order given. *)
Lemma object_of_distinct (props : list (string * value)) :
  NoDup props.*1 → object_of props = props.
Proof.
  unfold object_of.
  assert (Hgen : ∀ (acc : list (string * value)),
            NoDup (acc.*1 ++ props.*1) →
            foldl (λ o p, JsMap.set o p.1 p.2) acc props = acc ++ props).
  { induction props as [|[k v] props IH]; intros acc Hnd; [by rewrite app_nil_r|].
    assert (Hk : k ∉ acc.*1).
    { rewrite fmap_cons in Hnd. apply NoDup_app in Hnd as (_ & Hd & _).
      intros Hin. apply (Hd k Hin). simpl. set_solver. }
    assert (Hset : JsMap.set acc k v = acc ++ [(k, v)]).
    { clear -Hk. induction acc as [|[k' v'] acc IHacc]; [done|].
      simpl. rewrite decide_False by set_solver. f_equal. apply IHacc. set_solver. }
    simpl. rewrite Hset, IH; [by rewrite <- app_assoc|].
    rewrite fmap_app, <- app_assoc. done. }
  intros Hnd. by rewrite (Hgen []).
Qed.

(** Lookups in two association lists with the same keys, position by
    position, hit the same position. *)
Lemma JsMap_get_Forall2 {A B} (R : A → B → Prop)
    (m1 : list (string * A)) (m2 : list (string * B)) k a b :
  Forall2 (λ p1 p2, p1.1 = p2.1 ∧ R p1.2 p2.2) m1 m2 →
  JsMap.get m1 k = Some a → JsMap.get m2 k = Some b → R a b.
Proof.
  induction 1 as [|[k1 a1] [k2 b1] m1 m2 [Hk HR] _ IH]; [done|].
  simpl in *. subst. case_decide; [|done]. by intros [= ->] [= ->].
Qed.

Lemma Forall2_keys {A B} (R : A → B → Prop)
    (m1 : list (string * A)) (m2 : list (string * B)) :
  Forall2 (λ p1 p2, p1.1 = p2.1 ∧ R p1.2 p2.2) m1 m2 → m1.*1 = m2.*1.
Proof.
  induction 1 as [|[k1 a] [k2 b] m1 m2 [Hk _] _ IH]; [done|].
  rewrite !fmap_cons. simpl in *. by f_equal.
Qed.

Lemma materialize_fields_spec fields :
  Forall (λ p, ∀ (h : Heap) v h', distinct_keys p.2 → materialize p.2 h = (v, h') →
               ∃ s, materialized p.2 h h' v s) fields →
  Forall (λ p, distinct_keys p.2) fields →
  ∀ (h : Heap) props h', materialize_fields fields h = (props, h') →
  ∃ sfields,
    Forall2 (λ p sf, p.1 = sf.1 ∧ repr h' p.2 sf.2) props sfields
    ∧ Forall2 (λ sf f, sf.1 = f.1 ∧ erase sf.2 = toml_shape f.2) sfields fields
    ∧ NoDup (flat_map (λ sf, labels sf.2) sfields)
    ∧ (∀ l, l ∈ flat_map (λ sf, labels sf.2) sfields →
            h !! l = None ∧ is_Some (h' !! l))
    ∧ (∀ l, is_Some (h !! l) → h' !! l = h !! l).
Proof.
  intros IH Hd. induction fields as [|[k x] fields IHf]; intros h props h' Hrun.
  - simpl in Hrun. simplify_eq. exists [].
    split_and!; [constructor..| |done]. intros l Hl. by apply elem_of_nil in Hl.
  - cbn [materialize_fields] in Hrun.
    destruct (materialize x h) as [v h1] eqn:Ex.
    destruct (materialize_fields fields h1) as [props' h2] eqn:Ef. simplify_eq.
    apply Forall_cons in IH as [IHx IH]. apply Forall_cons in Hd as [Hdx Hd].
    simpl in IHx, Hdx.
    destruct (IHx h v h1 Hdx Ex) as (s & Hrepr & Herase & Hnd & Hfresh & Hframe).
    destruct (IHf IH Hd h1 props' h' Ef)
      as (sfields & Hprops & Hshape & Hnd' & Hfresh' & Hframe').
    exists ((k, s) :: sfields). split_and!.
    + constructor; [|done]. split; [done|]. simpl.
      eapply repr_frame; [done|]. intros l Hl. apply Hframe'. by apply Hfresh.
    + by constructor.
    + simpl. apply NoDup_app. split_and!; [done| |done].
      intros l Hl Hl'. destruct (Hfresh l Hl) as [_ [o Ho]].
      destruct (Hfresh' l Hl') as [Hn _]. congruence.
    + simpl. intros l [Hl|Hl]%elem_of_app.
      * destruct (Hfresh l Hl) as [Hn Hs]. split; [done|]. by rewrite Hframe'.
      * destruct (Hfresh' l Hl) as [Hn Hs]. split; [|done].
        destruct (h !! l) as [o|] eqn:E; [|done].
        assert (h1 !! l = h !! l) as Heq by (apply Hframe; rewrite E; by eexists).
        congruence.
    + intros l Hl. rewrite Hframe'; [by apply Hframe|]. by rewrite Hframe.
Qed.

Lemma materialize_items_spec xs :
  Forall (λ x, ∀ (h : Heap) v h', distinct_keys x → materialize x h = (v, h') →
               ∃ s, materialized x h h' v s) xs →
  Forall distinct_keys xs →
  ∀ (h : Heap) vs h', materialize_items xs h = (vs, h') →
  ∃ items,
    Forall2 (repr h') vs items
    ∧ Forall2 (λ s x, erase s = toml_shape x) items xs
    ∧ NoDup (flat_map labels items)
    ∧ (∀ l, l ∈ flat_map labels items → h !! l = None ∧ is_Some (h' !! l))
    ∧ (∀ l, is_Some (h !! l) → h' !! l = h !! l).
Proof.
  intros IH Hd. induction xs as [|x xs IHxs]; intros h vs h' Hrun.
  - simpl in Hrun. simplify_eq. exists [].
    split_and!; [constructor..| |done]. intros l Hl. by apply elem_of_nil in Hl.
  - cbn [materialize_items] in Hrun.
    destruct (materialize x h) as [v h1] eqn:Ex.
    destruct (materialize_items xs h1) as [vs' h2] eqn:Ef. simplify_eq.
    apply Forall_cons in IH as [IHx IH]. apply Forall_cons in Hd as [Hdx Hd].
    destruct (IHx h v h1 Hdx Ex) as (s & Hrepr & Herase & Hnd & Hfresh & Hframe).
    destruct (IHxs IH Hd h1 vs' h' Ef)
      as (items & Hvs & Hshape & Hnd' & Hfresh' & Hframe').
    exists (s :: items). split_and!.
    + constructor; [|done].
      eapply repr_frame; [done|]. intros l Hl. apply Hframe'. by apply Hfresh.
    + by constructor.
    + simpl. apply NoDup_app. split_and!; [done| |done].
      intros l Hl Hl'. destruct (Hfresh l Hl) as [_ [o Ho]].
      destruct (Hfresh' l Hl') as [Hn _]. congruence.
    + simpl. intros l [Hl|Hl]%elem_of_app.
      * destruct (Hfresh l Hl) as [Hn Hs]. split; [done|]. by rewrite Hframe'.
      * destruct (Hfresh' l Hl) as [Hn Hs]. split; [|done].
        destruct (h !! l) as [o|] eqn:E; [|done].
        assert (h1 !! l = h !! l) as Heq by (apply Hframe; rewrite E; by eexists).
        congruence.
    + intros l Hl. rewrite Hframe'; [by apply Hframe|]. by rewrite Hframe.
Qed.

(** The object made for a table, given the objects made for its fields. *)
Lemma materialize_object (h h2 : Heap) fields props sfields :
  NoDup fields.*1 →
  Forall2 (λ p sf, p.1 = sf.1 ∧ repr h2 p.2 sf.2) props sfields →
  Forall2 (λ sf f, sf.1 = f.1 ∧ erase sf.2 = toml_shape f.2) sfields fields →
  NoDup (flat_map (λ sf, labels sf.2) sfields) →
  (∀ l, l ∈ flat_map (λ sf, labels sf.2) sfields → h !! l = None ∧ is_Some (h2 !! l)) →
  (∀ l, is_Some (h !! l) → h2 !! l = h !! l) →
  materialized (TomlTable fields) h (<[next_loc h2 := object_of props]> h2)
    (VObject (next_loc h2)) (SObj (next_loc h2) sfields).
Proof.
  intros Hkeys Hprops Hshape Hnd Hfresh Hframe.
  set (l := next_loc h2).
  pose proof (next_loc_fresh h2) as Hl. fold l in Hl.
  pose proof (Forall2_keys (repr h2) _ _ Hprops) as Hk1.
  pose proof (Forall2_keys (λ s x, erase s = toml_shape x) _ _ Hshape) as Hk2.
  assert (Hpk : NoDup props.*1) by (by rewrite Hk1, Hk2).
  assert (Hother : ∀ l', l' ∈ flat_map (λ sf, labels sf.2) sfields → l' ≠ l).
  { intros l' Hl' ->. destruct (Hfresh l Hl') as [_ [o Ho]]. congruence. }
  unfold materialized. rewrite object_of_distinct by done. split_and!.
  - econstructor.
    + apply lookup_insert_eq.
    + done.
    + intros k. rewrite !JsMap_get_is_Some. unfold JsMap.keys. by rewrite Hk1.
    + intros k v t Hv Ht.
      pose proof (JsMap_get_Forall2 (repr h2) _ _ _ _ _ Hprops Hv Ht) as Hrepr.
      eapply repr_frame; [done|]. intros l' Hl'.
      apply lookup_insert_ne. intros <-.
      apply (Hother l); [|done]. apply list_elem_of_In, in_flat_map.
      exists (k, t). split; [|by apply list_elem_of_In].
      by apply list_elem_of_In, JsMap_get_Some_elem.
  - rewrite erase_SObj, toml_shape_table. f_equal.
    clear -Hshape. induction Hshape as [|[k s] [k' x] ?? [Hk He] _ IH]; [done|].
    rewrite !fmap_cons, IH. simpl in *. unfold prod_map. simpl. congruence.
  - rewrite labels_SObj. apply NoDup_cons. split; [|done].
    intros Hin. by apply (Hother l).
  - rewrite labels_SObj. intros l' [->|Hl']%elem_of_cons.
    + split; [|rewrite lookup_insert_eq; by eexists].
      destruct (h !! l) as [o|] eqn:E; [|done].
      assert (h2 !! l = h !! l) as Heq by (apply Hframe; rewrite E; by eexists).
      congruence.
    + destruct (Hfresh l' Hl') as [Hn Hs]. split; [done|].
      rewrite lookup_insert_ne; [done|]. intros <-. by apply (Hother l).
  - intros l' Hl'. rewrite lookup_insert_ne; [by apply Hframe|].
    intros <-. rewrite <- Hframe in Hl' by done. rewrite Hl in Hl'. by destruct Hl'.
Qed.

(** What [materialize] makes. *)
Lemma materialize_spec t : ∀ (h : Heap) v h',
  distinct_keys t → materialize t h = (v, h') → ∃ s, materialized t h h' v s.
Proof.
  induction t as [s|z|b|xs IH|fields IH] using Toml_ind'; intros h v h' Hd Hrun.
  - simpl in Hrun. simplify_eq. exists (SLeaf (VString s)).
    split_and!; [by constructor|done|constructor| |done].
    intros l Hl. by apply elem_of_nil in Hl.
  - simpl in Hrun. simplify_eq. exists (SLeaf (VNumber z)).
    split_and!; [by constructor|done|constructor| |done].
    intros l Hl. by apply elem_of_nil in Hl.
  - simpl in Hrun. simplify_eq. exists (SLeaf (VBool b)).
    split_and!; [by constructor|done|constructor| |done].
    intros l Hl. by apply elem_of_nil in Hl.
  - rewrite materialize_array in Hrun. apply distinct_keys_array in Hd.
    destruct (materialize_items xs h) as [vs h2] eqn:Ei. simpl in Hrun. simplify_eq.
    destruct (materialize_items_spec xs IH Hd h vs h' Ei)
      as (items & Hvs & Hshape & Hnd & Hfresh & Hframe).
    exists (SArr items). split_and!; try done.
    + constructor; [by eapply Forall2_length|].
      intros i v t Hv Ht. by eapply Forall2_lookup_lr.
    + rewrite erase_SArr, toml_shape_array. f_equal.
      clear -Hshape. induction Hshape as [|s x ?? He _ IHs]; [done|].
      rewrite !fmap_cons. congruence.
  - rewrite materialize_table_eq, materialize_table_fields in Hrun.
    apply distinct_keys_table in Hd as [Hkeys Hd].
    destruct (materialize_fields fields h) as [props h2] eqn:Ef. simpl in Hrun.
    simplify_eq.
    destruct (materialize_fields_spec fields IH Hd h props h2 Ef)
      as (sfields & Hprops & Hshape & Hnd & Hfresh & Hframe).
    exists (SObj (next_loc h2) sfields). by apply materialize_object.
Qed.

(** ** Reloading, end to end *)

Lemma JsMap_get_fmap {A B} (f : A → B) (m : list (string * A)) k :
  JsMap.get (prod_map id f <$> m) k = f <$> JsMap.get m k.
Proof.
  induction m as [|[k' a] m IH]; [done|].
  rewrite fmap_cons. simpl. case_decide; [done|apply IH].
Qed.

Lemma same_structure_erase s : same_structure s (erase s).
Proof.
  induction s as [v|items IH|l fields IH] using shape_ind'.
  - constructor.
  - rewrite erase_SArr. constructor; [by rewrite length_fmap|].
    intros i t t' Ht Ht'. rewrite list_lookup_fmap, Ht in Ht'. simplify_eq/=.
    rewrite Forall_forall in IH. apply IH. by eapply list_elem_of_lookup_2.
  - rewrite erase_SObj. constructor.
    + intros k. rewrite JsMap_get_fmap. by rewrite fmap_is_Some.
    + intros k t t' Ht Ht'. rewrite JsMap_get_fmap, Ht in Ht'. simplify_eq/=.
      rewrite Forall_forall in IH. by apply (IH (k, t)), JsMap_get_Some_elem.
Qed.

Lemma same_structure_trans s1 : ∀ s2 s3,
  same_structure s1 s2 → same_structure s2 s3 → same_structure s1 s3.
Proof.
  induction s1 as [v|items IH|l fields IH] using shape_ind'; intros s2 s3 H12 H23.
  - inversion H12; subst. by inversion H23; subst.
  - inversion H12 as [|? items2 Hlen Hitems|]; subst.
    inversion H23 as [|? items3 Hlen' Hitems'|]; subst.
    constructor; [congruence|]. intros i t t3 Ht Ht3.
    destruct (lookup_lt_is_Some_2 items2 i) as [t2 Ht2].
    { rewrite <- Hlen. by eapply lookup_lt_Some. }
    rewrite Forall_forall in IH.
    eapply (IH t); [by eapply list_elem_of_lookup_2|by eapply Hitems|by eapply Hitems'].
  - inversion H12 as [| |? l2 ? fields2 Hkeys Hfields]; subst.
    inversion H23 as [| |? l3 ? fields3 Hkeys' Hfields']; subst.
    constructor; [intros k; by rewrite Hkeys|]. intros k t t3 Ht Ht3.
    destruct (proj1 (Hkeys k)) as [t2 Ht2]; [by eexists|].
    rewrite Forall_forall in IH.
    eapply (IH (k, t)); [by apply JsMap_get_Some_elem|by eapply Hfields|by eapply Hfields'].
Qed.

Lemma plain_keys_erase s : plain_keys (erase s) → plain_keys s.
Proof.
  induction s as [v|items IH|l fields IH] using shape_ind'; [done| |].
  - simpl. induction IH as [|t items Ht _ IHitems]; [done|]. naive_solver.
  - rewrite erase_SObj, !plain_keys_SObj.
    induction IH as [|[k t] fields Ht _ IHfields]; [done|].
    rewrite fmap_cons, !Forall_cons. simpl in *. naive_solver.
Qed.

Lemma depth_le_labels s : depth s ≤ length (labels s).
Proof.
  induction s as [v|items IH|l fields IH] using shape_ind'; [simpl; lia..|].
  rewrite depth_SObj, labels_SObj. simpl. apply le_n_S.
  induction IH as [|[k t] fields Ht _ IHfields]; [done|].
  simpl in *. rewrite length_app. lia.
Qed.

Lemma allocated_size (h : Heap) (ls : list loc) :
  NoDup ls → (∀ l, l ∈ ls → is_Some (h !! l)) → length ls ≤ size h.
Proof.
  intros Hnd Hin. rewrite <- length_map_to_list, <- (length_fmap fst (map_to_list h)).
  apply submseteq_length, NoDup_submseteq; [done|].
  intros l [o Ho]%Hin. apply list_elem_of_fmap. exists (l, o).
  split; [done|]. by apply elem_of_map_to_list.
Qed.

Lemma repr_object_label (h : Heap) l s :
  repr h (VObject l) s → ∃ fields, s = SObj l fields.
Proof. inversion 1; subst; [done|by eexists]. Qed.

(** The object made for the top-level table of a parsed file. *)
Lemma materialize_table_spec table (h : Heap) l h1 :
  distinct_keys (TomlTable table) → materialize_table table h = (l, h1) →
  ∃ ts, materialized (TomlTable table) h h1 (VObject l) ts
        ∧ same_structure ts (toml_shape (TomlTable table))
        ∧ h !! l = None.
Proof.
  intros Hd Hrun.
  destruct (materialize_spec (TomlTable table) h (VObject l) h1 Hd) as [ts Hts].
  { by rewrite materialize_table_eq, Hrun. }
  exists ts. split; [done|].
  destruct Hts as (Hrepr & Herase & _ & Hfresh & _). split.
  - rewrite <- Herase. apply same_structure_erase.
  - destruct (repr_object_label _ _ _ Hrepr) as [fields ->].
    apply Hfresh. rewrite labels_SObj. by left.
Qed.

(** Reading an object that has the structure of a parsed tree gives the
    primitive values of the tree. *)
Lemma read_path_spec keys : ∀ (h : Heap) v s t t' p,
  repr h v s → same_structure s (toml_shape t) →
  toml_path t keys = Some t' → toml_primitive t' = Some p →
  read_path h v keys = Ok p.
Proof.
  induction keys as [|key keys IH]; intros h v s t t' p Hrepr Hsame Hpath Hprim.
  - simpl in Hpath. simplify_eq. simpl.
    destruct t' as [x|z|b|xs|fields]; simplify_eq/=;
      inversion Hsame; subst; by inversion Hrepr; subst.
  - simpl in Hpath. destruct t as [x|z|b|xs|fields]; try done.
    destruct (JsMap.get fields key) as [t1|] eqn:Ekey; [|done].
    rewrite toml_shape_table in Hsame.
    inversion Hsame as [| |l ? sfields ? Hkeys Hfields]; subst.
    inversion Hrepr as [| |? o ? Hl Hnd Hokeys Hochild]; subst.
    assert (Hshape : JsMap.get (prod_map id toml_shape <$> fields) key
                     = Some (toml_shape t1)) by (by rewrite JsMap_get_fmap, Ekey).
    destruct (proj2 (Hkeys key)) as [s1 Hs1]; [by eexists|].
    destruct (proj2 (Hokeys key)) as [v1 Hv1]; [by eexists|].
    simpl. unfold read_property. rewrite Hl. unfold JsObject.get, JsObject.get_own.
    rewrite Hv1. eapply IH; [by eapply Hochild|by eapply Hfields|done|done].
Qed.

Section reload.
Context `{CExt : ConfigExternals}.

(** X10: the first [loadConfig] of a file that exists and parses returns
    a new object whose content is that of the parsed file, caches it
    under the resolved path and creates one watcher for it; the objects
    already in the heap are untouched and nothing is written to the
    console; reading the object along a path of keys gives the value the
    file has there. *)
Theorem loadConfig_first_load filePath s content table :
  JsMap.get (configStore s) (path_resolve (default "config.toml" filePath)) = None →
  files s !! path_resolve (default "config.toml" filePath) = Some content →
  toml_parse content = inr table →
  distinct_keys (TomlTable table) →
  ∃ configData s1 tr,
    loadConfig filePath s = (Return configData, s1)
    ∧ heap s !! configData = None
    ∧ repr (heap s1) (VObject configData) tr
    ∧ same_structure tr (toml_shape (TomlTable table))
    ∧ (∀ l, is_Some (heap s !! l) → heap s1 !! l = heap s !! l)
    ∧ JsMap.get (configStore s1) (path_resolve (default "config.toml" filePath))
      = Some (mkConfigEntry configData (length (watchers s)))
    ∧ watchers s1
      = watchers s ++ [mkWatcher (path_resolve (default "config.toml" filePath)) configData]
    ∧ console s1 = console s
    ∧ (∀ keys t v, toml_path (TomlTable table) keys = Some t →
                   toml_primitive t = Some v →
                   read_path (heap s1) (VObject configData) keys = Ok v).
Proof.
  intros Hnone Hfile Hparse Hd. unfold loadConfig. rewrite Hnone, Hfile, Hparse.
  destruct (materialize_table table (heap s)) as [l h1] eqn:Em.
  destruct (materialize_table_spec table (heap s) l h1 Hd Em)
    as (ts & (Hrepr & _ & _ & _ & Hframe) & Hsame & Hfresh).
  eexists l, _, ts. split; [done|]. simpl.
  split_and!; try done; [apply JsMap_get_set_eq|].
  intros keys t v Hpath Hprim. by eapply read_path_spec.
Qed.

(** The two steps of a reload: the objects of the new tree are made,
    then merged into the live object. *)
Lemma reload_merge (h : Heap) target table tt :
  distinct_keys (TomlTable table) →
  plain_keys (toml_shape (TomlTable table)) →
  repr h (VObject target) tt →
  NoDup (labels tt) → plain_keys tt →
  (∀ l, l ∈ labels tt → is_Some (h !! l)) →
  ∃ source h1 h2 ts tr,
    materialize_table table h = (source, h1)
    ∧ updateObjectInPlace (S (size h1)) h1 target source = Ok h2
    ∧ materialized (TomlTable table) h h1 (VObject source) ts
    ∧ repr h2 (VObject target) tr
    ∧ merged tt ts tr
    ∧ same_structure tr (toml_shape (TomlTable table))
    ∧ (∀ l, l ∉ labels tt → h2 !! l = h1 !! l).
Proof.
  intros Hd Hplain Hlive Hnd Hplain_t Halloc.
  destruct (materialize_table table h) as [sl h1] eqn:Em.
  destruct (materialize_table_spec table h sl h1 Hd Em)
    as (ts & Hts & Hsame & _).
  pose proof Hts as (Hrepr & Herase & Hnd_s & Hfresh & Hframe).
  assert (Hlive1 : repr h1 (VObject target) tt).
  { eapply repr_frame; [done|]. intros l Hl. by apply Hframe, Halloc. }
  destruct (updateObjectInPlace_merge (S (size h1)) h1 target sl tt ts)
    as (h2 & tr & Hrun & Hrepr2 & Hmerged & Hframe2 & _); try done.
  - intros l Hl Hl'. destruct (Halloc l Hl) as [o Ho].
    destruct (Hfresh l Hl') as [Hn _]. congruence.
  - apply plain_keys_erase. by rewrite Herase.
  - etrans; [apply depth_le_labels|]. etrans; [|apply Nat.le_succ_diag_r].
    apply allocated_size; [done|]. intros l Hl. by apply Hfresh.
  - exists sl, h1, h2, ts, tr. split_and!; try done.
    eapply same_structure_trans; [|done]. by eapply merged_same_structure.
Qed.

End reload.

(** ** The store and its watchers *)

Lemma JsMap_set_fresh {V} (m : list (string * V)) k v :
  JsMap.get m k = None → JsMap.set m k v = m ++ [(k, v)].
Proof.
  induction m as [|[k' v'] m IH]; [done|]. simpl.
  case_decide; [done|]. intros Hget. by rewrite IH.
Qed.

Section store_facts.
Context `{CExt : ConfigExternals}.

Lemma store_inv_same s s' :
  configStore s' = configStore s → watchers s' = watchers s →
  store_inv s → store_inv s'.
Proof. intros Hs Hw [? ? ?]. split; by rewrite ?Hs, ?Hw. Qed.

Lemma loadConfig_store_inv filePath s r s' :
  loadConfig filePath s = (r, s') → store_inv s → store_inv s'.
Proof.
  unfold loadConfig. intros Hrun Hinv.
  destruct (JsMap.get (configStore s) _) as [entry|] eqn:Eget; [by simplify_eq|].
  destruct (files s !! _) as [content|]; [|simplify_eq; by apply (store_inv_same s)].
  destruct (toml_parse content) as [msg|table];
    [simplify_eq; by apply (store_inv_same s)|].
  destruct (materialize_table table (heap s)) as [configData h]. simplify_eq.
  destruct Hinv as [Hkeys Hwatch Hindex].
  pose proof (Forall2_length _ _ _ Hwatch) as Hlen.
  split; simpl; rewrite (JsMap_set_fresh _ _ _ Eget).
  - unfold JsMap.keys. rewrite fmap_app. apply NoDup_app. split_and!; [done| |].
    + intros k Hk [->|[]%elem_of_nil]%elem_of_cons.
      by apply JsMap_get_None in Eget.
    + apply NoDup_singleton.
  - apply Forall2_app; [done|]. by constructor.
  - intros i p [Hi|[Hi Hp]]%lookup_app_Some; [by apply Hindex|].
    apply list_lookup_singleton_Some in Hp as [Hi' <-]. simpl. lia.
Qed.

Lemma on_change_store w s r s' :
  on_change w s = Ok (r, s') →
  configStore s' = configStore s ∧ watchers s' = watchers s.
Proof.
  unfold on_change. intros Hrun.
  destruct (files s !! _) as [content|]; [|by simplify_eq].
  destruct (toml_parse content) as [msg|table]; [by simplify_eq|].
  destruct (materialize_table table (heap s)) as [updatedConfig h1].
  destruct (updateObjectInPlace _ _ _ _); by simplify_eq.
Qed.

Lemma handler_step_store_inv s s' : handler_step s s' → store_inv s → store_inv s'.
Proof.
  intros [Hstep|(w & _ & ->)] Hinv; [|by apply (store_inv_same s)].
  destruct Hstep as [filePath s r s' Hrun|w s r s' _ Hrun|s h fs].
  - by eapply loadConfig_store_inv.
  - destruct (on_change_store _ _ _ _ Hrun). by apply (store_inv_same s).
  - by apply (store_inv_same s).
Qed.

Lemma run_store_inv s0 s :
  configStore s0 = [] → watchers s0 = [] → rtc handler_step s0 s → store_inv s.
Proof.
  intros Hs Hw Hrun.
  assert (Hinv : store_inv s0).
  { split; rewrite ?Hs, ?Hw; [constructor|constructor|]. by intros i p ?. }
  clear Hs Hw. induction Hrun as [|s1 s2 s3 Hstep _ IH]; [done|].
  by eapply IH, handler_step_store_inv.
Qed.

(** X12: however the process runs from a state without cached
    configuration, every cached file has exactly one watcher: the paths
    watched are pairwise distinct, every watcher belongs to the entry of
    its path, and its handler updates the object that [loadConfig]
    returns for that path. *)
Theorem one_watcher_per_file s0 s :
  configStore s0 = [] → watchers s0 = [] → rtc handler_step s0 s →
  NoDup (watched_path <$> watchers s)
  ∧ length (watchers s) = length (configStore s)
  ∧ (∀ path entry, JsMap.get (configStore s) path = Some entry →
       watchers s !! watcher entry = Some (mkWatcher path (data entry)))
  ∧ (∀ w, w ∈ watchers s →
       ∃ i, JsMap.get (configStore s) (watched_path w) = Some (mkConfigEntry (live w) i)
            ∧ watchers s !! i = Some w).
Proof.
  intros Hs Hw Hrun. destruct (run_store_inv s0 s Hs Hw Hrun) as [Hkeys Hwatch Hindex].
  assert (Hpaths : watched_path <$> watchers s = JsMap.keys (configStore s)).
  { clear -Hwatch. unfold JsMap.keys.
    induction Hwatch as [|p w ps ws [Hp _] _ IH]; [done|].
    rewrite !fmap_cons. congruence. }
  split_and!.
  - by rewrite Hpaths.
  - symmetry. by eapply Forall2_length.
  - intros path entry Hget. apply JsMap_get_Some_elem in Hget.
    apply list_elem_of_lookup in Hget as [i Hi].
    pose proof (Hindex i _ Hi) as Hidx. simpl in Hidx. rewrite Hidx.
    destruct (Forall2_lookup_l _ _ _ _ _ Hwatch Hi) as (w & Hw' & Hpath & Hlive).
    rewrite Hw'. f_equal. destruct w. simpl in *. congruence.
  - intros w [i Hi]%list_elem_of_lookup.
    destruct (Forall2_lookup_r _ _ _ _ _ Hwatch Hi) as ([path entry] & Hp & Hpath & Hlive).
    simpl in *. exists i. split; [|done].
    rewrite Hpath. rewrite (JsMap_elem_get _ path entry Hkeys).
    + f_equal. destruct entry as [d n]. simpl in *.
      rewrite <- Hlive. f_equal. apply (Hindex i _ Hp).
    + by eapply list_elem_of_lookup_2.
Qed.

(** X13: on ['exit'], every watcher that was created is closed, once each,
    in the order of creation. *)
Theorem exit_closes_every_watcher s0 s :
  configStore s0 = [] → watchers s0 = [] → rtc handler_step s0 s →
  on_exit s = seq 0 (length (watchers s)).
Proof.
  intros Hs Hw Hrun. destruct (run_store_inv s0 s Hs Hw Hrun) as [_ Hwatch Hindex].
  rewrite <- (Forall2_length _ _ _ Hwatch). unfold on_exit.
  apply list_eq. intros i. rewrite !list_lookup_fmap.
  match goal with
  | |- context [snd <$> ?x] => destruct x as [p|] eqn:Ei; simpl
  end.
  - rewrite (Hindex i p Ei). symmetry. apply lookup_seq.
    split; [done|]. by eapply lookup_lt_Some.
  - symmetry. apply lookup_seq_ge. by apply lookup_ge_None.
Qed.

(** X14: a [loadConfig] that throws caches nothing: the heap, the store
    and the watchers are as before and one line is written to the
    console; once the file is there and parses, the same call
    succeeds. *)
Theorem failed_load_is_not_cached filePath s msg s1 :
  loadConfig filePath s = (Throw msg, s1) →
  heap s1 = heap s ∧ files s1 = files s
  ∧ configStore s1 = configStore s ∧ watchers s1 = watchers s
  ∧ (∃ line, console s1 = console s ++ [line])
  ∧ ∀ content table,
      toml_parse content = inr table →
      ∃ configData s2,
        loadConfig filePath
          (write_file (path_resolve (default "config.toml" filePath)) content s1)
        = (Return configData, s2).
Proof.
  intros Hrun. unfold loadConfig in Hrun.
  destruct (JsMap.get (configStore s) _) as [entry|] eqn:Eget; [by simplify_eq|].
  assert (Hretry : ∀ s', configStore s' = configStore s → ∀ content table,
            toml_parse content = inr table →
            ∃ configData s2,
              loadConfig filePath
                (write_file (path_resolve (default "config.toml" filePath)) content s')
              = (Return configData, s2)).
  { intros s' Hs' content table Hparse. unfold loadConfig, write_file. simpl.
    rewrite Hs', Eget, lookup_insert_eq, Hparse.
    destruct (materialize_table table (heap s')) as [configData h]. by eexists _, _. }
  destruct (files s !! _) as [content|].
  - destruct (toml_parse content) as [msg'|table].
    + simplify_eq. simpl. split_and!; [done..|by eexists|].
      intros content' table' Hparse. by eapply Hretry.
    + destruct (materialize_table table (heap s)). by simplify_eq.
  - simplify_eq. simpl. split_and!; [done..|by eexists|].
    intros content' table' Hparse. by eapply Hretry.
Qed.
End store_facts.

(** ** What the merge never does *)

Lemma delete_property_dom (h : Heap) target key h' :
  delete_property h target key = Ok h' → dom h' = dom h.
Proof.
  unfold delete_property. destruct (h !! target) as [o|] eqn:E; [|done].
  intros [= <-]. apply dom_insert_lookup_L. by eexists.
Qed.

Lemma assign_property_dom (h : Heap) target key v h' :
  assign_property h target key v = Ok h' → dom h' = dom h.
Proof.
  unfold assign_property. destruct (h !! target) as [o|] eqn:E; [|done].
  destruct (JsObject.set o key v); [|done].
  intros [= <-]. apply dom_insert_lookup_L. by eexists.
Qed.

Lemma remove_stale_keys_dom target source keys : ∀ (h h' : Heap),
  remove_stale_keys target source keys h = Ok h' → dom h' = dom h.
Proof.
  induction keys as [|key keys IH]; intros h h' Hrun; [by simplify_eq/=|].
  cbn [remove_stale_keys] in Hrun.
  destruct (key_in h source key) as [[]|]; [by apply IH| |done].
  destruct (delete_property h target key) as [h1|] eqn:Ed; [|done].
  rewrite (IH _ _ Hrun). by eapply delete_property_dom.
Qed.

Lemma update_keys_dom (recurse : Heap → loc → loc → Result Heap) target source keys :
  (∀ (h h' : Heap) tl sl, recurse h tl sl = Ok h' → dom h' = dom h) →
  ∀ (h h' : Heap), update_keys recurse target source keys h = Ok h' → dom h' = dom h.
Proof.
  intros Hrec. induction keys as [|key keys IH]; intros h h' Hrun; [by simplify_eq/=|].
  cbn [update_keys] in Hrun.
  destruct (read_property h source key) as [v|]; [|done].
  assert (Hassign : ∀ v',
    match assign_property h target key v' with
    | Ok h1 => update_keys recurse target source keys h1
    | Stopped s => Stopped s
    end = Ok h' → dom h' = dom h).
  { intros v' Hrun'. destruct (assign_property h target key v') as [h1|] eqn:Ea; [|done].
    rewrite (IH _ _ Hrun'). by eapply assign_property_dom. }
  destruct v as [| | | | | |sl]; try by apply (Hassign _ Hrun).
  destruct (read_property h target key) as [vt|]; [|done].
  destruct vt as [| | | | | |tl]; try by apply (Hassign _ Hrun).
  destruct (recurse h tl sl) as [h1|] eqn:Er; [|done].
  rewrite (IH _ _ Hrun). by eapply Hrec.
Qed.

(** X15: the merge neither creates nor removes an object: whatever the
    two references and the heap, when [updateObjectInPlace] returns the
    heap has the objects it had. *)
Theorem updateObjectInPlace_keeps_objects fuel : ∀ (h h' : Heap) target source,
  updateObjectInPlace fuel h target source = Ok h' → dom h' = dom h.
Proof.
  induction fuel as [|fuel IH]; intros h h' target source Hrun; [done|].
  cbn [updateObjectInPlace] in Hrun.
  destruct (own_keys_of h target) as [target_keys|]; [|done].
  destruct (remove_stale_keys target source target_keys h) as [h1|] eqn:E1; [|done].
  destruct (own_keys_of h1 source) as [source_keys|]; [|done].
  rewrite <- (remove_stale_keys_dom _ _ _ _ _ E1).
  eapply update_keys_dom; [|done]. intros ? ? ? ?. apply IH.
Qed.

(** X16: merging an object with itself changes nothing: for an object
    that is a tree, whatever its property names,
    [updateObjectInPlace(o, o)] returns and leaves the heap as it was. *)
Theorem updateObjectInPlace_self_merge n (h : Heap) l s :
  repr h (VObject l) s → depth s ≤ n → updateObjectInPlace n h l l = Ok h.
Proof.
  intros Hrepr Hdepth.
  apply (updateObjectInPlace_again n h l l s s s); try done.
  apply merged_self. by rewrite (repr_object_shape _ _ _ Hrepr).
Qed.

(** ** The logger *)

Lemma prefix_app_r (p s t : string) :
  String.prefix p s = true → String.prefix p (s +:+ t) = true.
Proof.
  revert s. induction p as [|a p IH]; intros s; [by destruct (s +:+ t)|].
  destruct s as [|b s]; [done|]. simpl.
  destruct (Ascii.ascii_dec a b); [apply IH|done].
Qed.

Lemma includes_app_r (s t pattern : string) :
  includes s pattern = true → includes (s +:+ t) pattern = true.
Proof.
  induction s as [|a s IH]; simpl.
  - rewrite orb_false_r. intros Hp. destruct pattern; [|done]. by destruct t.
  - intros [Hp|Hi]%orb_true_iff; apply orb_true_iff.
    + left. by apply (prefix_app_r pattern (String a s) t).
    + right. by apply IH.
Qed.

Section logger_facts.
Context `{CExt : ConsoleExternals}.

(** What one call of [log] asks of the outside: nothing, or one write to
    the standard output and the same line appended to the combined log
    and, at level ERR, to the error log; the clock is read twice. *)
Lemma log_outputs level message metadata color st :
  RustStyleLogger.log level message metadata color st = st
  ∨ ∃ line data,
      RustStyleLogger.log level message metadata color st
      = mkLoggerState
          (outputs st ++ [StdoutWrite line; AppendFile CombinedLog data]
             ++ (if bool_decide (level = "ERR") then [AppendFile ErrorLog data] else []))
          (S (S (clock_reads st))).
Proof.
  unfold RustStyleLogger.log.
  destruct (bool_decide (level = "ERR") && ERROR_FILTERS.shouldFilter (LString message));
    [by left|right].
  unfold RustStyleLogger.formatLogMessage, RustStyleLogger.getTimestamp,
    RustStyleLogger.emit. simpl.
  eexists _, _. destruct (bool_decide (level = "ERR")); simpl.
  - by rewrite <- !app_assoc.
  - by rewrite <- !app_assoc.
Qed.

Lemma perform_outputs call st :
  perform call st = st
  ∨ ∃ line data err,
      perform call st
      = mkLoggerState
          (outputs st ++ [StdoutWrite line; AppendFile CombinedLog data]
             ++ (if err : bool then [AppendFile ErrorLog data] else []))
          (S (S (clock_reads st))).
Proof.
  assert (Hlog : ∀ level message metadata color,
    RustStyleLogger.log level message metadata color st = st
    ∨ ∃ line data err,
        RustStyleLogger.log level message metadata color st
        = mkLoggerState
            (outputs st ++ [StdoutWrite line; AppendFile CombinedLog data]
               ++ (if err : bool then [AppendFile ErrorLog data] else []))
            (S (S (clock_reads st)))).
  { intros level message metadata color.
    destruct (log_outputs level message metadata color st) as [?|(line & data & ?)];
      [by left|right]. by eexists line, data, _. }
  assert (Herror : ∀ message err,
    RustStyleLogger.error message err st = st
    ∨ ∃ line data err',
        RustStyleLogger.error message err st
        = mkLoggerState
            (outputs st ++ [StdoutWrite line; AppendFile CombinedLog data]
               ++ (if err' : bool then [AppendFile ErrorLog data] else []))
            (S (S (clock_reads st)))).
  { intros message err. unfold RustStyleLogger.error.
    destruct (RustStyleLogger.or_empty_object err) as [| |s|m stack own|props];
      try apply Hlog.
    destruct (ERROR_FILTERS.is_truthy (LString s)); apply Hlog. }
  destruct call; simpl;
    unfold RustStyleLogger.info, RustStyleLogger.debug, RustStyleLogger.warn,
      RustStyleLogger.console_log, RustStyleLogger.console_info,
      RustStyleLogger.console_warn, RustStyleLogger.console_debug,
      RustStyleLogger.console_error, RustStyleLogger.errorHandler,
      RustStyleLogger.request_finished, RustStyleLogger.wsRequestLogger,
      RustStyleLogger.info, RustStyleLogger.debug, RustStyleLogger.warn;
    try apply Hlog; try apply Herror.
  - destruct (negb _); [apply Hlog|by left].
  - destruct (negb _); [apply Hlog|by left].
  - destruct (_ && _); [apply Herror|by left].
  - destruct (ERROR_FILTERS.shouldFilter error); [by left|apply Herror].
Qed.

(** X17: whatever is logged, through the methods of the logger, through
    [console], by the request middlewares or by the error handlers of the
    process, the sinks agree:
    there are as many writes to the standard output as lines appended to
    the combined log, the lines appended to the error log are lines of the
    combined log in the same order, and the clock was read twice for each
    line. *)
Theorem logger_sinks_agree calls reads :
  let st := perform_all calls (mkLoggerState [] reads) in
  length (stdout_writes (outputs st)) = length (appended_to CombinedLog (outputs st))
  ∧ appended_to ErrorLog (outputs st) `sublist_of` appended_to CombinedLog (outputs st)
  ∧ clock_reads st = reads + 2 * length (stdout_writes (outputs st)).
Proof.
  unfold perform_all.
  induction calls as [|call calls IH] using rev_ind; [simpl; split_and!; [done|done|lia]|].
  rewrite foldl_app. simpl.
  set (st := foldl (λ st call, perform call st) (mkLoggerState [] reads) calls) in *.
  destruct IH as (Hlen & Hsub & Hclock).
  destruct (perform_outputs call st) as [->|(line & data & err & ->)]; [done|].
  simpl. unfold stdout_writes, appended_to in *. rewrite !omap_app.
  destruct err; simpl; rewrite ?app_nil_r, !length_app; simpl.
  - split_and!; [lia| |lia]. by apply sublist_app.
  - split_and!; [lia| |lia]. rewrite <- (app_nil_r (omap _ (outputs st))) at 1.
    apply sublist_app; [done|]. by apply sublist_nil_l.
Qed.

Lemma shouldFilter_includes (s pattern : string) :
  pattern ∈ ERROR_FILTERS.patterns → includes s pattern = true →
  ERROR_FILTERS.shouldFilter (LString s) = true.
Proof.
  intros Hp Hs. unfold ERROR_FILTERS.shouldFilter.
  assert (Hne : s ≠ "").
  { intros ->. simpl in Hs. rewrite orb_false_r in Hs.
    destruct pattern; [|done]. revert Hp. clear. by compute_done. }
  cbn [ERROR_FILTERS.is_truthy]. rewrite decide_False by done. cbn [negb].
  apply existsb_exists. exists pattern. split; [by apply list_elem_of_In|done].
Qed.

Lemma log_filtered (message pattern : string) metadata color st :
  pattern ∈ ERROR_FILTERS.patterns → includes message pattern = true →
  RustStyleLogger.log "ERR" message metadata color st = st.
Proof.
  intros Hp Hm. unfold RustStyleLogger.log.
  by rewrite (shouldFilter_includes message pattern Hp Hm).
Qed.

(** X18: an error whose message contains one of the filter patterns is
    dropped altogether, with or without an error value attached and
    also when it comes through [console.error]: nothing is written or
    appended and the clock is not read; a warning with the same message
    is written to the standard output and to the combined log. *)
Theorem filtered_error_is_dropped message pattern err rest metadata st :
  pattern ∈ ERROR_FILTERS.patterns → includes message pattern = true →
  RustStyleLogger.error message err st = st
  ∧ RustStyleLogger.console_error message rest st = st
  ∧ ∃ line data,
      RustStyleLogger.warn message metadata st
      = mkLoggerState (outputs st ++ [StdoutWrite line; AppendFile CombinedLog data])
          (S (S (clock_reads st))).
Proof.
  intros Hp Hm. split_and!.
  - unfold RustStyleLogger.error.
    destruct (RustStyleLogger.or_empty_object err) as [| |s|m stack own|props];
      try by eapply log_filtered.
    + destruct (ERROR_FILTERS.is_truthy (LString s)); [|by eapply log_filtered].
      eapply log_filtered; [done|]. by apply includes_app_r.
    + eapply log_filtered; [done|]. by apply includes_app_r.
  - unfold RustStyleLogger.console_error.
    by rewrite (shouldFilter_includes message pattern Hp Hm).
  - unfold RustStyleLogger.warn.
    destruct (log_outputs "WRN" message (RustStyleLogger.or_empty_object metadata)
                "#ffae00" st) as [Hsame|(line & data & Hlog)].
    + exfalso. unfold RustStyleLogger.log in Hsame. simpl in Hsame.
      unfold RustStyleLogger.formatLogMessage, RustStyleLogger.getTimestamp,
        RustStyleLogger.emit in Hsame. simpl in Hsame.
      apply (f_equal clock_reads) in Hsame. simpl in Hsame. lia.
    + exists line, data. by rewrite Hlog.
Qed.

Lemma two_digits_length n :
  n < 100 → String.length (RustStyleLogger.two_digits n) = 2.
Proof.
  intros Hn.
  assert (Hall : forallb (λ n, String.length (RustStyleLogger.two_digits n) =? 2)
                   (seq 0 100) = true) by (by vm_compute).
  rewrite forallb_forall in Hall. apply Nat.eqb_eq, Hall, in_seq. lia.
Qed.

Lemma year_length (y : Z) :
  (1000 ≤ y ≤ 9999)%Z → String.length (pretty y) = 4.
Proof.
  intros Hy.
  assert (Hall : forallb (λ n, String.length (pretty (Z.of_nat n)) =? 4)
                   (seq (10 * 100) (90 * 100)) = true) by (by vm_compute).
  rewrite forallb_forall in Hall.
  replace y with (Z.of_nat (Z.to_nat y)) by lia.
  apply Nat.eqb_eq, Hall, in_seq. lia.
Qed.

Lemma string_length_2 (s : string) :
  String.length s = 2 → ∃ a b, s = String a (String b "").
Proof. destruct s as [|a [|b [|c s]]]; try done. by eexists _, _. Qed.

Lemma string_length_4 (s : string) :
  String.length s = 4 → ∃ a b c d, s = String a (String b (String c (String d ""))).
Proof.
  destruct s as [|a [|b [|c [|d [|e s]]]]]; try done. by eexists _, _, _, _.
Qed.

(** X19: for a year of four digits, the timestamp has the fixed layout
    [YYYY-MM-DD HH:MM:SS]: nineteen characters, with the separators at
    their places. *)
Theorem timestamp_layout now :
  (1000 ≤ getFullYear now ≤ 9999)%Z →
  getMonth now < 12 → getDate now ≤ 31 →
  getHours now < 24 → getMinutes now < 60 → getSeconds now < 60 →
  let t := RustStyleLogger.timestamp_of now in
  String.length t = 19
  ∧ String.substring 4 1 t = "-" ∧ String.substring 7 1 t = "-"
  ∧ String.substring 10 1 t = " "
  ∧ String.substring 13 1 t = ":" ∧ String.substring 16 1 t = ":".
Proof.
  intros Hy Hmo Hd Hh Hmi Hs. unfold RustStyleLogger.timestamp_of.
  destruct (string_length_4 _ (year_length _ Hy)) as (y1 & y2 & y3 & y4 & ->).
  destruct (string_length_2 _ (two_digits_length (getMonth now + 1) ltac:(lia)))
    as (m1 & m2 & ->).
  destruct (string_length_2 _ (two_digits_length (getDate now) ltac:(lia)))
    as (d1 & d2 & ->).
  destruct (string_length_2 _ (two_digits_length (getHours now) ltac:(lia)))
    as (h1 & h2 & ->).
  destruct (string_length_2 _ (two_digits_length (getMinutes now) ltac:(lia)))
    as (n1 & n2 & ->).
  destruct (string_length_2 _ (two_digits_length (getSeconds now) ltac:(lia)))
    as (s1 & s2 & ->).
  done.
Qed.
End logger_facts.

(** ** The webhook logger and the live configuration *)

Section webhook.
Context `{CExt : ConfigExternals}.

(** X20: the webhook logger follows a reload of the configuration it
    holds.  After a ['change'] event on a file that parses, a call logs
    nothing if the new file has [logging.status = false]; if the new file
    has [logging.status = true] and enables the action for users, the
    call writes to the console and posts the embed (white, titled with
    the action) to the webhook address of the new file. *)
Theorem webhook_follows_reload w s content table tt action message :
  files s !! watched_path w = Some content →
  toml_parse content = inr table →
  distinct_keys (TomlTable table) →
  plain_keys (toml_shape (TomlTable table)) →
  repr (heap s) (VObject (live w)) tt →
  NoDup (labels tt) → plain_keys tt →
  (∀ l, l ∈ labels tt → is_Some (heap s !! l)) →
  ∃ s',
    on_change w s = Ok (Return (), s')
    ∧ (toml_path (TomlTable table) ["logging"; "status"] = Some (TomlBool false) →
       logAction (live w) action message (heap s') = Ok [])
    ∧ (∀ url,
         toml_path (TomlTable table) ["logging"; "status"] = Some (TomlBool true) →
         toml_path (TomlTable table) ["logging"; "actions"; "user"; action]
           = Some (TomlBool true) →
         toml_path (TomlTable table) ["logging"; "webhook"] = Some (TomlString url) →
         logAction (live w) action message (heap s')
         = Ok [ConsoleLog [action; message];
               AxiosPost (VString url)
                 [mkEmbed (Some 16777215%Z) ("Event: `" +:+ action +:+ "`") message
                    "Heliactyl Logging" "https://atqr.pages.dev/favicon2.png"]]).
Proof.
  intros Hfile Hparse Hd Hplain Hlive Hnd Hplain_t Halloc.
  destruct (reload_merge (heap s) (live w) table tt Hd Hplain Hlive Hnd Hplain_t Halloc)
    as (sl & h1 & h2 & ts & tr & Hmake & Hrun & _ & Hrepr & _ & Hsame & _).
  unfold on_change. rewrite Hfile, Hparse, Hmake, Hrun.
  eexists. split; [done|]. cbn [heap].
  assert (Hread : ∀ keys t v, toml_path (TomlTable table) keys = Some t →
            toml_primitive t = Some v → read_path h2 (VObject (live w)) keys = Ok v).
  { intros keys t v Hpath Hprim. by eapply read_path_spec. }
  split.
  - intros Hstatus. unfold logAction.
    by rewrite (Hread _ _ (VBool false) Hstatus eq_refl).
  - intros url Hstatus Huser Hurl. unfold logAction.
    rewrite (Hread _ _ (VBool true) Hstatus eq_refl). cbn [value_truthy negb].
    rewrite (Hread _ _ (VBool true) Huser eq_refl). cbn [value_truthy negb].
    by rewrite (Hread _ _ (VString url) Hurl eq_refl).
Qed.

(** X21: an action whose name is a name that [Object.prototype] defines
    passes the check of the webhook logger although the configuration
    does not list it: with logging on and [actions.user] an object
    without such a key, the call logs and posts. *)
Theorem webhook_logs_inherited_action (h : Heap) settings logging actions user
    (o_settings o_logging o_actions o_user : JsObject.t) status url action message :
  h !! settings = Some o_settings →
  JsMap.get o_settings "logging" = Some (VObject logging) →
  h !! logging = Some o_logging →
  JsMap.get o_logging "status" = Some status → value_truthy status = true →
  JsMap.get o_logging "webhook" = Some url →
  JsMap.get o_logging "actions" = Some (VObject actions) →
  h !! actions = Some o_actions →
  JsMap.get o_actions "user" = Some (VObject user) →
  h !! user = Some o_user →
  JsMap.get o_user action = None →
  JsObject.inherited action = true → action ≠ "__proto__" →
  logAction settings action message h
  = Ok [ConsoleLog [action; message]; AxiosPost url [embed_of action message]].
Proof.
  intros Hs Hlogging Hl Hstatus Htruthy Hurl Hactions Ha Huser Hu Hnone Hinh Hproto.
  unfold logAction. simpl. unfold read_property, JsObject.get, JsObject.get_own.
  rewrite Hs, Hlogging, Hl, Hstatus, Htruthy. simpl.
  rewrite Hactions, Ha, Huser, Hu, Hnone.
  rewrite decide_False by done. rewrite Hinh. simpl. by rewrite Hurl.
Qed.
End webhook.

(** ** The list of all servers *)

Section getAllServers_facts.
Context {Server : Type}.
Implicit Types (api : nat → Z → string + ServersPage Server).

Lemma getAllServers_loop_pages api (pages : list (list Server)) :
  (∀ k i data, pages !! i = Some data →
     api k (Z.of_nat (S i)) = inr (mkServersPage data (Z.of_nat (length pages)))) →
  ∀ todo fuel requests acc,
    requests + todo = length pages → 0 < todo → todo ≤ fuel →
    getAllServers_loop api fuel requests (Z.of_nat (S requests)) acc
    = Ok (Return (acc ++ concat (drop requests pages)), length pages).
Proof.
  intros Hapi todo. induction todo as [|todo IH]; intros fuel requests acc Hlen Hpos Hfuel;
    [lia|].
  destruct fuel as [|fuel]; [lia|]. cbn [getAllServers_loop].
  destruct (lookup_lt_is_Some_2 pages requests) as [data Hdata]; [lia|].
  rewrite (Hapi requests requests data Hdata). cbn [page_data total_pages].
  rewrite (drop_S _ _ _ Hdata). simpl.
  destruct (decide (todo = 0)) as [->|Hne].
  - rewrite (proj2 (Z.ltb_ge _ _)) by lia.
    rewrite drop_ge by lia. simpl. rewrite app_nil_r.
    do 3 f_equal. lia.
  - rewrite (proj2 (Z.ltb_lt _ _)) by lia.
    replace (Z.of_nat (S requests) + 1)%Z with (Z.of_nat (S (S requests))) by lia.
    rewrite IH by lia. by rewrite <- app_assoc.
Qed.

(** X22: when the panel has [n >= 1] pages and every answer says so, the
    call asks for the pages 1 to [n], one request each, and returns
    their servers in order; [n] turns of the loop are enough. *)
Theorem getAllServers_lists_every_page api (pages : list (list Server)) fuel :
  0 < length pages → length pages ≤ fuel →
  (∀ k i data, pages !! i = Some data →
     api k (Z.of_nat (S i)) = inr (mkServersPage data (Z.of_nat (length pages)))) →
  getAllServers api fuel = Ok (Return (concat pages), length pages).
Proof.
  intros Hpos Hfuel Hapi. unfold getAllServers.
  apply (getAllServers_loop_pages api pages Hapi (length pages) fuel 0 []); lia.
Qed.

(** X23: the loop has no bound of its own: if every answer announces a
    page after the one asked, the call never returns, whatever the number
    of turns allowed. *)
Theorem getAllServers_unbounded api fuel :
  (∀ k p, ∃ page, api k p = inr page ∧ (p < total_pages page)%Z) →
  getAllServers api fuel = Stopped OutOfFuel.
Proof.
  intros Hmore. unfold getAllServers. generalize 0 1%Z (@nil Server).
  induction fuel as [|fuel IH]; intros requests currentPage acc; [done|].
  cbn [getAllServers_loop].
  destruct (Hmore requests currentPage) as (page & -> & Hlt).
  rewrite (proj2 (Z.ltb_lt _ _)) by done. apply IH.
Qed.

(** X24: a request that fails rejects the whole call: the servers of the
    pages already received are not returned. *)
Theorem getAllServers_fails_as_a_whole api (pages : list (list Server)) failing msg fuel :
  failing < length pages → failing < fuel →
  (∀ i data, i < failing → pages !! i = Some data →
     api i (Z.of_nat (S i)) = inr (mkServersPage data (Z.of_nat (length pages)))) →
  api failing (Z.of_nat (S failing)) = inl msg →
  getAllServers api fuel = Ok (Throw msg, S failing).
Proof.
  intros Hlt Hfuel Hapi Hfail. unfold getAllServers.
  assert (Hgen : ∀ todo fuel requests acc,
    requests + todo = failing → todo < fuel →
    getAllServers_loop api fuel requests (Z.of_nat (S requests)) acc
    = Ok (Throw msg, S failing)).
  { induction todo as [|todo IH]; intros fuel' requests acc Hsum Hf.
    - destruct fuel' as [|fuel']; [lia|]. cbn [getAllServers_loop].
      replace requests with failing by lia. by rewrite Hfail.
    - destruct fuel' as [|fuel']; [lia|]. cbn [getAllServers_loop].
      destruct (lookup_lt_is_Some_2 pages requests) as [data Hdata]; [lia|].
      rewrite (Hapi requests data) by (done || lia). cbn [page_data total_pages].
      rewrite (proj2 (Z.ltb_lt _ _)) by lia.
      replace (Z.of_nat (S requests) + 1)%Z with (Z.of_nat (S (S requests))) by lia.
      apply IH; lia. }
  apply (Hgen failing fuel 0 []); lia.
Qed.
End getAllServers_facts.

(** ** The theorems above on concrete inputs *)

Lemma sort_keeps_dependency_order_witness :
  JsMap.wf ResolverExamples.ordered_registry
  ∧ dependency_ordered ResolverExamples.ordered_registry
  ∧ ∃ l', sortModulesByDependency [] ResolverExamples.ordered_registry
          = Some (JsMap.keys ResolverExamples.ordered_registry, l').
Proof.
  assert (Hwf : JsMap.wf ResolverExamples.ordered_registry) by compute_done.
  assert (Hord : dependency_ordered ResolverExamples.ordered_registry).
  { intros i k dep Hi Hdep Hhas.
    destruct i as [|[|[|i]]]; simpl in Hi; simplify_eq.
    - by apply elem_of_nil in Hdep.
    - apply list_elem_of_singleton in Hdep as ->. exists 0. split; [lia|done].
    - apply elem_of_cons in Hdep as [->|Hdep%list_elem_of_singleton].
      + exists 1. split; [lia|done].
      + subst dep. by vm_compute in Hhas. }
  split_and!; [exact Hwf|exact Hord|].
  exact (sort_keeps_dependency_order ResolverExamples.ordered_registry [] Hwf Hord).
Defined.

Lemma loadConfig_first_load_witness :
  let ext := ConfigExamples.demo_externals in
  let table := [("a", TomlInteger 1)] in
  JsMap.get (configStore ConfigExamples.fresh)
    (@path_resolve ext (default "config.toml" (Some "config.toml"))) = None
  ∧ files ConfigExamples.fresh
      !! @path_resolve ext (default "config.toml" (Some "config.toml")) = Some "a = 1"
  ∧ @toml_parse ext "a = 1" = inr table
  ∧ distinct_keys (TomlTable table)
  ∧ ∃ configData s1 tr,
      @loadConfig ext (Some "config.toml") ConfigExamples.fresh = (Return configData, s1)
      ∧ heap ConfigExamples.fresh !! configData = None
      ∧ repr (heap s1) (VObject configData) tr
      ∧ same_structure tr (toml_shape (TomlTable table))
      ∧ (∀ l, is_Some (heap ConfigExamples.fresh !! l) →
              heap s1 !! l = heap ConfigExamples.fresh !! l)
      ∧ JsMap.get (configStore s1)
          (@path_resolve ext (default "config.toml" (Some "config.toml")))
        = Some (mkConfigEntry configData (length (watchers ConfigExamples.fresh)))
      ∧ watchers s1
        = watchers ConfigExamples.fresh
          ++ [mkWatcher (@path_resolve ext (default "config.toml" (Some "config.toml")))
                configData]
      ∧ console s1 = console ConfigExamples.fresh
      ∧ (∀ keys t v, toml_path (TomlTable table) keys = Some t →
                     toml_primitive t = Some v →
                     read_path (heap s1) (VObject configData) keys = Ok v).
Proof.
  intros ext table.
  assert (Hd : distinct_keys (TomlTable table)).
  { split; [|done]. apply NoDup_singleton. }
  split_and!; [done|by vm_compute|done|exact Hd|].
  exact (@loadConfig_first_load ext (Some "config.toml") ConfigExamples.fresh
           "a = 1" table eq_refl eq_refl eq_refl Hd).
Defined.


Lemma demo_run :
  rtc (@handler_step ConfigExamples.demo_externals)
    ConfigExamples.fresh ConfigExamples.reloaded.
Proof.
  eapply rtc_l.
  { left. by eapply (@step_loadConfig ConfigExamples.demo_externals
                       (Some "config.toml") ConfigExamples.fresh). }
  eapply rtc_l.
  { left. exact (@step_other ConfigExamples.demo_externals ConfigExamples.loaded
                   (heap ConfigExamples.loaded) (files ConfigExamples.edited)). }
  eapply rtc_l; [|apply rtc_refl].
  left. eapply (@step_change ConfigExamples.demo_externals
                  (mkWatcher "/app/config.toml" 2%positive)
                  ConfigExamples.edited (Return ())).
  - vm_compute. by left.
  - by vm_compute.
Defined.

Lemma one_watcher_per_file_witness :
  let ext := ConfigExamples.demo_externals in
  let s := ConfigExamples.reloaded in
  configStore ConfigExamples.fresh = []
  ∧ watchers ConfigExamples.fresh = []
  ∧ rtc (@handler_step ext) ConfigExamples.fresh s
  ∧ NoDup (watched_path <$> watchers s)
  ∧ length (watchers s) = length (configStore s)
  ∧ (∀ path entry, JsMap.get (configStore s) path = Some entry →
       watchers s !! watcher entry = Some (mkWatcher path (data entry)))
  ∧ (∀ w, w ∈ watchers s →
       ∃ i, JsMap.get (configStore s) (watched_path w) = Some (mkConfigEntry (live w) i)
            ∧ watchers s !! i = Some w).
Proof.
  intros ext s. split_and!; [done|done|exact demo_run|..];
    apply (@one_watcher_per_file ext ConfigExamples.fresh s eq_refl eq_refl demo_run).
Defined.

Lemma exit_closes_every_watcher_witness :
  let ext := ConfigExamples.demo_externals in
  configStore ConfigExamples.fresh = []
  ∧ watchers ConfigExamples.fresh = []
  ∧ rtc (@handler_step ext) ConfigExamples.fresh ConfigExamples.reloaded
  ∧ on_exit ConfigExamples.reloaded = seq 0 (length (watchers ConfigExamples.reloaded)).
Proof.
  intros ext. split_and!; [done|done|exact demo_run|].
  exact (@exit_closes_every_watcher ext ConfigExamples.fresh ConfigExamples.reloaded
           eq_refl eq_refl demo_run).
Defined.

Lemma failed_load_is_not_cached_witness :
  let ext := ConfigExamples.demo_externals in
  let s := ReloadExamples.empty_process in
  let s1 := (@loadConfig ext (Some "config.toml") s).2 in
  @loadConfig ext (Some "config.toml") s
  = (Throw "Config file not found: /app/config.toml", s1)
  ∧ heap s1 = heap s ∧ files s1 = files s
  ∧ configStore s1 = configStore s ∧ watchers s1 = watchers s
  ∧ (∃ line, console s1 = console s ++ [line])
  ∧ ∀ content table,
      @toml_parse ext content = inr table →
      ∃ configData s2,
        @loadConfig ext (Some "config.toml")
          (write_file (@path_resolve ext (default "config.toml" (Some "config.toml")))
             content s1)
        = (Return configData, s2).
Proof.
  intros ext s s1.
  assert (Hrun : @loadConfig ext (Some "config.toml") s
                 = (Throw "Config file not found: /app/config.toml", s1))
    by (by vm_compute).
  split; [exact Hrun|].
  exact (@failed_load_is_not_cached ext (Some "config.toml") s _ s1 Hrun).
Defined.

Lemma updateObjectInPlace_keeps_objects_witness :
  ∃ h', updateObjectInPlace 3 ConfigExamples.p7_heap 1%positive 3%positive = Ok h'
        ∧ dom h' = dom ConfigExamples.p7_heap.
Proof.
  destruct (updateObjectInPlace 3 ConfigExamples.p7_heap 1%positive 3%positive)
    as [h'|st] eqn:Hrun; [|by vm_compute in Hrun].
  exists h'. split; [done|].
  exact (updateObjectInPlace_keeps_objects 3 ConfigExamples.p7_heap h'
           1%positive 3%positive Hrun).
Defined.

Lemma filtered_error_is_dropped_witness :
  let ext := LoggerExamples.demo_externals in
  let st := mkLoggerState [] 0 in
  "routes object" ∈ ERROR_FILTERS.patterns
  ∧ includes LoggerExamples.filtered_message "routes object" = true
  ∧ @RustStyleLogger.error ext LoggerExamples.filtered_message LUndefined st = st
  ∧ @RustStyleLogger.console_error ext LoggerExamples.filtered_message [] st = st
  ∧ ∃ line data,
      @RustStyleLogger.warn ext LoggerExamples.filtered_message LUndefined st
      = mkLoggerState (outputs st ++ [StdoutWrite line; AppendFile CombinedLog data])
          (S (S (clock_reads st))).
Proof.
  intros ext st.
  assert (Hp : "routes object" ∈ ERROR_FILTERS.patterns) by compute_done.
  assert (Hm : includes LoggerExamples.filtered_message "routes object" = true)
    by (by vm_compute).
  split; [exact Hp|]. split; [exact Hm|].
  exact (@filtered_error_is_dropped ext LoggerExamples.filtered_message "routes object"
           LUndefined [] LUndefined st Hp Hm).
Defined.

Lemma timestamp_layout_witness :
  let now := @clock LoggerExamples.demo_externals 0 in
  (1000 ≤ getFullYear now ≤ 9999)%Z
  ∧ getMonth now < 12 ∧ getDate now ≤ 31
  ∧ getHours now < 24 ∧ getMinutes now < 60 ∧ getSeconds now < 60
  ∧ RustStyleLogger.timestamp_of now = "2025-05-14 12:55:40"
  ∧ String.length (RustStyleLogger.timestamp_of now) = 19
  ∧ String.substring 4 1 (RustStyleLogger.timestamp_of now) = "-"
  ∧ String.substring 7 1 (RustStyleLogger.timestamp_of now) = "-"
  ∧ String.substring 10 1 (RustStyleLogger.timestamp_of now) = " "
  ∧ String.substring 13 1 (RustStyleLogger.timestamp_of now) = ":"
  ∧ String.substring 16 1 (RustStyleLogger.timestamp_of now) = ":".
Proof.
  intros now.
  assert (Hy : (1000 ≤ getFullYear now ≤ 9999)%Z) by (simpl; lia).
  assert (Hmo : getMonth now < 12) by (simpl; lia).
  assert (Hd : getDate now ≤ 31) by (simpl; lia).
  assert (Hh : getHours now < 24) by (simpl; lia).
  assert (Hmi : getMinutes now < 60) by (simpl; lia).
  assert (Hs : getSeconds now < 60) by (simpl; lia).
  split; [exact Hy|].
  split_and!; [exact Hmo|exact Hd|exact Hh|exact Hmi|exact Hs|by vm_compute|..];
    apply (timestamp_layout now Hy Hmo Hd Hh Hmi Hs).
Defined.

Lemma webhook_follows_reload_witness :
  let ext := WebhookExamples.demo_externals in
  let w := mkWatcher "/app/config.toml" 6%positive in
  let s := WebhookExamples.switched_on in
  let table := WebhookExamples.logging_table true in
  let tt := WebhookExamples.live_settings in
  files s !! watched_path w = Some "logging on"
  ∧ @toml_parse ext "logging on" = inr table
  ∧ distinct_keys (TomlTable table)
  ∧ plain_keys (toml_shape (TomlTable table))
  ∧ repr (heap s) (VObject (live w)) tt
  ∧ NoDup (labels tt) ∧ plain_keys tt
  ∧ (∀ l, l ∈ labels tt → is_Some (heap s !! l))
  ∧ toml_path (TomlTable table) ["logging"; "status"] = Some (TomlBool true)
  ∧ toml_path (TomlTable table) ["logging"; "actions"; "user"; "signup"]
    = Some (TomlBool true)
  ∧ toml_path (TomlTable table) ["logging"; "webhook"]
    = Some (TomlString "https://discord.example/hook")
  ∧ ∃ s',
      @on_change ext w s = Ok (Return (), s')
      ∧ logAction (live w) "signup" "hello" (heap s')
        = Ok [ConsoleLog ["signup"; "hello"];
              AxiosPost (VString "https://discord.example/hook")
                [mkEmbed (Some 16777215%Z) "Event: `signup`" "hello"
                   "Heliactyl Logging" "https://atqr.pages.dev/favicon2.png"]].
Proof.
  intros ext w s table tt.
  assert (Hfile : files s !! watched_path w = Some "logging on") by (by vm_compute).
  assert (Hd : distinct_keys (TomlTable table)).
  { vm_compute. repeat split; repeat constructor; set_solver. }
  assert (Hplain : plain_keys (toml_shape (TomlTable table))) by (by vm_compute).
  assert (Hlive : repr (heap s) (VObject (live w)) tt)
    by (unfold tt, WebhookExamples.live_settings, w; cbn [live]; solve_repr).
  assert (Hnd : NoDup (labels tt)) by compute_done.
  assert (Hplain_t : plain_keys tt) by (by vm_compute).
  assert (Halloc : ∀ l, l ∈ labels tt → is_Some (heap s !! l)).
  { intros l Hl.
    repeat (apply elem_of_cons in Hl as [->|Hl]; [by vm_compute; eexists|]).
    by apply elem_of_nil in Hl. }
  destruct (@webhook_follows_reload ext w s "logging on" table tt "signup" "hello"
              Hfile eq_refl Hd Hplain Hlive Hnd Hplain_t Halloc)
    as (s' & Hrun & _ & Hon).
  split_and!; [exact Hfile|done|exact Hd|exact Hplain|exact Hlive|exact Hnd
              |exact Hplain_t|exact Halloc|done|done|done|].
  exists s'. split; [exact Hrun|]. by apply Hon.
Defined.

Lemma webhook_logs_inherited_action_witness :
  let h := WebhookExamples.logging_heap in
  JsMap.get [("signup", VBool true)] "constructor" = None
  ∧ JsObject.inherited "constructor" = true
  ∧ logAction 1%positive "constructor" "hello" h
    = Ok [ConsoleLog ["constructor"; "hello"];
          AxiosPost (VString "https://discord.example/hook")
            [embed_of "constructor" "hello"]].
Proof.
  intros h. split; [done|]. split; [done|].
  apply (webhook_logs_inherited_action h 1%positive 2%positive 3%positive 4%positive
           [("logging", VObject 2%positive)]
           [("status", VBool true);
            ("webhook", VString "https://discord.example/hook");
            ("actions", VObject 3%positive)]
           [("user", VObject 4%positive); ("admin", VObject 5%positive)]
           [("signup", VBool true)]
           (VBool true) (VString "https://discord.example/hook")
           "constructor" "hello"); done.
Defined.

Lemma getAllServers_lists_every_page_witness :
  0 < length ServersExamples.two_pages
  ∧ length ServersExamples.two_pages ≤ 2
  ∧ getAllServers ServersExamples.steady_panel 2
    = Ok (Return ["alpha"; "beta"; "gamma"], 2).
Proof.
  assert (Hpos : 0 < length ServersExamples.two_pages) by (simpl; lia).
  assert (Hfuel : length ServersExamples.two_pages ≤ 2) by (simpl; lia).
  split_and!; [exact Hpos|exact Hfuel|].
  apply (getAllServers_lists_every_page ServersExamples.steady_panel
           ServersExamples.two_pages 2 Hpos Hfuel).
  intros k [|[|i]] data Hdata; simpl in Hdata; by simplify_eq.
Defined.

Lemma getAllServers_unbounded_witness :
  (∀ k p, ∃ page, ServersExamples.endless_panel k p = inr page ∧ (p < total_pages page)%Z)
  ∧ getAllServers ServersExamples.endless_panel 1000 = Stopped OutOfFuel.
Proof.
  assert (Hmore : ∀ k p, ∃ page, ServersExamples.endless_panel k p = inr page
                                 ∧ (p < total_pages page)%Z).
  { intros k p. eexists. split; [done|]. simpl. lia. }
  split; [exact Hmore|].
  exact (getAllServers_unbounded ServersExamples.endless_panel 1000 Hmore).
Defined.

Lemma getAllServers_fails_as_a_whole_witness :
  getAllServers ServersExamples.failing_panel 5
  = Ok (Throw "Request failed with status code 502", 2).
Proof.
  apply (getAllServers_fails_as_a_whole ServersExamples.failing_panel
           ServersExamples.two_pages 1 "Request failed with status code 502" 5).
  - simpl. lia.
  - lia.
  - intros [|i] data Hi Hdata; [|lia]. simpl in Hdata. by simplify_eq.
  - done.
Defined.

Lemma updateObjectInPlace_self_merge_witness :
  repr ConfigExamples.p7_heap (VObject 1%positive) ShapeExamples.p7_live
  ∧ depth ShapeExamples.p7_live ≤ 2
  ∧ updateObjectInPlace 2 ConfigExamples.p7_heap 1%positive 1%positive
    = Ok ConfigExamples.p7_heap.
Proof.
  assert (Hrepr : repr ConfigExamples.p7_heap (VObject 1%positive) ShapeExamples.p7_live)
    by (unfold ShapeExamples.p7_live; solve_repr).
  assert (Hdepth : depth ShapeExamples.p7_live ≤ 2) by (simpl; lia).
  split_and!; [exact Hrepr|exact Hdepth|].
  exact (updateObjectInPlace_self_merge 2 ConfigExamples.p7_heap 1%positive
           ShapeExamples.p7_live Hrepr Hdepth).
Defined.
